(** * Local AI translation: request client and proxy service

    A shallow embedding of the two JavaScript programs of the repository,

    - [browser-extension/src/background/translation.js], the browser-side
      request client ([LocalAITranslator]), and
    - the Express server that [setup.sh] writes out (the proxy service in
      front of the Ollama model runtime),

    together with the properties that their specification states about
    segmentation, eligibility filtering, page overlay, caching, cleaning,
    validation and batching.

    JavaScript strings are sequences of UTF-16 code units; they are modelled
    as [list N], one number per code unit.  Lengths and indices are [Z], as
    JavaScript numbers holding integers. *)

From Stdlib Require Import ZArith NArith QArith List Lia String Ascii.
From stdpp Require Import gmap list.
Import ListNotations.

Local Open Scope Z_scope.

(** ** JavaScript strings and the string primitives the programs use *)

Module JS.

Abbreviation jsstring := (list N).

(** [s.length] *)
Definition len (s : jsstring) : Z := Z.of_nat (length s).

(** A string is falsy exactly when it is empty ([if (s)], [!s]). *)
Definition truthy (s : jsstring) : bool :=
  match s with [] => false | _ :: _ => true end.

(** String literals of this development are written as Rocq strings, which
    hold the UTF-8 bytes of the source text; [js] turns them into the UTF-16
    code units that the JavaScript literal denotes. *)
Fixpoint utf16_of_utf8 (bs : list N) : jsstring :=
  match bs with
  | [] => []
  | b0 :: r0 =>
    if (b0 <? 0x80)%N then b0 :: utf16_of_utf8 r0
    else match r0 with
    | [] => [b0]
    | b1 :: r1 =>
      if (b0 <? 0xE0)%N then
        N.lor (N.shiftl (N.land b0 0x1F) 6) (N.land b1 0x3F) :: utf16_of_utf8 r1
      else match r1 with
      | [] => [b0; b1]
      | b2 :: r2 =>
        if (b0 <? 0xF0)%N then
          N.lor (N.shiftl (N.land b0 0x0F) 12)
            (N.lor (N.shiftl (N.land b1 0x3F) 6) (N.land b2 0x3F))
          :: utf16_of_utf8 r2
        else match r2 with
        | [] => [b0; b1; b2]
        | b3 :: r3 =>
          let cp := N.lor (N.shiftl (N.land b0 0x07) 18)
                      (N.lor (N.shiftl (N.land b1 0x3F) 12)
                         (N.lor (N.shiftl (N.land b2 0x3F) 6) (N.land b3 0x3F))) in
          let v := (cp - 0x10000)%N in
          (0xD800 + N.shiftr v 10)%N :: (0xDC00 + N.land v 0x3FF)%N
          :: utf16_of_utf8 r3
        end
      end
    end
  end.

Definition js (s : string) : jsstring :=
  utf16_of_utf8 (map N_of_ascii (list_ascii_of_string s)).

Arguments js : simpl never.

(** *** Character classes of the regular expressions *)

Definition in_range (lo hi c : N) : bool := ((lo <=? c) && (c <=? hi))%N.

(** [\d] *)
Definition is_digit (c : N) : bool := in_range 0x30 0x39 c.

(** [\w], that is [[A-Za-z0-9_]] *)
Definition is_word (c : N) : bool :=
  in_range 0x41 0x5A c || in_range 0x61 0x7A c || is_digit c || (c =? 0x5F)%N.

(** [\s]: the WhiteSpace and LineTerminator code units; [trim] removes the
    same set. *)
Definition is_space (c : N) : bool :=
  in_range 0x09 0x0D c || (c =? 0x20)%N || (c =? 0xA0)%N || (c =? 0x1680)%N
  || in_range 0x2000 0x200A c || (c =? 0x2028)%N || (c =? 0x2029)%N
  || (c =? 0x202F)%N || (c =? 0x205F)%N || (c =? 0x3000)%N || (c =? 0xFEFF)%N.

(** [[.!?。！？]] *)
Definition is_terminator (c : N) : bool :=
  (c =? 0x2E)%N || (c =? 0x21)%N || (c =? 0x3F)%N
  || (c =? 0x3002)%N || (c =? 0xFF01)%N || (c =? 0xFF1F)%N.

(** [[一-鿿]] *)
Definition is_chinese (c : N) : bool := in_range 0x4E00 0x9FFF c.

(** *** [substring], [trim] *)

(** [s.substring(start, end)]: both indices are clamped to [0 .. s.length]
    and swapped when [start > end]. *)
Definition substring (s : jsstring) (start end_ : Z) : jsstring :=
  let finalStart := Z.min (Z.max start 0) (len s) in
  let finalEnd := Z.min (Z.max end_ 0) (len s) in
  let from := Z.min finalStart finalEnd in
  let to := Z.max finalStart finalEnd in
  take (Z.to_nat (to - from)) (drop (Z.to_nat from) s).

(** [s.substring(start)]: [end] defaults to [s.length]. *)
Definition substring_from (s : jsstring) (start : Z) : jsstring :=
  substring s start (len s).

(** The longest prefix of [s] made of code units in [p], and the rest. *)
Fixpoint span (p : N -> bool) (s : jsstring) : jsstring * jsstring :=
  match s with
  | [] => ([], [])
  | c :: r => if p c then let '(a, b) := span p r in (c :: a, b) else ([], s)
  end.

Definition trimStart (s : jsstring) : jsstring := snd (span is_space s).
Definition trimEnd (s : jsstring) : jsstring := rev (trimStart (rev s)).

(** [s.trim()] *)
Definition trim (s : jsstring) : jsstring := trimEnd (trimStart s).

(** *** [text.split] on the sentence separator

    The separator is one or more of the terminators [. ! ? 。 ！ ？]
    followed by any number of white-space code units, the whole of it in a
    capture group. *)

(** One attempt of the separator pattern at the head of [s].  Both
    quantifiers are greedy and the character classes are disjoint, so the
    match, when there is one, is the longest run of terminators followed by
    the longest run of white space; it is never empty. *)
Definition match_separator (s : jsstring) : option (jsstring * jsstring) :=
  match span is_terminator s with
  | ([], _) => None
  | (marks, r) => let '(blanks, rest) := span is_space r in
                  Some (marks ++ blanks, rest)
  end.

(** The loop of [RegExp.prototype[Symbol.split]]: [piece] holds, reversed,
    the code units between the end [p] of the previous match and the
    position [q] under examination, and [s] is the input from [q] on.  When
    the pattern matches at [q] the piece and then the captured group, here
    the whole separator, are appended to the result; otherwise [q] advances
    by one.  The tail from the last match on closes the result.

    Every iteration consumes at least one code unit of [s], so [length s]
    iterations suffice ([split_loop_fuel]). *)
Fixpoint split_loop (fuel : nat) (piece : jsstring) (s : jsstring)
  : list jsstring :=
  match fuel with
  | O => [rev piece ++ s]
  | S fuel' =>
    match s with
    | [] => [rev piece]
    | c :: s' =>
      match match_separator s with
      | Some (sep, rest) => rev piece :: sep :: split_loop fuel' [] rest
      | None => split_loop fuel' (c :: piece) s'
      end
    end
  end.

Definition split_sentences (text : jsstring) : list jsstring :=
  split_loop (length text) [] text.

End JS.

Import JS.

(** ** The request client: [translation.js] *)

Module Client.

(** *** [splitText] *)

(** The body of [for (const sentence of sentences)], on the pair of the
    array [segments] and the variable [currentSegment]. *)
Definition splitText_step (maxLength : Z)
    (st : list jsstring * jsstring) (sentence : jsstring)
  : list jsstring * jsstring :=
  let '(segments, currentSegment) := st in
  if len currentSegment + len sentence <=? maxLength then
    (segments, currentSegment ++ sentence)
  else if truthy currentSegment then
    (segments ++ [currentSegment], sentence)
  else
    (segments ++ [substring sentence 0 maxLength],
     substring_from sentence maxLength).

Definition splitText (text : jsstring) (maxLength : Z) : list jsstring :=
  if len text <=? maxLength then [text]
  else
    let sentences := split_sentences text in
    let '(segments, currentSegment) :=
      fold_left (splitText_step maxLength) sentences ([], []) in
    if truthy currentSegment then segments ++ [currentSegment]
    else segments.

(** *** [shouldTranslate] *)

(** [/^[\d\s\W]+$/.test(text)]: the pattern has no flags, so [$] is the end
    of the input and the class matches line terminators as well; the test
    holds exactly when [text] is not empty and each of its code units is a
    digit, white space or not a word character. *)
Definition test_digits_spaces_symbols (text : jsstring) : bool :=
  truthy text
  && forallb (fun c => is_digit c || is_space c || negb (is_word c)) text.

(** [text.match(/[一-鿿]/g)]: the array of the matches, [null] when
    there is none; an empty list stands for [null]. *)
Definition match_chinese (text : jsstring) : jsstring :=
  List.filter is_chinese text.

(** The ratio is a quotient of two array lengths compared with [0.8].  It is
    computed here in exact rationals.  The double-precision quotient is the
    correctly rounded rational one and rounding is monotone, so the double
    comparison [chineseRatio > 0.8] gives the same answer whenever the exact
    ratio is at most [4/5], and also when it is above, as long as the text
    has fewer than [2^50] code units (the ratio then exceeds [4/5] by at
    least [1/(5 * length)], more than the rounding error of both sides);
    JavaScript engines do not build longer strings. *)
Definition chineseRatio (text : jsstring) : Q :=
  let chineseChars := match_chinese text in
  if truthy chineseChars
  then (inject_Z (len chineseChars) / inject_Z (len text))%Q
  else 0%Q.

Definition shouldTranslate (text : jsstring) : bool :=
  if len text <? 3 then false
  else if test_digits_spaces_symbols text then false
  else if negb (Qle_bool (chineseRatio text) (8 # 10)) then false
  else true.

(** *** [batchTranslate] (client side) *)

(** What the client reads of one entry of [results]. *)
Record ResultItem := { success : bool; translation : jsstring }.

Inductive BatchResult :=
| BatchSuccess (results : list ResultItem) (totalTexts processingTime : Z)
| BatchFailure (error : jsstring).

(** The POST to [/translate/batch] and the reading of its answer are a
    parameter, [post]: the proxy service is on the other side of it. *)
Definition batchTranslate (post : list jsstring -> BatchResult)
    (texts : list jsstring) : BatchResult :=
  if (length texts =? 0)%nat then
    BatchFailure (js "文本數組為空")
  else if (50 <? length texts)%nat then
    BatchFailure (js "單次最多翻譯50個文本")
  else post texts.

(** *** [translateWebPage] and [createBilingualDisplay] *)

(** The document is seen through [extractTextNodes]: the text nodes that
    the tree walker accepts, in document order, each with a parent element
    (the walker rejects the others, so the guard of
    [createBilingualDisplay] on the parent never fires).  A position of the
    page holds the text node that was there, or the container that
    [parent.replaceChild] put in its place. *)
Inductive PageNode :=
| TextNode (textContent : jsstring)
| BilingualBlock (original translation : jsstring).

Inductive PageOutcome :=
| NothingToTranslate
| PageFailed (error : jsstring)
| PageTranslated (translatedNodes totalTexts processingTime : Z).

(** [text.length > 0 && this.shouldTranslate(text)] on the trimmed content *)
Definition wanted (original : jsstring) : bool :=
  (0 <? len original) && shouldTranslate original.

(** The callback of [textNodes.forEach], on the page built so far and the
    counter [appliedCount]. *)
Definition apply_step (results : list ResultItem)
    (st : list PageNode * nat) (textContent : jsstring)
  : list PageNode * nat :=
  let '(page, appliedCount) := st in
  let original := trim textContent in
  if wanted original then
    match results !! appliedCount with
    | Some result =>
      if success result then
        (page ++ [BilingualBlock original (translation result)],
         S appliedCount)
      else (page ++ [TextNode textContent], appliedCount)
    | None => (page ++ [TextNode textContent], appliedCount)
    end
  else (page ++ [TextNode textContent], appliedCount).

Definition translateWebPage (post : list jsstring -> BatchResult)
    (textNodes : list jsstring) : PageOutcome * list PageNode :=
  let textsToTranslate := List.filter wanted (map trim textNodes) in
  if (length textsToTranslate =? 0)%nat then
    (NothingToTranslate, map TextNode textNodes)
  else
    match batchTranslate post textsToTranslate with
    | BatchFailure error => (PageFailed error, map TextNode textNodes)
    | BatchSuccess results _ processingTime =>
      let '(page, appliedCount) :=
        fold_left (apply_step results) textNodes ([], O) in
      (PageTranslated (Z.of_nat appliedCount)
         (Z.of_nat (length textsToTranslate)) processingTime,
       page)
    end.

End Client.

(** ** The overlay in the words of the specification

    The reading of the specification, to compare the code with: results are
    paired with the eligible nodes by position, the i-th eligible node is
    replaced when the i-th result is successful and every other node is
    left as it is.  This is not a translation of the source. *)

Module Positional.

Import Client.

Fixpoint overlay (results : list ResultItem) (textNodes : list jsstring)
  : list PageNode :=
  match textNodes with
  | [] => []
  | textContent :: rest =>
    let original := trim textContent in
    if wanted original then
      match results with
      | result :: results' =>
        (if success result
         then BilingualBlock original (translation result)
         else TextNode textContent)
        :: overlay results' rest
      | [] => TextNode textContent :: overlay [] rest
      end
    else TextNode textContent :: overlay results rest
  end.

(** The results before the first failed one. *)
Fixpoint successful_prefix (results : list ResultItem) : list ResultItem :=
  match results with
  | [] => []
  | result :: results' =>
    if success result then result :: successful_prefix results' else []
  end.

End Positional.

(** ** The proxy service: the server written by [setup.sh] *)

Module Server.

(** *** The cache key *)

Definition is_high_surrogate (c : N) : bool := in_range 0xD800 0xDBFF c.
Definition is_low_surrogate (c : N) : bool := in_range 0xDC00 0xDFFF c.

Definition utf8_3 (c : N) : list N :=
  [N.lor 0xE0 (N.shiftr c 12);
   N.lor 0x80 (N.land (N.shiftr c 6) 0x3F);
   N.lor 0x80 (N.land c 0x3F)].

Definition utf8_4 (cp : N) : list N :=
  [N.lor 0xF0 (N.shiftr cp 18);
   N.lor 0x80 (N.land (N.shiftr cp 12) 0x3F);
   N.lor 0x80 (N.land (N.shiftr cp 6) 0x3F);
   N.lor 0x80 (N.land cp 0x3F)].

(** [Buffer.from(text)]: the UTF-8 bytes of the string; a surrogate pair is
    one code point, a lone surrogate is encoded as U+FFFD. *)
Fixpoint utf8_encode (s : jsstring) : list N :=
  match s with
  | [] => []
  | c :: r =>
    if (c <? 0x80)%N then c :: utf8_encode r
    else if (c <? 0x800)%N then
      N.lor 0xC0 (N.shiftr c 6) :: N.lor 0x80 (N.land c 0x3F) :: utf8_encode r
    else if is_high_surrogate c then
      match r with
      | d :: r' =>
        if is_low_surrogate d then
          utf8_4 (0x10000 + N.shiftl (c - 0xD800) 10 + (d - 0xDC00))%N
          ++ utf8_encode r'
        else utf8_3 0xFFFD ++ utf8_encode r
      | [] => utf8_3 0xFFFD
      end
    else if is_low_surrogate c then utf8_3 0xFFFD ++ utf8_encode r
    else utf8_3 c ++ utf8_encode r
  end.

Definition base64_digit (v : N) : N :=
  if (v <? 26)%N then (0x41 + v)%N
  else if (v <? 52)%N then (0x61 + (v - 26))%N
  else if (v <? 62)%N then (0x30 + (v - 52))%N
  else if (v =? 62)%N then 0x2B%N
  else 0x2F%N.

(** [buffer.toString('base64')]: three bytes give four digits, the last
    group is padded with [=]. *)
Fixpoint base64 (bs : list N) : jsstring :=
  match bs with
  | [] => []
  | [a] =>
    [base64_digit (N.shiftr a 2);
     base64_digit (N.shiftl (N.land a 3) 4);
     0x3D%N; 0x3D%N]
  | [a; b] =>
    [base64_digit (N.shiftr a 2);
     base64_digit (N.lor (N.shiftl (N.land a 3) 4) (N.shiftr b 4));
     base64_digit (N.shiftl (N.land b 15) 2);
     0x3D%N]
  | a :: b :: c :: r =>
    base64_digit (N.shiftr a 2)
    :: base64_digit (N.lor (N.shiftl (N.land a 3) 4) (N.shiftr b 4))
    :: base64_digit (N.lor (N.shiftl (N.land b 15) 2) (N.shiftr c 6))
    :: base64_digit (N.land c 63)
    :: base64 r
  end.

Definition cacheKey (model source_lang target_lang text : jsstring)
  : jsstring :=
  model ++ js "_" ++ source_lang ++ js "_" ++ target_lang ++ js "_"
  ++ substring (base64 (utf8_encode text)) 0 50.

(** *** The prompt *)

Definition prompt_zh_tw (text : jsstring) : jsstring :=
  js "你是一個專業的翻譯專家，請將以下文本翻譯成台灣繁體中文。

翻譯要求：
1. 使用台灣地區的用詞習慣和表達方式
2. 保持原文的語氣、風格和格式
3. 技術術語使用台灣慣用翻譯
4. 確保翻譯自然流暢，符合中文語法
5. 如果是專有名詞，保持原文或使用台灣通用譯名
6. 保留原文中的HTML標籤、連結等格式

原文：
" ++ text ++ js "

請只返回翻譯結果，不要包含任何解釋或說明：".

Definition prompt_zh_cn (text : jsstring) : jsstring :=
  js "你是一個專業的翻譯專家，請將以下文本翻譯成簡體中文。

翻譯要求：
1. 使用大陸地區的用詞習慣和表達方式
2. 保持原文的語氣、風格和格式
3. 確保翻譯自然流暢，符合中文語法
4. 保留原文中的HTML標籤、連結等格式

原文：
" ++ text ++ js "

請只返回翻譯結果，不要包含任何解釋或說明：".

Definition prompt_en (text : jsstring) : jsstring :=
  js "You are a professional translator. Please translate the following text to English.

Requirements:
1. Maintain the original tone, style, and format
2. Use natural and fluent English
3. Preserve HTML tags, links and other formatting in the original text

Original text:
" ++ text ++ js "

Please return only the translation result without any explanation:".

(** [prompts[targetLang] || prompts['zh-tw']], for the three own keys of
    [prompts]. *)
Definition getTranslationPrompt (text sourceLang targetLang : jsstring)
  : jsstring :=
  if decide (targetLang = js "zh-tw") then prompt_zh_tw text
  else if decide (targetLang = js "zh-cn") then prompt_zh_cn text
  else if decide (targetLang = js "en") then prompt_en text
  else prompt_zh_tw text.

(** *** The model runtime and the state of the service *)

(** The body of the POST to [/api/generate]; [stream] and [options] are the
    same in every request. *)
Record OllamaRequest := { req_model : jsstring; req_prompt : jsstring }.

Record OllamaStats := {
  total_duration : Z;
  load_duration : Z;
  prompt_eval_count : Z;
  eval_count : Z
}.

(** What [axios.post] comes back with: the completion and its figures, or an
    error (time-out, transport error, ill-formed answer) with its message. *)
Inductive OllamaReply :=
| Completion (response : jsstring) (stats : OllamaStats)
| Failure (message : jsstring).

(** The runtime is outside the program: it is any function from the
    requests made so far and the present request to a reply. *)
Definition Runtime := list OllamaRequest -> OllamaRequest -> OllamaReply.

(** The object that [translateWithOllama] returns, and that the cache
    holds.  Its field [success] is [true] in every object of this shape, so
    it is not a field of the record. *)
Record TranslationResult := {
  translation : jsstring;
  model : jsstring;
  stats : OllamaStats
}.

(** The module-level [cache], a map from keys to results (an entry past its
    time to live is an absent key), and the requests sent to the runtime so
    far. *)
Record World := {
  cache : gmap jsstring TranslationResult;
  calls : list OllamaRequest
}.

Definition cache_set (key : jsstring) (r : TranslationResult) (w : World)
  : World :=
  {| cache := <[key := r]> (cache w); calls := calls w |}.

(** *** [translateWithOllama] *)

Definition is_colon (c : N) : bool := (c =? 0xFF1A)%N || (c =? 0x3A)%N.

Fixpoint strip_prefix (label s : jsstring) : option jsstring :=
  match label, s with
  | [], _ => Some s
  | a :: label', b :: s' => if (a =? b)%N then strip_prefix label' s' else None
  | _ :: _, [] => None
  end.

(** [s.replace(/^LABEL[：:]\s*/i, '')] for a label of Chinese characters,
    which have no other case: the label, one colon and the white space
    after it are removed from the head of [s], when they are there. *)
Definition strip_label (label s : jsstring) : jsstring :=
  match strip_prefix label s with
  | Some (c :: rest) => if is_colon c then trimStart rest else s
  | _ => s
  end.

(** The labels of the three patterns, in the order of the calls. *)
Definition labels : list jsstring := [js "翻譯結果"; js "譯文"; js "翻譯"].

Definition clean (translation : jsstring) : jsstring :=
  trim (strip_label (js "翻譯")
          (strip_label (js "譯文")
             (strip_label (js "翻譯結果") translation))).

(** The request that [translateWithOllama] posts. *)
Definition generate_request (text sourceLang targetLang model : jsstring)
  : OllamaRequest :=
  {| req_model := model;
     req_prompt := getTranslationPrompt text sourceLang targetLang |}.

(** The message of the error thrown in the [catch] block. *)
Definition failure_message (message : jsstring) : jsstring :=
  js "翻譯失敗: " ++ message.

(** A failed call is the [throw new Error(...)] of the [catch] block; the
    value on the left is the message of that error. *)
Definition translateWithOllama (rt : Runtime)
    (text sourceLang targetLang model : jsstring) (w : World)
  : (jsstring + TranslationResult) * World :=
  let request := generate_request text sourceLang targetLang model in
  let w' := {| cache := cache w; calls := calls w ++ [request] |} in
  match rt (calls w) request with
  | Completion response stats =>
    (inr {| translation := clean response;
            model := model;
            stats := stats |}, w')
  | Failure message => (inl (failure_message message), w')
  end.

(** *** [batchTranslate] *)

(** An element of [results]: [{ index, ...cached }] or
    [{ index, ...result }], or the object built in the [catch] block. *)
Inductive BatchEntry :=
| EntryResult (index : nat) (result : TranslationResult)
| EntryFailed (index : nat) (error : jsstring) (translation : jsstring).

Definition entry_index (e : BatchEntry) : nat :=
  match e with EntryResult i _ => i | EntryFailed i _ _ => i end.

Definition entry_success (e : BatchEntry) : bool :=
  match e with EntryResult _ _ => true | EntryFailed _ _ _ => false end.

Definition entry_translation (e : BatchEntry) : jsstring :=
  match e with
  | EntryResult _ r => translation r
  | EntryFailed _ _ t => t
  end.

Definition entry_error (e : BatchEntry) : option jsstring :=
  match e with EntryResult _ _ => None | EntryFailed _ err _ => Some err end.

(** [results.sort((a, b) => a.index - b.index)]; the sort of an array is
    stable. *)
Fixpoint insert_by_index (e : BatchEntry) (l : list BatchEntry)
  : list BatchEntry :=
  match l with
  | [] => [e]
  | x :: l' =>
    if (entry_index e <=? entry_index x)%nat then e :: l
    else x :: insert_by_index e l'
  end.

Definition sort_by_index (l : list BatchEntry) : list BatchEntry :=
  foldr insert_by_index [] l.

Definition batchSize : nat := 5.

Section Service.

(** The runtime, and the order in which the pending requests of one group
    complete: [completion] rearranges the cache writes of a group. *)
Variable rt : Runtime.
Variable completion :
  list (jsstring * TranslationResult) -> list (jsstring * TranslationResult).

Section Batch.

Variables (sourceLang targetLang model : jsstring).

(** The callback of [batch.map], for the text at [index] of the group that
    starts at [i]: the value its promise is fulfilled with, the [cache.set]
    it does on the way, if any, and the state once the callback has reached
    its [await] (on a miss the request has then been sent). *)
Definition batch_item (i index : nat) (text : jsstring) (w : World)
  : BatchEntry * option (jsstring * TranslationResult) * World :=
  let cacheKey := cacheKey model sourceLang targetLang text in
  match cache w !! cacheKey with
  | Some cached => (EntryResult (i + index) cached, None, w)
  | None =>
    match translateWithOllama rt text sourceLang targetLang model w with
    | (inr result, w1) =>
      (EntryResult (i + index) result, Some (cacheKey, result), w1)
    | (inl error, w1) => (EntryFailed (i + index) error text, None, w1)
    end
  end.

(** [batch.map(async (text, index) => ...)].  The callbacks run one after
    the other up to their first [await]: each reads the cache and, on a
    miss, sends its request.  No [cache.set] of the group runs before all
    its requests are sent, so the writes are collected and the cache of the
    state is the one at the start of the group. *)
Fixpoint map_batch (i index : nat) (batch : list jsstring) (w : World)
  : list BatchEntry * list (jsstring * TranslationResult) * World :=
  match batch with
  | [] => ([], [], w)
  | text :: batch' =>
    let '(entry, write, w1) := batch_item i index text w in
    let '(entries, writes, w') := map_batch i (S index) batch' w1 in
    (entry :: entries, option_list write ++ writes, w')
  end.

(** [await Promise.allSettled(batchPromises)]: the requests complete in
    some order and each successful one stores its result; the values come
    back in the order of the promises. *)
Definition settle_batch (i : nat) (batch : list jsstring) (w : World)
  : list BatchEntry * World :=
  let '(entries, writes, w') := map_batch i O batch w in
  (entries,
   fold_left (fun w kv => cache_set (fst kv) (snd kv) w) (completion writes) w').

(** [for (let i = 0; i < texts.length; i += batchSize)], with
    [texts.slice(i, i + batchSize)].  Each iteration adds [batchSize] to
    [i], so [length texts] iterations are enough to leave the loop. *)
Fixpoint batch_loop (fuel : nat) (texts : list jsstring) (i : nat)
    (results : list BatchEntry) (w : World) : list BatchEntry * World :=
  match fuel with
  | O => (results, w)
  | S fuel' =>
    if (i <? length texts)%nat then
      let batch := take batchSize (drop i texts) in
      let '(batchResults, w') := settle_batch i batch w in
      batch_loop fuel' texts (i + batchSize) (results ++ batchResults) w'
    else (results, w)
  end.

Definition batchTranslate (texts : list jsstring) (w : World)
  : list BatchEntry * World :=
  let '(results, w') := batch_loop (length texts) texts O [] w in
  (sort_by_index results, w').

End Batch.

(** *** The routes *)

Inductive Response :=
| TranslateResponse (result : TranslationResult) (from_cache : bool)
| BatchResponse (results : list BatchEntry) (total_texts : Z)
| ErrorResponse (status : Z) (error : jsstring).

(** The fields of [req.body]; an absent optional field takes its default in
    the destructuring. *)
Record TranslateBody := {
  text : jsstring;
  source_lang : option jsstring;
  target_lang : option jsstring;
  body_model : option jsstring
}.

Record BatchBody := {
  texts : list jsstring;
  batch_source_lang : option jsstring;
  batch_target_lang : option jsstring;
  batch_model : option jsstring
}.

Definition default_source_lang : jsstring := js "auto".
Definition default_target_lang : jsstring := js "zh-tw".
Definition default_model : jsstring := js "qwen2:7b-instruct".

(** [app.post('/api/translate', ...)] *)
Definition translate (body : TranslateBody) (w : World) : Response * World :=
  let text := text body in
  let source_lang := default default_source_lang (source_lang body) in
  let target_lang := default default_target_lang (target_lang body) in
  let model := default default_model (body_model body) in
  if negb (truthy text) || (len (trim text) =? 0) then
    (ErrorResponse 400 (js "文本不能為空"), w)
  else if 10000 <? len text then
    (ErrorResponse 400 (js "文本過長，請分段翻譯"), w)
  else
    let key := cacheKey model source_lang target_lang text in
    match cache w !! key with
    | Some cached => (TranslateResponse cached true, w)
    | None =>
      match translateWithOllama rt text source_lang target_lang model w with
      | (inr result, w1) =>
        (TranslateResponse result false, cache_set key result w1)
      | (inl error, w1) => (ErrorResponse 500 error, w1)
      end
    end.

(** [app.post('/api/translate/batch', ...)]; [processing_time], a
    difference of two clock readings, is left out of the response. *)
Definition translate_batch (body : BatchBody) (w : World) : Response * World :=
  let texts := texts body in
  let source_lang := default default_source_lang (batch_source_lang body) in
  let target_lang := default default_target_lang (batch_target_lang body) in
  let model := default default_model (batch_model body) in
  if (length texts =? 0)%nat then
    (ErrorResponse 400 (js "文本數組不能為空"), w)
  else if (50 <? length texts)%nat then
    (ErrorResponse 400 (js "單次最多翻譯50個文本"), w)
  else
    let '(results, w') := batchTranslate source_lang target_lang model texts w in
    (BatchResponse results (Z.of_nat (length texts)), w').

End Service.

Arguments cacheKey : simpl never.
Arguments getTranslationPrompt : simpl never.
Arguments clean : simpl never.

End Server.

(** ** Invariants of a batch

    The predicates in which the properties of [batchTranslate] are stated
    and proved: [all_texts] is the array of the request and [cache0] the
    cache when the request comes in. *)

Module Invariants.

Import Server.

Section Predicates.

Variable rt : Runtime.
Variables (source target model : jsstring).
Variable all_texts : list jsstring.
Variable cache0 : gmap jsstring TranslationResult.

(** A key is dead when the runtime fails, at any time, on every text of the
    request that has this key. *)
Definition dead (k : jsstring) : Prop :=
  forall t, In t all_texts -> cacheKey model source target t = k ->
  forall history,
    exists message,
      rt history (generate_request t source target model) = Failure message.

(** The cache holds no dead key that it did not hold at the start. *)
Definition no_dead_key (c : gmap jsstring TranslationResult) : Prop :=
  forall k, cache0 !! k = None -> dead k -> c !! k = None.

(** What is known of the entry of a text. *)
Definition entry_good (text : jsstring) (e : BatchEntry) : Prop :=
  (entry_success e = true
   \/ exists history message,
        rt history (generate_request text source target model)
          = Failure message
        /\ e = EntryFailed (entry_index e) (failure_message message) text)
  /\ (cache0 !! cacheKey model source target text = None ->
      dead (cacheKey model source target text) ->
      entry_success e = false /\ entry_translation e = text).

End Predicates.

(** *** The exact account of a batch

    [w0] is the state when the request comes in, [called] says of each text
    whether its callback sent a request to the runtime, and [results] is
    the array of entries. *)

Section Account.

Variable rt : Runtime.
Variables (source target model : jsstring).

(** The requests that the callbacks send to the runtime: those of the texts
    marked in [called], in the order of the texts. *)
Fixpoint requests_sent (texts : list jsstring) (called : list bool)
  : list OllamaRequest :=
  match texts, called with
  | t :: texts', c :: called' =>
    (if c then [generate_request t source target model] else [])
    ++ requests_sent texts' called'
  | _, _ => []
  end.

(** Whether the cache [c] has no entry for the text. *)
Definition uncached (c : gmap jsstring TranslationResult) (t : jsstring)
  : bool :=
  bool_decide (c !! cacheKey model source target t = None).

(** The entry of the text at [i] when its request is sent after those of
    [history]. *)
Definition runtime_entry (history : list OllamaRequest) (i : nat)
    (text : jsstring) : BatchEntry :=
  match rt history (generate_request text source target model) with
  | Completion response stats =>
    EntryResult i {| translation := clean response; Server.model := model;
                     stats := stats |}
  | Failure message => EntryFailed i (failure_message message) text
  end.

Variable w0 : World.
Variable all_texts : list jsstring.

(** The entry [e] of the text at [i]: the answer of the runtime to the one
    request sent for it; or, when none was sent, a result from the cache,
    which was there at the start or is the entry of an earlier text with
    the same key. *)
Definition entry_of (called : list bool) (results : list BatchEntry)
    (i : nat) (text : jsstring) (e : BatchEntry) : Prop :=
  match called !! i with
  | Some true =>
    cache w0 !! cacheKey model source target text = None
    /\ e = runtime_entry
             (calls w0 ++ requests_sent (take i all_texts) (take i called))
             i text
  | _ =>
    exists cached,
      e = EntryResult i cached
      /\ (cache w0 !! cacheKey model source target text = Some cached
          \/ exists j t,
               (j < i)%nat /\ all_texts !! j = Some t
               /\ cacheKey model source target t
                  = cacheKey model source target text
               /\ results !! j = Some (EntryResult j cached)
               /\ called !! j = Some true)
  end.

(** What holds when the groups of the texts [seen] are done. *)
Definition batch_inv (seen : list jsstring) (results : list BatchEntry)
    (called : list bool) (w : World) : Prop :=
  length results = length seen
  /\ length called = length seen
  /\ calls w = calls w0 ++ requests_sent seen called
  /\ (forall j text, seen !! j = Some text ->
        exists e, results !! j = Some e /\ entry_index e = j
                  /\ entry_of called results j text e)
  /\ (forall k v, cache w !! k = Some v ->
        cache w0 !! k = Some v
        \/ exists j t,
             all_texts !! j = Some t /\ cacheKey model source target t = k
             /\ results !! j = Some (EntryResult j v)
             /\ called !! j = Some true)
  /\ (forall k, is_Some (cache w0 !! k) -> is_Some (cache w !! k)).

End Account.

End Invariants.

(** ** Reading of the cleaning patterns

    The shapes in which the cleaning of the model output is stated. *)

Module Cleaning.

Import Server.

(** [s'] is [s] without the white space at its head. *)
Definition trimmed_start (s s' : jsstring) : Prop :=
  exists blanks,
    s = blanks ++ s'
    /\ Forall (fun c => is_space c = true) blanks
    /\ (forall c r, s' = c :: r -> is_space c = false).

(** [s'] is [s] without the white space at its two ends. *)
Definition trimmed (s s' : jsstring) : Prop :=
  exists before after,
    s = before ++ s' ++ after
    /\ Forall (fun c => is_space c = true) before
    /\ Forall (fun c => is_space c = true) after
    /\ (forall c r, s' = c :: r -> is_space c = false)
    /\ (forall init c, s' = init ++ [c] -> is_space c = false).

(** One [replace] with the pattern of [label]: [s] opens with the label and
    a colon, and [s'] is what follows them without the white space at its
    head; or [s] does not open so, and [s'] is [s]. *)
Definition label_removed (label s s' : jsstring) : Prop :=
  (exists colon rest,
     is_colon colon = true /\ s = label ++ colon :: rest
     /\ trimmed_start rest s')
  \/ ((forall colon rest, is_colon colon = true -> s <> label ++ colon :: rest)
      /\ s' = s).

End Cleaning.

(** ** The other routes of the service *)

Module Routes.

Import Server.

(** [app.delete('/api/cache', ...)]: [cache.flushAll()]. *)
Definition clear_cache (w : World) : World :=
  {| cache := ∅; calls := calls w |}.

(** The keys of [supported_languages] in [app.get('/api/languages', ...)]. *)
Definition supported_languages : list jsstring :=
  [js "zh-tw"; js "zh-cn"; js "en"; js "ja"; js "ko"; js "es"; js "fr";
   js "de"; js "it"; js "pt"; js "ru"; js "ar"].

(** [cache.keys().length], the [cache_keys] of [/api/health] and the
    [keys_count] of [/api/cache/stats]. *)
Definition cache_keys (w : World) : Z := Z.of_nat (size (cache w)).

End Routes.

(** ** The request client, continued: [translateText] and
    [splitAndTranslate] *)

Module Requests.

Import Client.

(** The body of the POST to [/translate]. *)
Record TranslateRequest := {
  request_text : jsstring;
  request_source_lang : jsstring;
  request_target_lang : jsstring;
  request_model : jsstring
}.

(** What one exchange with the service comes to, as the [try] block sees
    it: [fetch] or [response.json()] throws (no connection, the abort after
    the time-out, a body that is not JSON); or the response is not [ok] and
    its body may hold an [error]; or the body of an [ok] response. *)
Inductive FetchResult :=
| Thrown (message : jsstring)
| NotOk (status : Z) (error : option jsstring)
| Body (success : bool) (translation : jsstring) (error : option jsstring)
    (from_cache : bool) (stats : option Server.OllamaStats).

(** What the client does that can be seen from outside, in order. *)
Inductive Event :=
| Posted (request : TranslateRequest)
| Waited (ms : Z).

(** The object that [translateText] or [splitAndTranslate] returns. *)
Inductive TextResult :=
| Translated (translation sourceLang targetLang : jsstring) (fromCache : bool)
    (stats : option Server.OllamaStats)
| Joined (translation sourceLang targetLang : jsstring) (segments : Z)
| Failed (error : jsstring) (originalText : option jsstring).

(** [result.success] *)
Definition result_success (r : TextResult) : bool :=
  match r with Failed _ _ => false | _ => true end.

(** [result.translation], read only when [result.success] holds. *)
Definition result_translation (r : TextResult) : jsstring :=
  match r with
  | Translated t _ _ _ _ => t
  | Joined t _ _ _ => t
  | Failed _ _ => []
  end.

(** How a call ends: with a result; by running off the end of the function,
    which gives [undefined]; or with the [TypeError] of reading
    [result.success] on [undefined]. *)
Inductive Outcome :=
| Returns (r : TextResult)
| ReturnsUndefined
| Throws.

(** The fields set by the constructor. *)
Definition model : jsstring := js "qwen2:7b-instruct".
Definition retryCount : Z := 3.

Fixpoint digits (d : Decimal.uint) : jsstring :=
  match d with
  | Decimal.Nil => []
  | Decimal.D0 d' => 0x30%N :: digits d'
  | Decimal.D1 d' => 0x31%N :: digits d'
  | Decimal.D2 d' => 0x32%N :: digits d'
  | Decimal.D3 d' => 0x33%N :: digits d'
  | Decimal.D4 d' => 0x34%N :: digits d'
  | Decimal.D5 d' => 0x35%N :: digits d'
  | Decimal.D6 d' => 0x36%N :: digits d'
  | Decimal.D7 d' => 0x37%N :: digits d'
  | Decimal.D8 d' => 0x38%N :: digits d'
  | Decimal.D9 d' => 0x39%N :: digits d'
  end.

(** A non-negative integer in a template literal. *)
Definition number_to_string (n : Z) : jsstring := digits (N.to_uint (Z.to_N n)).

(** [value || fallback] for a field that may be absent. *)
Definition or_else (value : option jsstring) (fallback : jsstring) : jsstring :=
  match value with
  | Some v => if truthy v then v else fallback
  | None => fallback
  end.

(** The message of the error that the [try] block throws, if it throws. *)
Definition thrown_message (reply : FetchResult) : option jsstring :=
  match reply with
  | Thrown message => Some message
  | NotOk status error =>
    Some (or_else error (js "HTTP " ++ number_to_string status))
  | Body true _ _ _ _ => None
  | Body false _ error _ _ => Some (or_else error (js "翻譯失敗"))
  end.

Section Client.

(** The service and the network are a parameter: a state of whatever is on
    the other side, and what a POST does to it and gets from it. *)
Variable S : Type.
Variable fetch : TranslateRequest -> S -> FetchResult * S.

(** The loop [for (let attempt = 1; attempt <= this.retryCount; attempt++)],
    with [left] iterations to go. *)
Fixpoint attempts (left : nat) (attempt : Z)
    (text sourceLang targetLang : jsstring) (st : S * list Event)
  : Outcome * (S * list Event) :=
  match left with
  | O => (ReturnsUndefined, st)
  | Datatypes.S left' =>
    let request := {| request_text := text;
                      request_source_lang := sourceLang;
                      request_target_lang := targetLang;
                      request_model := model |} in
    let '(reply, s) := fetch request (fst st) in
    let events := snd st ++ [Posted request] in
    match thrown_message reply with
    | None =>
      match reply with
      | Body _ translation _ from_cache stats =>
        (Returns (Translated translation sourceLang targetLang from_cache
                    stats), (s, events))
      | _ => (ReturnsUndefined, (s, events))
      end
    | Some message =>
      if attempt =? retryCount then
        (Returns (Failed (js "翻譯失敗 (" ++ number_to_string retryCount
                          ++ js "次重試): " ++ message) (Some text)),
         (s, events))
      else
        attempts left' (attempt + 1) text sourceLang targetLang
          (s, events ++ [Waited (1000 * attempt)])
    end
  end.

(** The loop of [splitAndTranslate] over [segments], with the array
    [translations]; [tt] is [this.translateText].  The inner [None] is the
    [TypeError]. *)
Fixpoint segment_loop
    (tt : jsstring -> jsstring -> jsstring -> S * list Event
          -> option (Outcome * (S * list Event)))
    (sourceLang targetLang : jsstring) (segments translations : list jsstring)
    (st : S * list Event)
  : option (option (list jsstring) * (S * list Event)) :=
  match segments with
  | [] => Some (Some translations, st)
  | segment :: rest =>
    match tt segment sourceLang targetLang st with
    | None => None
    | Some (Returns result, st1) =>
      let translations' :=
        translations
        ++ [if result_success result then result_translation result
            else segment] in
      let st2 :=
        match rest with
        | [] => st1
        | _ :: _ => (fst st1, snd st1 ++ [Waited 500])
        end in
      segment_loop tt sourceLang targetLang rest translations' st2
    | Some (_, st1) => Some (None, st1)
    end
  end.

Definition splitAndTranslate
    (tt : jsstring -> jsstring -> jsstring -> S * list Event
          -> option (Outcome * (S * list Event)))
    (text sourceLang targetLang : jsstring) (st : S * list Event)
  : option (Outcome * (S * list Event)) :=
  let segments := splitText text 5000 in
  match segment_loop tt sourceLang targetLang segments [] st with
  | None => None
  | Some (None, st') => Some (Throws, st')
  | Some (Some translations, st') =>
    Some (Returns (Joined (concat translations) sourceLang targetLang
                     (Z.of_nat (length segments))), st')
  end.

(** [translateText], with its parameters given (the defaults ['auto'] and
    ['zh-tw'] are the caller's).  A text of more than 10000 code units goes
    to [splitAndTranslate], which calls [translateText] on each segment:
    [fuel] bounds the depth of these calls, and [None] is returned when it
    is used up ([translateText_returns]: the length of the text is
    enough). *)
Fixpoint translateText (fuel : nat) (text sourceLang targetLang : jsstring)
    (st : S * list Event) : option (Outcome * (S * list Event)) :=
  if negb (truthy text) || (len (trim text) =? 0) then
    Some (Returns (Failed (js "文本為空") None), st)
  else if 10000 <? len text then
    match fuel with
    | O => None
    | Datatypes.S fuel' =>
      splitAndTranslate (translateText fuel') text sourceLang targetLang st
    end
  else
    Some (attempts (Z.to_nat retryCount) 1 text sourceLang targetLang st).

End Client.

(** *** The client in front of the service

    The exchange when the other side is the proxy service and the
    connection is reliable: the body of the request is handed to the route,
    and the answer of the route is what the client reads. *)
Definition serve (rt : Server.Runtime) (request : TranslateRequest)
    (w : Server.World) : FetchResult * Server.World :=
  match
    Server.translate rt
      {| Server.text := request_text request;
         Server.source_lang := Some (request_source_lang request);
         Server.target_lang := Some (request_target_lang request);
         Server.body_model := Some (request_model request) |} w
  with
  | (Server.TranslateResponse result from_cache, w') =>
    (Body true (Server.translation result) None from_cache
       (Some (Server.stats result)), w')
  | (Server.ErrorResponse status error, w') => (NotOk status (Some error), w')
  | (Server.BatchResponse _ _, w') => (Thrown [], w')
  end.

End Requests.

(** ** The page translation in front of the service

    The exchange of the client-side [batchTranslate] when the other side is
    the batch route of the proxy service and the connection is reliable:
    the texts go to the route with the source language ['auto'], the target
    language of the page and the model of the client; an answer with
    [success] gives its results, of which the client reads [success] and
    [translation], and an error status gives a failure with the message of
    the service.  [time] is the [processing_time] that the service
    measures. *)

Module PageService.

Definition read_entry (e : Server.BatchEntry) : Client.ResultItem :=
  {| Client.success := Server.entry_success e;
     Client.translation := Server.entry_translation e |}.

Definition serve_batch (rt : Server.Runtime)
    (completion : list (jsstring * Server.TranslationResult)
                  -> list (jsstring * Server.TranslationResult))
    (targetLang : jsstring) (time : Z) (w : Server.World)
    (texts : list jsstring) : Client.BatchResult :=
  match
    Server.translate_batch rt completion
      {| Server.texts := texts;
         Server.batch_source_lang := Some (js "auto");
         Server.batch_target_lang := Some targetLang;
         Server.batch_model := Some Requests.model |} w
  with
  | (Server.BatchResponse results total_texts, _) =>
    Client.BatchSuccess (map read_entry results) total_texts time
  | (Server.ErrorResponse _ error, _) => Client.BatchFailure error
  | (Server.TranslateResponse _ _, _) => Client.BatchFailure []
  end.

End PageService.

(** ** Traces of the request client

    The shapes in which the properties of [translateText] are stated. *)

Module Traces.

Import Requests.

(** The events of a run of the retry loop that posts [posts] times, the
    first time as attempt number [attempt]: a wait of [1000 * attempt]
    milliseconds after each post but the last. *)
Fixpoint retry_trace (request : TranslateRequest) (attempt : Z) (posts : nat)
  : list Event :=
  match posts with
  | O => []
  | S O => [Posted request]
  | S posts' =>
    Posted request :: Waited (1000 * attempt)
    :: retry_trace request (attempt + 1) posts'
  end.

Section Exchanges.

Variable S : Type.
Variable fetch : TranslateRequest -> S -> FetchResult * S.
Variable request : TranslateRequest.

(** The state of the other side after [n] exchanges from the state [s]. *)
Fixpoint state_after (n : nat) (s : S) : S :=
  match n with
  | O => s
  | Datatypes.S n' => state_after n' (snd (fetch request s))
  end.

(** What the exchange that follows [n] earlier ones comes to. *)
Definition reply_at (n : nat) (s : S) : FetchResult :=
  fst (fetch request (state_after n s)).

End Exchanges.

(** A post that the service will not turn away: a text that is not blank and
    has at most 10000 code units, for the model of the client and the
    languages of the call. *)
Definition valid_event (sourceLang targetLang : jsstring) (e : Event) : Prop :=
  match e with
  | Posted request =>
    trim (request_text request) <> []
    /\ len (request_text request) <= 10000
    /\ request_source_lang request = sourceLang
    /\ request_target_lang request = targetLang
    /\ request_model request = model
  | Waited ms => 0 < ms
  end.

(** What holds of every call of [translateText]: it returns a result; the
    events it adds are valid; the result is that of [splitAndTranslate] when
    the text is long; and if no exchange with the service ever succeeds, a
    result that says success carries the text itself. *)
Definition call_ok (S : Type) (fetch : TranslateRequest -> S -> FetchResult * S)
    (text sourceLang targetLang : jsstring) (st : S * list Event)
    (res : option (Outcome * (S * list Event))) : Prop :=
  exists r s' new,
    res = Some (Returns r, (s', snd st ++ new))
    /\ Forall (valid_event sourceLang targetLang) new
    /\ (10000 < len text -> trim text <> [] ->
        exists translation segments,
          r = Joined translation sourceLang targetLang segments)
    /\ ((forall request s, thrown_message (fst (fetch request s)) <> None) ->
        result_success r = true -> result_translation r = text).

End Traces.

(** ** Enumeration

    Used to settle by evaluation the facts about single bytes and code
    units. *)

Module Enumeration.

(** The [n] numbers from [start] on. *)
Fixpoint count_from (start : N) (n : nat) : list N :=
  match n with
  | O => []
  | S n' => start :: count_from (N.succ start) n'
  end.

End Enumeration.

(** * Properties *)

Import Client.

(** Splits the conjunctions of a goal and nothing else, so that each closed
    equation is left to be decided by evaluation. *)
Ltac split_conjunctions :=
  cbv zeta; repeat match goal with |- _ /\ _ => split end.

(** ** Strings *)

Lemma len_nonneg (s : jsstring) : 0 <= len s.
Proof. unfold len. lia. Qed.

Lemma len_app (a b : jsstring) : len (a ++ b) = len a + len b.
Proof. unfold len. rewrite length_app. lia. Qed.

Lemma len_nil_iff (s : jsstring) : len s = 0 <-> s = [].
Proof.
  unfold len. destruct s as [|c s]; simpl; split; intros H; try done; lia.
Qed.

Lemma truthy_true_iff (s : jsstring) : truthy s = true <-> s <> [].
Proof. destruct s; simpl; split; congruence. Qed.

Lemma truthy_false_iff (s : jsstring) : truthy s = false <-> s = [].
Proof. destruct s; simpl; split; congruence. Qed.

Lemma span_app p (s a b : jsstring) : span p s = (a, b) -> a ++ b = s.
Proof.
  revert a b. induction s as [|c s IH]; simpl; intros a b H.
  - by inversion H.
  - destruct (p c).
    + destruct (span p s) as [a' b'] eqn:E. inversion H; subst.
      simpl. f_equal. by apply IH.
    + by inversion H.
Qed.

Lemma span_all p (s a b : jsstring) :
  span p s = (a, b) -> forallb p a = true.
Proof.
  revert a b. induction s as [|c s IH]; simpl; intros a b H.
  - by inversion H.
  - destruct (p c) eqn:Hc.
    + destruct (span p s) as [a' b'] eqn:E. inversion H; subst.
      simpl. rewrite Hc. simpl. by eapply IH.
    + by inversion H.
Qed.

(** A match of the separator is a non-empty prefix of the input. *)
Lemma match_separator_app (s sep rest : jsstring) :
  match_separator s = Some (sep, rest) -> sep ++ rest = s /\ sep <> [].
Proof.
  unfold match_separator.
  destruct (span is_terminator s) as [marks r] eqn:E1.
  destruct marks as [|m marks]; [done|].
  destruct (span is_space r) as [blanks rest'] eqn:E2.
  intros H; inversion H; subst; clear H.
  apply span_app in E1. apply span_app in E2. subst.
  split; [simpl; by rewrite <- app_assoc | done].
Qed.

Lemma match_separator_shorter (s sep rest : jsstring) :
  match_separator s = Some (sep, rest) -> (length rest < length s)%nat.
Proof.
  intros H. apply match_separator_app in H as [<- Hne].
  rewrite length_app. destruct sep; [done | simpl; lia].
Qed.

(** The pieces of a split, separators included, make up the input. *)
Lemma split_loop_concat fuel (piece s : jsstring) :
  concat (split_loop fuel piece s) = rev piece ++ s.
Proof.
  revert piece s. induction fuel as [|fuel IH]; intros piece s; simpl.
  - by rewrite app_nil_r.
  - destruct s as [|c s'].
    + simpl. by rewrite !app_nil_r.
    + destruct (match_separator (c :: s')) as [[sep rest]|] eqn:E.
      * apply match_separator_app in E as [E _]. simpl.
        rewrite IH. simpl. by rewrite E.
      * rewrite IH. simpl. by rewrite <- app_assoc.
Qed.

(** The loop never runs out of iterations: any bound from the length of the
    remaining input on gives the same array. *)
Lemma split_loop_fuel f1 f2 (piece s : jsstring) :
  (length s <= f1)%nat -> (length s <= f2)%nat ->
  split_loop f1 piece s = split_loop f2 piece s.
Proof.
  revert f2 piece s. induction f1 as [|f1 IH]; intros f2 piece s H1 H2.
  - destruct s; [|simpl in H1; lia].
    destruct f2; simpl; by rewrite ?app_nil_r.
  - destruct s as [|c s'].
    + destruct f2; simpl; by rewrite ?app_nil_r.
    + destruct f2 as [|f2]; [simpl in H2; lia|].
      simpl in H1, H2. simpl.
      destruct (match_separator (c :: s')) as [[sep rest]|] eqn:E.
      * apply match_separator_shorter in E. simpl in E.
        f_equal. f_equal. apply IH; lia.
      * apply IH; lia.
Qed.

Lemma split_sentences_concat (text : jsstring) :
  concat (split_sentences text) = text.
Proof. unfold split_sentences. by rewrite split_loop_concat. Qed.

Lemma substring_0_take (s : jsstring) (n : Z) :
  substring s 0 n = take (Z.to_nat (Z.min (Z.max n 0) (len s))) s.
Proof.
  unfold substring. pose proof (len_nonneg s) as Hs.
  set (k := Z.min (Z.max n 0) (len s)).
  replace (Z.min (Z.max 0 0) (len s)) with 0 by lia.
  replace (Z.min 0 k) with 0 by lia.
  replace (Z.max 0 k - 0) with k by lia.
  by rewrite drop_0.
Qed.

Lemma substring_from_drop (s : jsstring) (n : Z) :
  substring_from s n = drop (Z.to_nat (Z.min (Z.max n 0) (len s))) s.
Proof.
  unfold substring_from, substring. pose proof (len_nonneg s) as Hs.
  set (k := Z.min (Z.max n 0) (len s)).
  replace (Z.min (Z.max (len s) 0) (len s)) with (len s) by lia.
  replace (Z.min k (len s)) with k by lia.
  replace (Z.max k (len s)) with (len s) by lia.
  apply take_ge. rewrite length_drop. unfold len in *. lia.
Qed.

Lemma substring_0_length (s : jsstring) (n : Z) :
  len (substring s 0 n) = Z.min (Z.max n 0) (len s).
Proof.
  rewrite substring_0_take. pose proof (len_nonneg s) as Hs.
  unfold len in *. rewrite length_take. lia.
Qed.

(** Cutting a string at an index loses nothing. *)
Lemma substring_split (s : jsstring) (n : Z) :
  substring s 0 n ++ substring_from s n = s.
Proof. rewrite substring_0_take, substring_from_drop. apply take_drop. Qed.

(** ** Segmentation *)

Section SplitText.

Variable maxLength : Z.

(** What the loop has emitted and what it holds make up what it has read. *)
Lemma splitText_step_concat st sentence :
  concat (fst (splitText_step maxLength st sentence))
  ++ snd (splitText_step maxLength st sentence)
  = concat (fst st) ++ snd st ++ sentence.
Proof.
  destruct st as [segments cur]. simpl.
  destruct (len cur + len sentence <=? maxLength); simpl; [done|].
  destruct (truthy cur) eqn:Hcur; simpl.
  - rewrite concat_app. simpl. by rewrite app_nil_r, <- app_assoc.
  - apply truthy_false_iff in Hcur. subst. simpl.
    rewrite concat_app. simpl.
    by rewrite app_nil_r, <- app_assoc, substring_split.
Qed.

Lemma splitText_loop_concat sentences st :
  concat (fst (fold_left (splitText_step maxLength) sentences st))
  ++ snd (fold_left (splitText_step maxLength) sentences st)
  = concat (fst st) ++ snd st ++ concat sentences.
Proof.
  revert st. induction sentences as [|s sentences IH]; intros st.
  - cbn. by rewrite app_nil_r.
  - cbn [fold_left concat]. rewrite IH.
    rewrite (app_assoc (concat _)), splitText_step_concat.
    by rewrite <- !app_assoc.
Qed.

Lemma splitText_concat (text : jsstring) :
  concat (splitText text maxLength) = text.
Proof.
  unfold splitText. destruct (len text <=? maxLength).
  - simpl. by rewrite app_nil_r.
  - pose proof (splitText_loop_concat (split_sentences text) ([], [])) as H.
    simpl in H. rewrite split_sentences_concat in H.
    destruct (fold_left _ _ _) as [segments cur]. simpl in H.
    destruct (truthy cur) eqn:Hcur.
    + rewrite concat_app. simpl. by rewrite app_nil_r.
    + apply truthy_false_iff in Hcur. rewrite Hcur, app_nil_r in H. exact H.
Qed.

Hypothesis maxLength_pos : 1 <= maxLength.

Lemma splitText_step_nonempty st sentence :
  Forall (fun seg => seg <> []) (fst st) ->
  Forall (fun seg => seg <> []) (fst (splitText_step maxLength st sentence)).
Proof.
  destruct st as [segments cur]. simpl. intros Hseg.
  destruct (len cur + len sentence <=? maxLength) eqn:Hfit; simpl; [done|].
  destruct (truthy cur) eqn:Hcur; simpl.
  - apply Forall_app. split; [done|].
    constructor; [by apply truthy_true_iff | constructor].
  - apply truthy_false_iff in Hcur. subst.
    apply Forall_app. split; [done|]. constructor; [|constructor].
    apply Z.leb_gt in Hfit. change (len []) with 0 in Hfit.
    intros Hnil. apply len_nil_iff in Hnil.
    rewrite substring_0_length in Hnil. lia.
Qed.

Lemma splitText_loop_nonempty sentences st :
  Forall (fun seg => seg <> []) (fst st) ->
  Forall (fun seg => seg <> [])
    (fst (fold_left (splitText_step maxLength) sentences st)).
Proof.
  revert st. induction sentences as [|s sentences IH]; intros st H; simpl.
  - done.
  - apply IH. by apply splitText_step_nonempty.
Qed.

Lemma splitText_segments_nonempty (text : jsstring) :
  text <> [] -> Forall (fun seg => seg <> []) (splitText text maxLength).
Proof.
  intros Htext. unfold splitText. destruct (len text <=? maxLength).
  - by constructor.
  - pose proof (splitText_loop_nonempty (split_sentences text) ([], [])
                  (List.Forall_nil _)) as H.
    destruct (fold_left _ _ _) as [segments cur]. simpl in H.
    destruct (truthy cur) eqn:Hcur; [|done].
    apply Forall_app. split; [done|].
    constructor; [by apply truthy_true_iff | constructor].
Qed.

End SplitText.

(** While every sentence and every separator fits, so does every segment. *)
Lemma splitText_step_fits maxLength st sentence :
  len sentence <= maxLength ->
  Forall (fun seg => len seg <= maxLength) (fst st) ->
  len (snd st) <= maxLength ->
  Forall (fun seg => len seg <= maxLength)
    (fst (splitText_step maxLength st sentence))
  /\ len (snd (splitText_step maxLength st sentence)) <= maxLength.
Proof.
  destruct st as [segments cur]. simpl. intros Hs Hseg Hcur.
  destruct (len cur + len sentence <=? maxLength) eqn:Hfit; simpl.
  - apply Z.leb_le in Hfit. rewrite len_app. by split.
  - apply Z.leb_gt in Hfit. destruct (truthy cur) eqn:Ht; simpl.
    + split; [|done]. apply Forall_app. split; [done|]. by repeat constructor.
    + apply truthy_false_iff in Ht. subst. change (len []) with 0 in Hfit. lia.
Qed.

Lemma splitText_fits_when_sentences_fit (text : jsstring) (maxLength : Z) :
  Forall (fun s => len s <= maxLength) (split_sentences text) ->
  Forall (fun seg => len seg <= maxLength) (splitText text maxLength).
Proof.
  intros Hall. unfold splitText. destruct (len text <=? maxLength) eqn:Hfit.
  - apply Z.leb_le in Hfit. by repeat constructor.
  - assert (Hloop : forall sentences st,
      Forall (fun s => len s <= maxLength) sentences ->
      Forall (fun seg => len seg <= maxLength) (fst st) ->
      len (snd st) <= maxLength ->
      Forall (fun seg => len seg <= maxLength)
        (fst (fold_left (splitText_step maxLength) sentences st))
      /\ len (snd (fold_left (splitText_step maxLength) sentences st))
         <= maxLength).
    { induction sentences as [|s sentences IH]; intros st Hs H1 H2; simpl.
      - done.
      - apply List.Forall_cons_iff in Hs as [Hs Hrest].
        destruct (splitText_step_fits maxLength st s) as [Ha Hb]; try done.
        by apply IH. }
    destruct (split_sentences text) as [|s0 sentences] eqn:Hsplit;
      [by constructor|].
    rewrite <- Hsplit in *.
    destruct (Hloop (split_sentences text) ([], [])) as [H1 H2]; try done.
    { rewrite Hsplit in Hall. apply List.Forall_cons_iff in Hall as [Hs0 _].
      pose proof (len_nonneg s0). simpl. change (len []) with 0. lia. }
    destruct (fold_left _ _ _) as [segments cur]. simpl in *.
    destruct (truthy cur); [|done].
    apply Forall_app. split; [done|]. by repeat constructor.
Qed.

(** C1. The statement is that every segment of [splitText(text, maxLength)]
    has at most [maxLength] code units.  The code does not keep it: when a
    sentence is longer than [maxLength] the loop emits its first
    [maxLength] code units and keeps the whole remainder, which is emitted
    later as it is.  For the text of 10001 letters [a] that
    [splitAndTranslate] passes on with [maxLength = 5000], the second of the
    two segments has 5001 code units; for seven letters and [maxLength = 2],
    the second segment has five. *)
Theorem splitText_oversized_segment :
  splitText (repeat 0x61%N (Z.to_nat 10001)) 5000
    = [repeat 0x61%N (Z.to_nat 5000); repeat 0x61%N (Z.to_nat 5001)]
  /\ splitText (js "aaaaaaa") 2 = [js "aa"; js "aaaaa"]
  /\ splitText (js "a. bbbbbbbb") 3 = [js "a. "; js "bbbbbbbb"].
Proof. split_conjunctions; vm_compute; reflexivity. Qed.

(** C2. For every text and every [maxLength], the segments of
    [splitText(text, maxLength)], concatenated in order, are the text; and a
    text of at most [maxLength] code units comes back as the one segment. *)
Theorem splitText_concat_and_single (text : jsstring) (maxLength : Z) :
  1 <= maxLength ->
  concat (splitText text maxLength) = text
  /\ (len text <= maxLength -> splitText text maxLength = [text]).
Proof.
  intros _. split.
  - apply splitText_concat.
  - intros H. unfold splitText. apply Z.leb_le in H. by rewrite H.
Qed.

Lemma splitText_concat_and_single_witness :
  1 <= 10
  /\ concat (splitText (js "One. Two! Three? Four.") 10)
     = js "One. Two! Three? Four."
  /\ splitText (js "Hello.") 10 = [js "Hello."].
Proof.
  split; [lia|].
  destruct (splitText_concat_and_single (js "One. Two! Three? Four.") 10)
    as [H1 _]; [lia|].
  destruct (splitText_concat_and_single (js "Hello.") 10) as [_ H2]; [lia|].
  split; [exact H1 | apply H2; vm_compute; congruence].
Defined.

(** C10. For a non-empty text and [maxLength >= 1], [splitText] returns a
    non-empty array of non-empty segments, although the split on sentence
    boundaries can yield empty pieces. *)
Theorem splitText_nonempty (text : jsstring) (maxLength : Z) :
  text <> [] -> 1 <= maxLength ->
  splitText text maxLength <> []
  /\ Forall (fun seg => seg <> []) (splitText text maxLength).
Proof.
  intros Htext Hmax. split.
  - intros Hnil. pose proof (splitText_concat maxLength text) as H.
    rewrite Hnil in H. simpl in H. congruence.
  - by apply splitText_segments_nonempty.
Qed.

Lemma splitText_nonempty_witness :
  splitText (js ".a. .b.") 2 <> []
  /\ Forall (fun seg => seg <> []) (splitText (js ".a. .b.") 2).
Proof.
  apply (splitText_nonempty (js ".a. .b.") 2); [vm_compute; congruence | lia].
Defined.

(** ** Eligibility filter *)

Lemma chineseRatio_above (text : jsstring) :
  4 * len text < 5 * len (match_chinese text) ->
  Qle_bool (chineseRatio text) (8 # 10) = false.
Proof.
  intros H. unfold chineseRatio.
  pose proof (len_nonneg text) as Htext.
  assert (Hle : len (match_chinese text) <= len text).
  { unfold len, match_chinese.
    pose proof (List.filter_length_le is_chinese text). lia. }
  destruct (truthy (match_chinese text)) eqn:Hc.
  - destruct (Qle_bool _ _) eqn:E; [|done].
    apply Qle_bool_iff in E.
    destruct (len text) as [|p|p] eqn:Hl; [lia| |lia].
    unfold Qle, Qdiv, Qmult, Qinv, inject_Z in E. simpl in E. lia.
  - apply truthy_false_iff in Hc. rewrite Hc in H. change (len []) with 0 in H.
    lia.
Qed.

(** C9. [shouldTranslate] rejects the three sample texts, every text of
    fewer than three code units, every text made only of digits, white
    space and non-word symbols, and every text of which more than four
    fifths are Chinese characters; it accepts the text Hello world. *)
Theorem shouldTranslate_filter :
  shouldTranslate (js "123") = false
  /\ shouldTranslate (js "   ") = false
  /\ shouldTranslate (js "!!??") = false
  /\ (forall text, len text < 3 -> shouldTranslate text = false)
  /\ (forall text,
        Forall (fun c => is_digit c = true \/ is_space c = true
                         \/ is_word c = false) text ->
        shouldTranslate text = false)
  /\ (forall text,
        4 * len text < 5 * len (List.filter is_chinese text) ->
        shouldTranslate text = false)
  /\ shouldTranslate (js "Hello world") = true.
Proof.
  split_conjunctions.
  1-3, 7: vm_compute; reflexivity.
  - intros text H. unfold shouldTranslate.
    apply Z.ltb_lt in H. by rewrite H.
  - intros text H. unfold shouldTranslate.
    destruct (len text <? 3) eqn:Hlen; [done|].
    assert (Htest : test_digits_spaces_symbols text = true).
    { unfold test_digits_spaces_symbols. apply andb_true_iff. split.
      - apply truthy_true_iff. intros ->. by vm_compute in Hlen.
      - apply forallb_forall. intros c Hc.
        rewrite List.Forall_forall in H. specialize (H c Hc).
        destruct H as [-> | [-> | ->]]; simpl;
          by rewrite ?orb_true_r. }
    by rewrite Htest.
  - intros text H. unfold shouldTranslate.
    destruct (len text <? 3); [done|].
    destruct (test_digits_spaces_symbols text); [done|].
    by rewrite (chineseRatio_above text H).
Qed.

Lemma shouldTranslate_filter_witness :
  shouldTranslate (js "ab") = false
  /\ shouldTranslate (js "12, 34 — 56!") = false
  /\ shouldTranslate (js "這是一段中文文字內容ok") = false.
Proof.
  destruct shouldTranslate_filter as (_ & _ & _ & Hshort & Hsym & Hzh & _).
  split; [|split].
  - apply Hshort. vm_compute. reflexivity.
  - apply Hsym. apply List.Forall_forall. intros c Hc. vm_compute in Hc.
    repeat (destruct Hc as [<-|Hc]; [vm_compute; tauto|]). destruct Hc.
  - apply Hzh. vm_compute. reflexivity.
Defined.

(** ** Page overlay *)

(** C3. The statement is that the i-th eligible text node is replaced with
    the block built from the i-th batch result whenever that result is
    successful.  The code reads [results[appliedCount]], and [appliedCount]
    only advances when a block is applied: once a result is a failure, every
    later eligible node is paired with that same failed result.  With the
    results success, failure, success for three eligible nodes, the third
    node keeps its text although the third result is successful. *)
Theorem translateWebPage_stops_at_first_failure :
  let results :=
    [ {| Client.success := true; Client.translation := js "你好，世界" |};
      {| Client.success := false; Client.translation := js "Good morning" |};
      {| Client.success := true; Client.translation := js "謝謝" |} ] in
  let textNodes := [js "Hello world"; js "Good morning"; js "Thank you"] in
  List.filter wanted (map trim textNodes) = textNodes
  /\ results !! 2%nat
     = Some {| Client.success := true; Client.translation := js "謝謝" |}
  /\ translateWebPage (fun _ => BatchSuccess results 3 0) textNodes
     = (PageTranslated 1 3 0,
        [ BilingualBlock (js "Hello world") (js "你好，世界");
          TextNode (js "Good morning");
          TextNode (js "Thank you") ]).
Proof. split_conjunctions; vm_compute; reflexivity. Qed.

(** What the loop of [translateWebPage] does: it applies by position the
    results that come before the first failed one, and nothing after. *)
Lemma apply_loop_successful_prefix results textNodes : forall page k,
  fst (fold_left (apply_step results) textNodes (page, k))
  = page ++ Positional.overlay
              (Positional.successful_prefix (drop k results)) textNodes.
Proof.
  induction textNodes as [|textContent rest IH]; intros page k.
  - simpl. by rewrite app_nil_r.
  - cbn [fold_left]. unfold apply_step at 2. cbn [Positional.overlay].
    destruct (wanted (trim textContent)).
    + destruct (results !! k) as [result|] eqn:Hk.
      * pose proof (drop_S results result k Hk) as Hdrop.
        destruct (Client.success result) eqn:Hs.
        -- rewrite IH, Hdrop. cbn [Positional.successful_prefix].
           rewrite Hs. cbv beta iota. rewrite ?Hs. by rewrite <- app_assoc.
        -- rewrite IH, Hdrop. cbn [Positional.successful_prefix].
           rewrite Hs. cbv beta iota. rewrite ?Hs. by rewrite <- app_assoc.
      * rewrite IH. rewrite (drop_ge results k) by (by apply lookup_ge_None).
        by rewrite <- app_assoc.
    + rewrite IH. by rewrite <- app_assoc.
Qed.

Lemma successful_prefix_all results :
  Forall (fun r => Client.success r = true) results ->
  Positional.successful_prefix results = results.
Proof.
  induction 1 as [|r results Hr _ IH]; simpl; [done|]. by rewrite Hr, IH.
Qed.

(** When every result is successful the page is the positional one. *)
Lemma translateWebPage_positional_when_all_succeed post textNodes results
    total time :
  batchTranslate post (List.filter wanted (map trim textNodes))
    = BatchSuccess results total time ->
  List.filter wanted (map trim textNodes) <> [] ->
  Forall (fun r => Client.success r = true) results ->
  snd (translateWebPage post textNodes) = Positional.overlay results textNodes.
Proof.
  intros Hbatch Hsome Hall. unfold translateWebPage.
  destruct (List.filter wanted (map trim textNodes)) as [|t ts] eqn:Hf;
    [done|].
  cbn [length Nat.eqb]. rewrite Hbatch.
  pose proof (apply_loop_successful_prefix results textNodes [] 0) as Hloop.
  destruct (fold_left _ _ _) as [page k]. simpl in Hloop. simpl.
  by rewrite Hloop, drop_0, successful_prefix_all.
Qed.

(** ** The proxy service *)

Import Server.

Lemma trim_nil : trim [] = [].
Proof. reflexivity. Qed.

(** The first guard of the route lets through exactly the texts that are
    not blank. *)
Lemma blank_guard (t : jsstring) :
  negb (truthy t) || (len (trim t) =? 0) = false <-> trim t <> [].
Proof.
  split.
  - intros H. apply orb_false_iff in H as [_ H].
    apply Z.eqb_neq in H. intros Hnil. by rewrite Hnil in H.
  - intros H. apply orb_false_iff. split.
    + destruct t; [by rewrite trim_nil in H | done].
    + apply Z.eqb_neq. intros Hlen. by apply len_nil_iff in Hlen.
Qed.

(** C8. [Translate] answers an empty text and a text of more than 10000
    code units with status 400, and [BatchTranslate] does so for an empty
    array and for an array of more than 50 texts; the state of the service
    is then the one before the request: no request went to the runtime and
    the cache is as it was. *)
Theorem validation_failures (rt : Runtime)
    (completion : list (jsstring * TranslationResult)
                  -> list (jsstring * TranslationResult))
    (body : TranslateBody) (batch : BatchBody) (w : World) :
  text body = [] \/ 10000 < len (text body) ->
  texts batch = [] \/ (50 < length (texts batch))%nat ->
  (exists error, translate rt body w = (ErrorResponse 400 error, w))
  /\ (exists error,
        translate_batch rt completion batch w = (ErrorResponse 400 error, w)).
Proof.
  intros Htext Htexts. split.
  - unfold translate.
    destruct (negb (truthy (text body)) || (len (trim (text body)) =? 0))
      eqn:Hblank; [by eexists|].
    destruct Htext as [Hnil | Hlong].
    + rewrite Hnil in Hblank. discriminate Hblank.
    + apply Z.ltb_lt in Hlong. rewrite Hlong. by eexists.
  - unfold translate_batch. destruct Htexts as [Hnil | Hmany].
    + rewrite Hnil. simpl. by eexists.
    + destruct (length (texts batch) =? 0)%nat; [by eexists|].
      apply Nat.ltb_lt in Hmany. rewrite Hmany. by eexists.
Qed.

Lemma validation_failures_witness :
  let w := {| cache := ∅; calls := [] |} in
  let rt : Runtime := fun _ _ => Failure [] in
  (exists error,
     translate rt
       {| text := repeat 0x61%N (Z.to_nat 10001); source_lang := None;
          target_lang := None; body_model := None |} w
     = (ErrorResponse 400 error, w))
  /\ (exists error,
        translate_batch rt id
          {| texts := repeat (js "a") 51; batch_source_lang := None;
             batch_target_lang := None; batch_model := None |} w
        = (ErrorResponse 400 error, w)).
Proof.
  intros w rt. apply validation_failures.
  - right. vm_compute. reflexivity.
  - right. vm_compute. lia.
Defined.

(** The three ways through the route for a request that passes the two
    guards. *)
Lemma translate_valid (rt : Runtime) (body : TranslateBody) (w : World) :
  let source := default default_source_lang (source_lang body) in
  let target := default default_target_lang (target_lang body) in
  let model := default default_model (body_model body) in
  let key := cacheKey model source target (text body) in
  let request := generate_request (text body) source target model in
  trim (text body) <> [] -> len (text body) <= 10000 ->
  (forall cached, cache w !! key = Some cached ->
     translate rt body w = (TranslateResponse cached true, w))
  /\ (cache w !! key = None ->
      forall response stats,
        rt (calls w) request = Completion response stats ->
        let result := {| translation := clean response; model := model;
                         stats := stats |} in
        translate rt body w
        = (TranslateResponse result false,
           {| cache := <[key := result]> (cache w);
              calls := calls w ++ [request] |}))
  /\ (cache w !! key = None ->
      forall message,
        rt (calls w) request = Failure message ->
        translate rt body w
        = (ErrorResponse 500 (failure_message message),
           {| cache := cache w; calls := calls w ++ [request] |})).
Proof.
  intros source target model key request Hblank Hlen.
  apply blank_guard in Hblank. apply Z.ltb_ge in Hlen.
  unfold translate. rewrite Hblank, Hlen.
  fold source target model. fold key.
  split; [|split].
  - intros cached Hhit. by rewrite Hhit.
  - intros Hmiss response stats Hrt. rewrite Hmiss.
    unfold translateWithOllama. fold request. by rewrite Hrt.
  - intros Hmiss message Hrt. rewrite Hmiss.
    unfold translateWithOllama. fold request. by rewrite Hrt.
Qed.

(** C4, as the code has it.  The route first turns away a blank text and a
    text of more than 10000 code units.  For any other request: when the
    key is in the cache, the stored result is returned with
    [from_cache = true] and nothing else happens (no request to the
    runtime, same cache); when the key is absent the runtime is called
    once, and then either it completes, and the cleaned result is stored
    under the key and returned with [from_cache = false], or it fails, and
    the answer is an error with status 500 and the cache is as it was. *)
Theorem translate_cache_behaviour (rt : Runtime) (body : TranslateBody)
    (w : World) :
  let source := default default_source_lang (source_lang body) in
  let target := default default_target_lang (target_lang body) in
  let model := default default_model (body_model body) in
  let key := cacheKey model source target (text body) in
  let request := generate_request (text body) source target model in
  trim (text body) <> [] -> len (text body) <= 10000 ->
  (forall cached, cache w !! key = Some cached ->
     translate rt body w = (TranslateResponse cached true, w)
     /\ calls (snd (translate rt body w)) = calls w
     /\ cache (snd (translate rt body w)) = cache w)
  /\ (cache w !! key = None ->
      calls (snd (translate rt body w)) = calls w ++ [request]
      /\ (forall response stats,
            rt (calls w) request = Completion response stats ->
            let result := {| translation := clean response; model := model;
                             stats := stats |} in
            fst (translate rt body w) = TranslateResponse result false
            /\ cache (snd (translate rt body w))
               = <[key := result]> (cache w))
      /\ (forall message,
            rt (calls w) request = Failure message ->
            fst (translate rt body w)
            = ErrorResponse 500 (failure_message message)
            /\ cache (snd (translate rt body w)) = cache w)).
Proof.
  intros source target model key request Hblank Hlen.
  destruct (translate_valid rt body w Hblank Hlen) as (Hhit & Hok & Hfail).
  fold source target model key request in Hhit, Hok, Hfail.
  split.
  - intros cached Hc. by rewrite (Hhit _ Hc).
  - intros Hmiss.
    destruct (rt (calls w) request) as [response stats | message] eqn:Hrt.
    + rewrite (Hok Hmiss _ _ eq_refl). split; [done|]. split.
      * intros ? ? [= <- <-]. done.
      * intros ? [=].
    + rewrite (Hfail Hmiss _ eq_refl). split; [done|]. split.
      * intros ? ? [=].
      * intros ? [= <-]. done.
Qed.

Lemma translate_cache_behaviour_witness :
  let body := {| text := js "Hello"; source_lang := Some (js "auto");
                 target_lang := Some (js "zh-tw");
                 body_model := Some (js "M") |} in
  let cached := {| translation := js "你好"; model := js "M";
                   stats := {| total_duration := 0; load_duration := 0;
                               prompt_eval_count := 0; eval_count := 0 |} |} in
  let w := {| cache := {[ cacheKey (js "M") (js "auto") (js "zh-tw")
                            (js "Hello") := cached ]};
              calls := [] |} in
  translate (fun _ _ => Failure []) body w = (TranslateResponse cached true, w).
Proof.
  intros body cached w.
  destruct (translate_cache_behaviour (fun _ _ => Failure []) body w)
    as (Hhit & _).
  - vm_compute. congruence.
  - vm_compute. congruence.
  - apply Hhit. apply lookup_singleton_eq.
Defined.

(** C4, as stated, fails twice on the code.  A request whose key is in the
    cache is still turned away when its text is blank; and a request whose
    key is absent leaves the cache without that key, and gets an error
    rather than a result tagged [from_cache = false], when the runtime
    fails. *)
Lemma translate_cache_counterexample :
  let stats0 := {| total_duration := 0; load_duration := 0;
                   prompt_eval_count := 0; eval_count := 0 |} in
  let rt : Runtime := fun _ _ => Failure (js "timeout of 30000ms exceeded") in
  let blank := {| text := js "  "; source_lang := None; target_lang := None;
                  body_model := None |} in
  let blank_key :=
    cacheKey default_model default_source_lang default_target_lang (js "  ") in
  let cached := {| translation := []; model := default_model;
                   stats := stats0 |} in
  let w1 := {| cache := {[ blank_key := cached ]}; calls := [] |} in
  let hello := {| text := js "Hello"; source_lang := None; target_lang := None;
                  body_model := None |} in
  let hello_key :=
    cacheKey default_model default_source_lang default_target_lang
      (js "Hello") in
  let w2 := {| cache := ∅; calls := [] |} in
  (cache w1 !! blank_key = Some cached
   /\ translate rt blank w1 = (ErrorResponse 400 (js "文本不能為空"), w1))
  /\ (cache w2 !! hello_key = None
      /\ fst (translate rt hello w2)
         = ErrorResponse 500 (js "翻譯失敗: timeout of 30000ms exceeded")
      /\ cache (snd (translate rt hello w2)) !! hello_key = None
      /\ length (calls (snd (translate rt hello w2))) = 1%nat).
Proof. split_conjunctions; vm_compute; reflexivity. Qed.

(** ** Cleaning of the model output *)

Lemma strip_prefix_app (label s : jsstring) :
  strip_prefix label (label ++ s) = Some s.
Proof.
  induction label as [|c label IH]; simpl; [done|].
  by rewrite N.eqb_refl.
Qed.

Lemma strip_label_app (label rest : jsstring) (colon : N) :
  is_colon colon = true ->
  strip_label label (label ++ colon :: rest) = trimStart rest.
Proof.
  intros Hc. unfold strip_label. by rewrite strip_prefix_app, Hc.
Qed.

Lemma span_rest_head p (s a b : jsstring) :
  span p s = (a, b) -> forall c r, b = c :: r -> p c = false.
Proof.
  revert a b. induction s as [|x s IH]; simpl; intros a b H c r Hb.
  - injection H as <- <-. discriminate.
  - destruct (p x) eqn:Hx.
    + destruct (span p s) as [a' b'] eqn:E. injection H as <- <-.
      by eapply IH.
    + injection H as <- <-. injection Hb as -> _. exact Hx.
Qed.

Lemma trimStart_head (s : jsstring) (c : N) (r : jsstring) :
  trimStart s = c :: r -> is_space c = false.
Proof.
  unfold trimStart. destruct (span is_space s) as [a b] eqn:E. simpl.
  by apply (span_rest_head _ _ _ _ E).
Qed.

Lemma trimStart_suffix (s : jsstring) : exists a, s = a ++ trimStart s.
Proof.
  unfold trimStart. destruct (span is_space s) as [a b] eqn:E. simpl.
  exists a. symmetry. exact (span_app _ _ _ _ E).
Qed.

Lemma trimEnd_prefix (s : jsstring) : exists b, s = trimEnd s ++ b.
Proof.
  unfold trimEnd. destruct (trimStart_suffix (rev s)) as [a Ha].
  exists (rev a). rewrite <- rev_app_distr, <- Ha. by rewrite rev_involutive.
Qed.

Lemma trimEnd_last (s init : jsstring) (c : N) :
  trimEnd s = init ++ [c] -> is_space c = false.
Proof.
  unfold trimEnd. intros H. apply (f_equal (@rev N)) in H.
  rewrite rev_involutive, rev_app_distr in H. simpl in H.
  by apply trimStart_head in H.
Qed.

Lemma trim_head (s : jsstring) (c : N) (r : jsstring) :
  trim s = c :: r -> is_space c = false.
Proof.
  unfold trim. intros H. destruct (trimEnd_prefix (trimStart s)) as [b Hb].
  rewrite H in Hb. simpl in Hb. by apply trimStart_head in Hb.
Qed.

Lemma trim_part (s : jsstring) : exists a b, s = a ++ trim s ++ b.
Proof.
  unfold trim. destruct (trimStart_suffix s) as [a Ha].
  destruct (trimEnd_prefix (trimStart s)) as [b Hb].
  exists a, b. by rewrite <- Hb.
Qed.

Lemma strip_prefix_Some (label s r : jsstring) :
  strip_prefix label s = Some r -> s = label ++ r.
Proof.
  revert s. induction label as [|a label IH]; intros s H; simpl in H.
  - by injection H as ->.
  - destruct s as [|b s]; [done|].
    destruct (a =? b)%N eqn:E; [|done].
    apply N.eqb_eq in E. subst b. simpl. f_equal. by apply IH.
Qed.

Lemma span_unique p (blanks s' : jsstring) :
  Forall (fun c => p c = true) blanks ->
  (forall c r, s' = c :: r -> p c = false) ->
  span p (blanks ++ s') = (blanks, s').
Proof.
  intros Hblanks Hhead. induction Hblanks as [|c blanks Hc _ IH].
  - destruct s' as [|c r]; [done|]. simpl. by rewrite (Hhead c r eq_refl).
  - cbn [app span]. by rewrite Hc, IH.
Qed.

Import Cleaning.

Lemma trimStart_spec (s : jsstring) : trimmed_start s (trimStart s).
Proof.
  unfold trimStart. destruct (span is_space s) as [a b] eqn:E. simpl.
  exists a. split; [symmetry; exact (span_app _ _ _ _ E)|]. split.
  - apply List.Forall_forall. intros c Hc.
    exact (proj1 (forallb_forall _ _) (span_all _ _ _ _ E) c Hc).
  - exact (span_rest_head _ _ _ _ E).
Qed.

Lemma trimmed_start_fun (s s' : jsstring) :
  trimmed_start s s' -> s' = trimStart s.
Proof.
  intros (blanks & -> & Hblanks & Hhead). unfold trimStart.
  by rewrite span_unique.
Qed.

Lemma trim_spec (s : jsstring) : trimmed s (trim s).
Proof.
  destruct (trimStart_spec s) as (before & Hs & Hbefore & _).
  destruct (trimStart_spec (rev (trimStart s))) as (after & Hrev & Hafter & _).
  exists before, (rev after). split; [|split; [done|split; [|split]]].
  - rewrite Hs at 1. f_equal. unfold trim, trimEnd.
    rewrite <- rev_app_distr, <- Hrev. by rewrite rev_involutive.
  - by apply List.Forall_rev.
  - apply trim_head.
  - intros init c. unfold trim. apply trimEnd_last.
Qed.

Lemma trimmed_fun (s t : jsstring) : trimmed s t -> t = trim s.
Proof.
  intros (before & after & -> & Hbefore & Hafter & Hhead & Hlast).
  unfold trim. destruct t as [|c r].
  - simpl. unfold trimStart.
    rewrite <- (app_nil_r (before ++ after)).
    rewrite span_unique; [done | by apply Forall_app | done].
  - unfold trimStart at 1. rewrite span_unique; [|done|].
    + cbn [snd]. unfold trimEnd, trimStart. rewrite rev_app_distr.
      rewrite span_unique; [cbn [snd]; by rewrite rev_involutive| |].
      * by apply List.Forall_rev.
      * intros x y Hx. apply (Hlast (rev y) x).
        rewrite <- (rev_involutive (c :: r)), Hx. reflexivity.
    + intros x y Hx. simpl in Hx. injection Hx as <- _.
      exact (Hhead c r eq_refl).
Qed.

Lemma strip_label_spec (label s : jsstring) :
  label_removed label s (strip_label label s).
Proof.
  unfold strip_label.
  destruct (strip_prefix label s) as [[|c rest]|] eqn:E.
  - right. split; [|done]. intros colon rest Hc ->.
    by rewrite strip_prefix_app in E.
  - destruct (is_colon c) eqn:Hc.
    + left. exists c, rest. split; [done|].
      split; [by apply strip_prefix_Some | apply trimStart_spec].
    + right. split; [|done]. intros colon rest' Hcolon ->.
      rewrite strip_prefix_app in E. injection E as -> _. congruence.
  - right. split; [|done]. intros colon rest Hc ->.
    by rewrite strip_prefix_app in E.
Qed.

Lemma label_removed_fun (label s s' : jsstring) :
  label_removed label s s' -> s' = strip_label label s.
Proof.
  intros [(colon & rest & Hc & -> & Hrest) | [Hno ->]].
  - rewrite strip_label_app by done. by apply trimmed_start_fun.
  - unfold strip_label.
    destruct (strip_prefix label s) as [[|c rest]|] eqn:E; try done.
    destruct (is_colon c) eqn:Hc; [|done].
    apply strip_prefix_Some in E. by destruct (Hno c rest Hc).
Qed.

(** C7, as the code has it.  Whatever the raw output of the model and
    whatever the target language of the request, the translation that
    [Translate] stores and returns is got from the raw output in four
    steps: the label 翻譯結果 with a full-width or an ASCII colon and the
    white space after the colon are removed from the head, if the output
    opens with them; then the same is done once for 譯文 and then once for
    翻譯; and the white space at the two ends is removed.  The four steps
    can always be done, and they give one translation only. *)
Theorem translate_strips_chinese_labels (rt : Runtime) (body : TranslateBody)
    (w : World) (raw : jsstring) (stats : OllamaStats) :
  let source := default default_source_lang (source_lang body) in
  let target := default default_target_lang (target_lang body) in
  let model := default default_model (body_model body) in
  let key := cacheKey model source target (text body) in
  trim (text body) <> [] -> len (text body) <= 10000 ->
  cache w !! key = None ->
  rt (calls w) (generate_request (text body) source target model)
    = Completion raw stats ->
  (exists s1 s2 s3 t,
     label_removed (js "翻譯結果") raw s1
     /\ label_removed (js "譯文") s1 s2
     /\ label_removed (js "翻譯") s2 s3
     /\ trimmed s3 t)
  /\ (forall s1 s2 s3 t,
        label_removed (js "翻譯結果") raw s1 ->
        label_removed (js "譯文") s1 s2 ->
        label_removed (js "翻譯") s2 s3 ->
        trimmed s3 t ->
        let result := {| translation := t; model := model;
                         stats := stats |} in
        fst (translate rt body w) = TranslateResponse result false
        /\ cache (snd (translate rt body w)) !! key = Some result).
Proof.
  intros source target model key Hblank Hlen Hmiss Hrt.
  destruct (translate_valid rt body w Hblank Hlen) as (_ & H & _).
  specialize (H Hmiss _ _ Hrt). split.
  - exists (strip_label (js "翻譯結果") raw),
      (strip_label (js "譯文") (strip_label (js "翻譯結果") raw)),
      (strip_label (js "翻譯")
         (strip_label (js "譯文") (strip_label (js "翻譯結果") raw))),
      (clean raw).
    split; [apply strip_label_spec|]. split; [apply strip_label_spec|].
    split; [apply strip_label_spec|]. unfold clean. apply trim_spec.
  - intros s1 s2 s3 t H1 H2 H3 H4 result.
    apply label_removed_fun in H1, H2, H3. apply trimmed_fun in H4.
    subst s1 s2 s3. rewrite H. simpl.
    replace (clean raw) with t by (by rewrite H4).
    split; [done|]. apply lookup_insert_eq.
Qed.

Lemma translate_strips_chinese_labels_witness :
  let stats0 := {| total_duration := 0; load_duration := 0;
                   prompt_eval_count := 0; eval_count := 0 |} in
  let rt : Runtime :=
    fun _ _ => Completion (js "翻譯結果： 譯文:翻譯結果：Hello world ") stats0 in
  let body := {| text := js "你好世界"; source_lang := None;
                 target_lang := Some (js "en"); body_model := None |} in
  let w := {| cache := ∅; calls := [] |} in
  let result := {| translation := js "翻譯結果：Hello world";
                   model := default_model; stats := stats0 |} in
  fst (translate rt body w) = TranslateResponse result false
  /\ cache (snd (translate rt body w))
     !! cacheKey default_model default_source_lang (js "en") (js "你好世界")
     = Some result.
Proof.
  intros stats0 rt body w result.
  destruct (translate_strips_chinese_labels rt body w
              (js "翻譯結果： 譯文:翻譯結果：Hello world ") stats0)
    as [_ H].
  - vm_compute. congruence.
  - vm_compute. congruence.
  - reflexivity.
  - reflexivity.
  - apply (H (js "譯文:翻譯結果：Hello world ")
             (js "翻譯結果：Hello world ")
             (js "翻譯結果：Hello world ")
             (js "翻譯結果：Hello world")).
    + left. exists 0xFF1A%N, (js " 譯文:翻譯結果：Hello world ").
      split; [reflexivity|]. split; [vm_compute; reflexivity|].
      exists (js " "). split; [vm_compute; reflexivity|].
      split; [by repeat constructor|].
      intros c r Hc. vm_compute in Hc. by injection Hc as <- _.
    + left. exists 0x3A%N, (js "翻譯結果：Hello world ").
      split; [reflexivity|]. split; [vm_compute; reflexivity|].
      exists []. split; [vm_compute; reflexivity|]. split; [constructor|].
      intros c r Hc. vm_compute in Hc. by injection Hc as <- _.
    + right. split; [|reflexivity]. intros colon rest Hcolon Heq.
      vm_compute in Heq. injection Heq as <- _.
      vm_compute in Hcolon. discriminate Hcolon.
    + exists [], (js " "). split; [vm_compute; reflexivity|].
      split; [constructor|]. split; [by repeat constructor|]. split.
      * intros c r Hc. vm_compute in Hc. by injection Hc as <- _.
      * intros init c Hc. apply (f_equal (@rev N)) in Hc.
        rewrite rev_app_distr in Hc. vm_compute in Hc.
        by injection Hc as <- _.
Defined.

(** C7, as stated, fails on the code: the labels that are removed do not
    depend on the target language.  For the target [en] an output that
    opens with the English label, and for the target [zh-cn] an output that
    opens with the label in Simplified Chinese, are stored and returned
    with the label in place. *)
Lemma translate_keeps_other_labels :
  let stats0 := {| total_duration := 0; load_duration := 0;
                   prompt_eval_count := 0; eval_count := 0 |} in
  let w := {| cache := ∅; calls := [] |} in
  let english := {| text := js "你好"; source_lang := None;
                    target_lang := Some (js "en"); body_model := None |} in
  let simplified := {| text := js "Hello"; source_lang := None;
                       target_lang := Some (js "zh-cn");
                       body_model := None |} in
  let rt_en : Runtime :=
    fun _ _ => Completion (js "Translation result: Hello") stats0 in
  let rt_cn : Runtime :=
    fun _ _ => Completion (js "翻译结果：你好") stats0 in
  let kept_en := {| translation := js "Translation result: Hello";
                    model := default_model; stats := stats0 |} in
  let kept_cn := {| translation := js "翻译结果：你好";
                    model := default_model; stats := stats0 |} in
  (fst (translate rt_en english w) = TranslateResponse kept_en false
   /\ cache (snd (translate rt_en english w))
      !! cacheKey default_model default_source_lang (js "en") (js "你好")
      = Some kept_en)
  /\ (fst (translate rt_cn simplified w) = TranslateResponse kept_cn false
      /\ cache (snd (translate rt_cn simplified w))
         !! cacheKey default_model default_source_lang (js "zh-cn")
              (js "Hello")
         = Some kept_cn).
Proof. split_conjunctions; vm_compute; reflexivity. Qed.

(** ** The cache key *)

(** Base64 works on groups of three bytes. *)
Lemma base64_app (k : nat) (p x : list N) :
  length p = (3 * k)%nat -> base64 (p ++ x) = base64 p ++ base64 x.
Proof.
  revert p. induction k as [|k IH]; intros p Hp.
  - destruct p; [done | simpl in Hp; lia].
  - destruct p as [|a [|b [|c p]]]; simpl in Hp; try lia.
    change (base64 ((a :: b :: c :: p) ++ x))
      with (base64_digit (N.shiftr a 2)
            :: base64_digit (N.lor (N.shiftl (N.land a 3) 4) (N.shiftr b 4))
            :: base64_digit (N.lor (N.shiftl (N.land b 15) 2) (N.shiftr c 6))
            :: base64_digit (N.land c 63) :: base64 (p ++ x)).
    rewrite IH by lia. reflexivity.
Qed.

Lemma base64_length (k : nat) (p : list N) :
  length p = (3 * k)%nat -> length (base64 p) = (4 * k)%nat.
Proof.
  revert p. induction k as [|k IH]; intros p Hp.
  - destruct p; [done | simpl in Hp; lia].
  - destruct p as [|a [|b [|c p]]]; simpl in Hp; try lia.
    change (length (base64 (a :: b :: c :: p)))
      with (S (S (S (S (length (base64 p)))))).
    rewrite IH by lia. lia.
Qed.

Lemma utf8_encode_ascii_app (p x : jsstring) :
  Forall (fun c => (c < 0x80)%N) p ->
  utf8_encode (p ++ x) = p ++ utf8_encode x.
Proof.
  induction 1 as [|c p Hc _ IH]; [done|].
  simpl. apply N.ltb_lt in Hc. by rewrite Hc, IH.
Qed.

(** Only the first 50 digits enter the key: two texts that share their
    first 39 code units, all of them ASCII, have the same key, whatever
    comes after. *)
Lemma cacheKey_shared_prefix (model source target p x y : jsstring) :
  length p = 39%nat -> Forall (fun c => (c < 0x80)%N) p ->
  cacheKey model source target (p ++ x) = cacheKey model source target (p ++ y).
Proof.
  intros Hlen Hascii. unfold cacheKey. do 6 f_equal.
  assert (Hcut : forall z,
    substring (base64 (utf8_encode (p ++ z))) 0 50 = take 50 (base64 p)).
  { intros z. rewrite utf8_encode_ascii_app by done.
    rewrite (base64_app 13) by done.
    pose proof (base64_length 13 p Hlen) as H52.
    rewrite substring_0_take. unfold len. rewrite length_app, H52.
    replace (Z.to_nat _) with 50%nat by lia.
    apply take_app_le. lia. }
  by rewrite !Hcut.
Qed.

(** C6. Two different texts have the same cache key for every model and
    pair of languages, since the key keeps 50 digits of the encoding of the
    text; and once the first has been translated and cached, a request for
    the second is answered with the result cached for the first. *)
Theorem cacheKey_collision :
  exists t1 t2 : jsstring,
    t1 <> t2
    /\ (forall model source target,
          cacheKey model source target t1 = cacheKey model source target t2)
    /\ (forall (rt : Runtime) model source target w response stats,
          cache w !! cacheKey model source target t1 = None ->
          rt (calls w) (generate_request t1 source target model)
            = Completion response stats ->
          let body t := {| text := t; source_lang := Some source;
                           target_lang := Some target;
                           body_model := Some model |} in
          let result := {| translation := clean response; model := model;
                           stats := stats |} in
          exists w1,
            translate rt (body t1) w = (TranslateResponse result false, w1)
            /\ translate rt (body t2) w1 = (TranslateResponse result true, w1)).
Proof.
  set (p := js "The quick brown fox jumps over the lazy").
  exists (p ++ js " dog."), (p ++ js " cat!").
  assert (Hkey : forall model source target,
    cacheKey model source target (p ++ js " dog.")
    = cacheKey model source target (p ++ js " cat!")).
  { intros. apply cacheKey_shared_prefix; [reflexivity|].
    apply List.Forall_forall. intros c Hc. vm_compute in Hc.
    repeat (destruct Hc as [<-|Hc]; [reflexivity|]). destruct Hc. }
  split; [by vm_compute|]. split; [exact Hkey|].
  intros rt model source target w response stats Hmiss Hrt body result.
  destruct (translate_valid rt (body (p ++ js " dog.")) w)
    as (_ & Hmiss1 & _); [by vm_compute | by vm_compute |].
  simpl in Hmiss1. specialize (Hmiss1 Hmiss _ _ Hrt).
  eexists. split; [exact Hmiss1|].
  destruct (translate_valid rt (body (p ++ js " cat!"))
              {| cache := <[cacheKey model source target (p ++ js " dog.")
                            := result]> (cache w);
                 calls := calls w
                          ++ [generate_request (p ++ js " dog.") source target
                                model] |})
    as (Hhit2 & _ & _); [by vm_compute | by vm_compute |].
  apply Hhit2. simpl. rewrite <- Hkey. apply lookup_insert_eq.
Qed.

(** ** Batches *)

(** An array already in the order of its indices is left as it is by the
    sort. *)
Lemma sort_by_index_seq (l : list BatchEntry) (a : nat) :
  map entry_index l = seq a (length l) -> sort_by_index l = l.
Proof.
  revert a. induction l as [|x l IH]; intros a H; [done|].
  simpl in H. injection H as Hx Hl.
  unfold sort_by_index in *. simpl. rewrite (IH _ Hl).
  destruct l as [|y l]; [done|].
  simpl in Hl. injection Hl as Hy _. simpl.
  replace (entry_index x <=? entry_index y)%nat with true; [done|].
  symmetry. apply Nat.leb_le. lia.
Qed.

Lemma lookup_index_seq (l : list BatchEntry) (a i : nat) (e : BatchEntry) :
  map entry_index l = seq a (length l) -> l !! i = Some e ->
  entry_index e = (a + i)%nat.
Proof.
  revert a i. induction l as [|x l IH]; intros a i H Hi; [done|].
  simpl in H. injection H as Hx Hl.
  destruct i as [|i]; simpl in Hi.
  - injection Hi as <-. lia.
  - rewrite (IH _ _ Hl Hi). lia.
Qed.

Section BatchProperties.

Variable rt : Runtime.
Variable completion :
  list (jsstring * TranslationResult) -> list (jsstring * TranslationResult).
Hypothesis completion_perm : forall l, completion l ≡ₚ l.

Variables (source target model : jsstring).
Variable all_texts : list jsstring.
Variable cache0 : gmap jsstring TranslationResult.

Local Abbreviation dead := (Invariants.dead rt source target model all_texts).
Local Abbreviation no_dead_key :=
  (Invariants.no_dead_key rt source target model all_texts cache0).
Local Abbreviation entry_good :=
  (Invariants.entry_good rt source target model all_texts cache0).

Lemma batch_item_good i index text w e write w1 :
  In text all_texts -> no_dead_key (cache w) ->
  batch_item rt source target model i index text w = (e, write, w1) ->
  entry_index e = (i + index)%nat /\ entry_good text e
  /\ cache w1 = cache w
  /\ (forall kv, write = Some kv -> ~ dead (fst kv)).
Proof.
  intros Hin Hinv. unfold batch_item.
  destruct (cache w !! cacheKey model source target text) as [cached|] eqn:Hc.
  - intros [= <- <- <-]. split; [done|]. split; [|by split].
    split; [by left|].
    intros Hstart Hdead. by rewrite (Hinv _ Hstart Hdead) in Hc.
  - unfold translateWithOllama.
    destruct (rt (calls w) (generate_request text source target model))
      as [response st | message] eqn:Hrt.
    + assert (Hlive : ~ dead (cacheKey model source target text)).
      { intros Hdead. destruct (Hdead text Hin eq_refl (calls w)) as [m Hm].
        congruence. }
      intros [= <- <- <-]. split; [done|]. split; [|split; [done|]].
      * split; [by left|]. intros _ Hdead. by destruct Hlive.
      * by intros kv [= <-].
    + intros [= <- <- <-]. split; [done|]. split; [|by split].
      split; [|done]. right. by exists (calls w), message.
Qed.

Lemma map_batch_good batch : forall i index w entries writes w',
  (forall t, In t batch -> In t all_texts) -> no_dead_key (cache w) ->
  map_batch rt source target model i index batch w = (entries, writes, w') ->
  Forall2 entry_good batch entries
  /\ map entry_index entries = seq (i + index) (length batch)
  /\ cache w' = cache w
  /\ Forall (fun kv => ~ dead (fst kv)) writes.
Proof.
  induction batch as [|text batch IH]; intros i index w entries writes w'
    Hsub Hinv; simpl.
  - intros [= <- <- <-]. split; [constructor|]. by split; [|split].
  - destruct (batch_item rt source target model i index text w)
      as [[e write] w1] eqn:Hitem.
    destruct (map_batch rt source target model i (S index) batch w1)
      as [[entries' writes'] w2] eqn:Hrest.
    intros [= <- <- <-].
    apply batch_item_good in Hitem as (Hidx & Hgood & Hcache & Hwrite);
      [|apply Hsub; by left|done].
    apply IH in Hrest as (Hall & Hseq & Hcache' & Hwrites);
      [|intros t Ht; apply Hsub; by right|by rewrite Hcache].
    split; [|split; [|split]].
    + by constructor.
    + simpl. rewrite Hidx, Hseq. do 2 f_equal. lia.
    + by rewrite Hcache', Hcache.
    + apply Forall_app. split; [|done].
      destruct write as [kv|]; simpl; [|constructor].
      constructor; [by apply Hwrite | constructor].
Qed.

Lemma cache_writes_no_dead_key writes : forall w,
  Forall (fun kv => ~ dead (fst kv)) writes -> no_dead_key (cache w) ->
  no_dead_key
    (cache (fold_left (fun w kv => cache_set (fst kv) (snd kv) w) writes w)).
Proof.
  induction writes as [|kv writes IH]; intros w Hall Hinv; simpl; [done|].
  apply List.Forall_cons_iff in Hall as [Hkv Hall].
  apply IH; [done|]. intros k Hstart Hdead. simpl.
  rewrite lookup_insert_ne; [by apply Hinv|].
  intros Heq. apply Hkv. by rewrite Heq.
Qed.

Lemma settle_batch_good i batch w entries w' :
  (forall t, In t batch -> In t all_texts) -> no_dead_key (cache w) ->
  settle_batch rt completion source target model i batch w = (entries, w') ->
  Forall2 entry_good batch entries
  /\ map entry_index entries = seq i (length batch)
  /\ no_dead_key (cache w').
Proof.
  intros Hsub Hinv. unfold settle_batch.
  destruct (map_batch rt source target model i 0 batch w)
    as [[entries' writes] w1] eqn:Hmap.
  intros [= <- <-].
  apply map_batch_good in Hmap as (Hall & Hseq & Hcache & Hwrites); try done.
  rewrite Nat.add_0_r in Hseq. split; [done|]. split; [done|].
  apply cache_writes_no_dead_key; [|by rewrite Hcache].
  by rewrite completion_perm.
Qed.

Lemma batch_loop_good fuel : forall i results w results' w',
  (length all_texts <= i + fuel)%nat ->
  Forall2 entry_good (take i all_texts) results ->
  map entry_index results = seq 0 (length results) ->
  no_dead_key (cache w) ->
  batch_loop rt completion source target model fuel all_texts i results w
    = (results', w') ->
  Forall2 entry_good all_texts results'
  /\ map entry_index results' = seq 0 (length results').
Proof.
  induction fuel as [|fuel IH]; intros i results w results' w' Hfuel Hall Hseq
    Hinv; simpl.
  - intros [= <- <-]. rewrite take_ge in Hall by lia. done.
  - destruct (i <? length all_texts)%nat eqn:Hi.
    + apply Nat.ltb_lt in Hi.
      destruct (settle_batch rt completion source target model i
                  (take batchSize (drop i all_texts)) w)
        as [batchResults w1] eqn:Hsettle.
      apply settle_batch_good in Hsettle as (Hall1 & Hseq1 & Hinv1);
        [| |done].
      * apply IH; [unfold batchSize; lia| | |done].
        -- rewrite <- take_take_drop. by apply Forall2_app.
        -- pose proof (Forall2_length _ _ _ Hall) as Hlen.
           pose proof (Forall2_length _ _ _ Hall1) as Hlen1.
           rewrite length_take in Hlen.
           rewrite map_app, length_app, seq_app, Hseq, Hseq1.
           simpl. rewrite <- Hlen1. do 2 f_equal. lia.
      * intros t Ht. apply list_elem_of_In. apply list_elem_of_In in Ht.
        by apply (subseteq_drop i), (subseteq_take batchSize).
    + apply Nat.ltb_ge in Hi. intros [= <- <-].
      rewrite take_ge in Hall by lia. done.
Qed.

Lemma batchTranslate_good w results w' :
  cache w = cache0 ->
  batchTranslate rt completion source target model all_texts w
    = (results, w') ->
  Forall2 entry_good all_texts results
  /\ map entry_index results = seq 0 (length results).
Proof.
  intros Hcache. unfold batchTranslate.
  destruct (batch_loop rt completion source target model (length all_texts)
              all_texts 0 [] w) as [results0 w0] eqn:Hloop.
  intros [= <- <-].
  apply batch_loop_good in Hloop as (Hall & Hseq).
  - by rewrite (sort_by_index_seq _ _ Hseq).
  - lia.
  - constructor.
  - done.
  - intros k Hstart _. by rewrite Hcache.
Qed.

End BatchProperties.

Lemma cache_writes_calls (writes : list (jsstring * TranslationResult)) :
  forall w,
    calls (fold_left (fun w kv => cache_set (fst kv) (snd kv) w) writes w)
    = calls w.
Proof. induction writes as [|kv writes IH]; intros w; simpl; [done|]. by rewrite IH. Qed.

Lemma cache_writes_keep (writes : list (jsstring * TranslationResult)) k v :
  forall w,
    cache w !! k = Some v -> Forall (fun kv => fst kv <> k) writes ->
    cache (fold_left (fun w kv => cache_set (fst kv) (snd kv) w) writes w) !! k
    = Some v.
Proof.
  induction writes as [|kv writes IH]; intros w Hk Hall; simpl; [done|].
  apply List.Forall_cons_iff in Hall as [Hkv Hall].
  apply IH; [|done]. simpl. by rewrite lookup_insert_ne.
Qed.

Lemma cache_writes_present (writes : list (jsstring * TranslationResult)) k :
  forall w,
    is_Some (cache w !! k) \/ (exists r, In (k, r) writes) ->
    is_Some
      (cache (fold_left (fun w kv => cache_set (fst kv) (snd kv) w) writes w)
       !! k).
Proof.
  induction writes as [|kv writes IH]; intros w H; simpl.
  - destruct H as [H | [r []]]. exact H.
  - apply IH. destruct H as [H | [r [-> | Hin]]].
    + left. simpl. apply lookup_insert_is_Some.
      destruct (decide (fst kv = k)); [by left | by right].
    + left. simpl. rewrite lookup_insert_eq. by eexists.
    + right. by exists r.
Qed.

Lemma cache_writes_origin (writes : list (jsstring * TranslationResult)) :
  forall w k v,
    cache (fold_left (fun w kv => cache_set (fst kv) (snd kv) w) writes w) !! k
    = Some v ->
    cache w !! k = Some v \/ In (k, v) writes.
Proof.
  induction writes as [|kv writes IH]; intros w k v H; simpl in *; [by left|].
  apply IH in H as [H | H]; [|right; by right].
  simpl in H. destruct (decide (fst kv = k)) as [<- | Hne].
  - rewrite lookup_insert_eq in H. injection H as <-. right. left.
    by destruct kv.
  - rewrite lookup_insert_ne in H by done. by left.
Qed.

Lemma entry_index_seq (l : list BatchEntry) (a : nat) :
  (forall j e, l !! j = Some e -> entry_index e = (a + j)%nat) ->
  map entry_index l = seq a (length l).
Proof.
  revert a. induction l as [|x l IH]; intros a H; [done|].
  simpl. f_equal.
  - rewrite (H 0%nat x eq_refl). lia.
  - apply IH. intros j e Hj. rewrite (H (S j) e Hj). lia.
Qed.

Section BatchAccount.

Variable rt : Runtime.
Variable completion :
  list (jsstring * TranslationResult) -> list (jsstring * TranslationResult).
Hypothesis completion_perm : forall l, Permutation (completion l) l.

Variables (source target model : jsstring).

Local Abbreviation key := (cacheKey model source target).
Local Abbreviation sent := (Invariants.requests_sent source target model).
Local Abbreviation uncached := (Invariants.uncached source target model).
Local Abbreviation runtime_entry :=
  (Invariants.runtime_entry rt source target model).

Lemma requests_sent_app (t1 t2 : list jsstring) (c1 c2 : list bool) :
  length t1 = length c1 ->
  sent (t1 ++ t2) (c1 ++ c2) = sent t1 c1 ++ sent t2 c2.
Proof.
  revert c1. induction t1 as [|t t1 IH]; intros [|c c1] H; simpl in H;
    try done.
  injection H as H. cbn [app Invariants.requests_sent].
  rewrite IH by done. by rewrite app_assoc.
Qed.

Lemma runtime_entry_index history i text :
  entry_index (runtime_entry history i text) = i.
Proof. unfold Invariants.runtime_entry. by destruct (rt _ _). Qed.

Lemma batch_item_exact i index text w e write w1 :
  batch_item rt source target model i index text w = (e, write, w1) ->
  cache w1 = cache w
  /\ calls w1
     = calls w ++ (if uncached (cache w) text
                   then [generate_request text source target model] else [])
  /\ e = match cache w !! key text with
         | Some cached => EntryResult (i + index) cached
         | None => runtime_entry (calls w) (i + index) text
         end
  /\ (forall kv, write = Some kv ->
        fst kv = key text /\ cache w !! key text = None
        /\ e = EntryResult (i + index) (snd kv)).
Proof.
  unfold batch_item, Invariants.uncached.
  destruct (cache w !! key text) as [cached|] eqn:Hkey.
  - intros [= <- <- <-]. rewrite bool_decide_eq_false_2 by done.
    by rewrite app_nil_r.
  - rewrite bool_decide_eq_true_2 by done.
    unfold translateWithOllama, Invariants.runtime_entry.
    destruct (rt (calls w) (generate_request text source target model))
      as [response st | message]; intros [= <- <- <-];
      (split; [done|]); (split; [done|]); (split; [done|]).
    + by intros kv [= <-].
    + by intros kv [=].
Qed.

Lemma map_batch_exact batch : forall i index w entries writes w',
  map_batch rt source target model i index batch w = (entries, writes, w') ->
  cache w' = cache w
  /\ calls w' = calls w ++ sent batch (uncached (cache w) <$> batch)
  /\ length entries = length batch
  /\ (forall n text, batch !! n = Some text ->
        entries !! n
        = Some match cache w !! key text with
               | Some cached => EntryResult (i + index + n) cached
               | None =>
                 runtime_entry
                   (calls w ++ sent (take n batch)
                                 (uncached (cache w) <$> take n batch))
                   (i + index + n) text
               end)
  /\ (forall kv, In kv writes ->
        exists n text,
          batch !! n = Some text /\ fst kv = key text
          /\ cache w !! key text = None
          /\ entries !! n = Some (EntryResult (i + index + n) (snd kv))).
Proof.
  induction batch as [|text batch IH]; intros i index w entries writes w'.
  - simpl. intros [= <- <- <-]. split; [done|].
    split; [by rewrite app_nil_r|]. split; [done|].
    split; [intros n t H; done | intros kv []].
  - cbn [map_batch].
    destruct (batch_item rt source target model i index text w)
      as [[e write] w1] eqn:Hitem.
    destruct (map_batch rt source target model i (S index) batch w1)
      as [[entries' writes'] w2] eqn:Hrest.
    intros [= <- <- <-].
    apply IH in Hrest as (Hc & Hcalls & Hlen & Hitems & Hwrites).
    apply batch_item_exact in Hitem as (Hc1 & Hcalls1 & He & Hwrite).
    rewrite Hc1 in Hc, Hcalls, Hitems, Hwrites.
    split; [done|]. split.
    { rewrite Hcalls, Hcalls1, <- app_assoc. reflexivity. }
    split; [simpl; by rewrite Hlen|]. split.
    + intros [|n] t Hn; simpl in Hn.
      * injection Hn as <-. simpl. rewrite Nat.add_0_r, app_nil_r.
        by rewrite He.
      * simpl. rewrite (Hitems n t Hn). f_equal.
        replace (i + S index + n)%nat with (i + index + S n)%nat by lia.
        destruct (cache w !! key t); [done|]. f_equal.
        rewrite Hcalls1, <- app_assoc. reflexivity.
    + intros kv Hin. apply in_app_or in Hin as [Hin | Hin].
      * destruct write as [kv'|]; simpl in Hin; [|done].
        destruct Hin as [<- | []].
        destruct (Hwrite _ eq_refl) as (Hk & Hmiss & Hee).
        exists 0%nat, text. simpl. rewrite Nat.add_0_r, <- Hee. done.
      * destruct (Hwrites kv Hin) as (n & t & Hn & Hk & Hmiss & Hen).
        exists (S n), t. simpl.
        replace (i + index + S n)%nat with (i + S index + n)%nat by lia.
        done.
Qed.

Lemma settle_batch_exact i batch w entries w' :
  settle_batch rt completion source target model i batch w = (entries, w') ->
  calls w' = calls w ++ sent batch (uncached (cache w) <$> batch)
  /\ length entries = length batch
  /\ (forall n text, batch !! n = Some text ->
        entries !! n
        = Some match cache w !! key text with
               | Some cached => EntryResult (i + n) cached
               | None =>
                 runtime_entry
                   (calls w ++ sent (take n batch)
                                 (uncached (cache w) <$> take n batch))
                   (i + n) text
               end)
  /\ (forall k v, cache w' !! k = Some v ->
        cache w !! k = Some v
        \/ exists n text,
             batch !! n = Some text /\ key text = k /\ cache w !! k = None
             /\ entries !! n = Some (EntryResult (i + n) v))
  /\ (forall k, is_Some (cache w !! k) -> is_Some (cache w' !! k)).
Proof.
  unfold settle_batch.
  destruct (map_batch rt source target model i 0 batch w)
    as [[entries' writes] w1] eqn:Hmap.
  intros [= <- <-].
  apply map_batch_exact in Hmap as (Hc & Hcalls & Hlen & Hitems & Hwrites).
  split; [by rewrite cache_writes_calls|]. split; [done|]. split; [|split].
  - intros n text Hn. rewrite (Hitems n text Hn). by rewrite Nat.add_0_r.
  - intros k v Hk. apply cache_writes_origin in Hk as [Hk | Hin].
    + left. by rewrite <- Hc.
    + right. apply (Permutation_in _ (completion_perm writes)) in Hin.
      destruct (Hwrites _ Hin) as (n & text & Hn & Hkey & Hmiss & He).
      simpl in Hkey, He. rewrite Nat.add_0_r in He. subst k.
      by exists n, text.
  - intros k Hk. apply cache_writes_present. left. by rewrite Hc.
Qed.

Variable w0 : World.
Variable all_texts : list jsstring.

Local Abbreviation entry_of :=
  (Invariants.entry_of rt source target model w0 all_texts).
Local Abbreviation batch_inv :=
  (Invariants.batch_inv rt source target model w0 all_texts).

Lemma entry_of_extend called results cb rb j text e :
  (j < length called)%nat ->
  entry_of called results j text e ->
  entry_of (called ++ cb) (results ++ rb) j text e.
Proof.
  intros Hj. unfold Invariants.entry_of.
  rewrite lookup_app_l by done. rewrite take_app_le by lia.
  assert (Hcached :
    (exists cached,
       e = EntryResult j cached
       /\ (cache w0 !! key text = Some cached
           \/ exists j' t,
                (j' < j)%nat /\ all_texts !! j' = Some t /\ key t = key text
                /\ results !! j' = Some (EntryResult j' cached)
                /\ called !! j' = Some true)) ->
    exists cached,
      e = EntryResult j cached
      /\ (cache w0 !! key text = Some cached
          \/ exists j' t,
               (j' < j)%nat /\ all_texts !! j' = Some t /\ key t = key text
               /\ (results ++ rb) !! j' = Some (EntryResult j' cached)
               /\ (called ++ cb) !! j' = Some true)).
  { intros (cached & He & [H0 | (j' & t & Hlt & Ht & Hk & Hr & Hcj)]);
      exists cached; (split; [done|]); [by left|].
    right. exists j', t. split; [done|]. split; [done|]. split; [done|].
    split; by apply lookup_app_l_Some. }
  destruct (called !! j) as [[|]|]; [done | exact Hcached | exact Hcached].
Qed.

Lemma batch_step_exact i results called w entries w1 :
  (i < length all_texts)%nat ->
  batch_inv (take i all_texts) results called w ->
  settle_batch rt completion source target model i
    (take batchSize (drop i all_texts)) w = (entries, w1) ->
  batch_inv (take (i + batchSize) all_texts) (results ++ entries)
    (called ++ (uncached (cache w) <$> take batchSize (drop i all_texts))) w1.
Proof.
  intros Hi (Hlr & Hlc & Hcalls & Hitems & Horigin & Hmono) Hsettle.
  set (batch := take batchSize (drop i all_texts)) in *.
  set (cb := uncached (cache w) <$> batch).
  apply settle_batch_exact in Hsettle
    as (Hcalls1 & Hlen1 & Hitems1 & Horigin1 & Hmono1).
  fold cb in Hcalls1.
  assert (Hseen : take (i + batchSize) all_texts = take i all_texts ++ batch).
  { unfold batch. by rewrite take_take_drop. }
  assert (Hli : length (take i all_texts) = i).
  { rewrite length_take. lia. }
  rewrite Hli in Hlr, Hlc.
  assert (Hlcb : length cb = length batch).
  { unfold cb. by rewrite length_fmap. }
  assert (Hat : forall n text, batch !! n = Some text ->
            all_texts !! (i + n)%nat = Some text /\ (n < batchSize)%nat).
  { intros n text Hn. unfold batch in Hn.
    apply lookup_take_Some in Hn as [Hn Hlt]. by rewrite lookup_drop in Hn. }
  rewrite Hseen. split; [|split; [|split; [|split; [|split]]]].
  - rewrite !length_app. lia.
  - rewrite !length_app. lia.
  - rewrite Hcalls1, Hcalls, <- app_assoc. f_equal.
    symmetry. apply requests_sent_app. lia.
  - intros j text Hj. apply lookup_app_Some in Hj as [Hj | [Hge Hj]].
    + destruct (Hitems j text Hj) as (e & He & Hidx & Hentry).
      exists e. split; [by apply lookup_app_l_Some|]. split; [done|].
      apply entry_of_extend; [|done].
      apply lookup_lt_Some in He. lia.
    + rewrite Hli in Hge, Hj. set (n := (j - i)%nat) in *.
      assert (Hjn : j = (i + n)%nat) by lia.
      destruct (Hat n text Hj) as [Hall Hn].
      specialize (Hitems1 n text Hj).
      eexists. split.
      { rewrite lookup_app_r by lia. rewrite Hlr. exact Hitems1. }
      split.
      { rewrite Hjn. destruct (cache w !! key text); [done|].
        apply runtime_entry_index. }
      unfold Invariants.entry_of.
      rewrite (lookup_app_r called) by lia. rewrite Hlc. fold n.
      unfold cb at 1. rewrite list_lookup_fmap, Hj. cbn [fmap option_fmap option_map].
      unfold Invariants.uncached at 1.
      destruct (cache w !! key text) as [cached|] eqn:Hk.
      * rewrite bool_decide_eq_false_2 by done.
        exists cached. split; [by rewrite Hjn|].
        destruct (Horigin _ _ Hk) as [H0 | (j' & t & Ht & Hkt & Hr & Hcj)];
          [by left|].
        right. exists j', t. apply lookup_lt_Some in Hr as Hlt.
        split; [lia|]. split; [done|]. split; [done|].
        split; by apply lookup_app_l_Some.
      * rewrite bool_decide_eq_true_2 by done. split.
        { destruct (cache w0 !! key text) as [v|] eqn:H0; [|done].
          destruct (Hmono (key text)) as [v' Hv']; [by eexists|]. congruence. }
        rewrite Hjn. f_equal.
        rewrite Hcalls, <- app_assoc. f_equal.
        rewrite <- take_take_drop.
        rewrite (take_app_add' called) by lia.
        rewrite requests_sent_app by lia. f_equal.
        unfold batch. rewrite take_take.
        replace (n `min` batchSize)%nat with n by lia.
        unfold cb, batch. rewrite <- fmap_take, take_take.
        replace (n `min` batchSize)%nat with n by lia. reflexivity.
  - intros k v Hk.
    destruct (Horigin1 k v Hk) as [Hk0 | (n & text & Hn & Hkt & Hmiss & He)].
    + destruct (Horigin k v Hk0) as [H0 | (j & t & Ht & Hkt & Hr & Hcj)];
        [by left|].
      right. exists j, t. split; [done|]. split; [done|].
      split; by apply lookup_app_l_Some.
    + right. destruct (Hat n text Hn) as [Hall _].
      exists (i + n)%nat, text. split; [done|]. split; [done|]. split.
      * rewrite lookup_app_r by lia. rewrite Hlr.
        replace (i + n - i)%nat with n by lia. done.
      * rewrite lookup_app_r by lia. rewrite Hlc.
        replace (i + n - i)%nat with n by lia.
        unfold cb. rewrite list_lookup_fmap, Hn. simpl.
        unfold Invariants.uncached. rewrite Hkt.
        by rewrite bool_decide_eq_true_2.
  - intros k Hk. by apply Hmono1, Hmono.
Qed.

Lemma batch_loop_exact fuel : forall i results called w results' w',
  (length all_texts <= i + fuel)%nat ->
  batch_inv (take i all_texts) results called w ->
  batch_loop rt completion source target model fuel all_texts i results w
    = (results', w') ->
  exists called', batch_inv all_texts results' called' w'.
Proof.
  induction fuel as [|fuel IH]; intros i results called w results' w' Hfuel
    Hinv; simpl.
  - intros [= <- <-]. exists called. by rewrite take_ge in Hinv by lia.
  - destruct (i <? length all_texts)%nat eqn:Hi.
    + apply Nat.ltb_lt in Hi.
      destruct (settle_batch rt completion source target model i
                  (take batchSize (drop i all_texts)) w)
        as [entries w1] eqn:Hsettle.
      apply IH with (called := called ++ (uncached (cache w)
                                 <$> take batchSize (drop i all_texts))).
      * unfold batchSize. lia.
      * by apply batch_step_exact.
    + apply Nat.ltb_ge in Hi. intros [= <- <-].
      exists called. by rewrite take_ge in Hinv by lia.
Qed.

Lemma batchTranslate_exact results w' :
  batchTranslate rt completion source target model all_texts w0
    = (results, w') ->
  exists called, batch_inv all_texts results called w'.
Proof.
  unfold batchTranslate.
  destruct (batch_loop rt completion source target model (length all_texts)
              all_texts 0 [] w0) as [results0 w1] eqn:Hloop.
  intros [= <- <-].
  apply (batch_loop_exact _ _ _ []) in Hloop as [called Hinv]; [|lia|].
  - exists called.
    destruct Hinv as (Hlr & Hlc & Hcalls & Hitems & Horigin & Hmono).
    rewrite (sort_by_index_seq results0 0); [done|].
    apply entry_index_seq. intros j e Hj.
    assert (Hlt : (j < length all_texts)%nat).
    { apply lookup_lt_Some in Hj. lia. }
    apply lookup_lt_is_Some in Hlt as [text Ht].
    destruct (Hitems j text Ht) as (e' & He' & Hidx & _). simpl. congruence.
  - split; [done|]. split; [done|]. split; [by rewrite app_nil_r|].
    split; [intros j text Hj; done|]. split; [intros k v Hk; by left | done].
Qed.

End BatchAccount.

(** C5. For an array of 1 to 50 texts, [BatchTranslate] answers with one
    entry for each text, the entry of the i-th text at position i and with
    index i, in whatever order the requests to the runtime complete.  Each
    text is sent to the runtime at most once, and the requests go out in the
    order of the texts.  The entry of a text that was sent is what the
    runtime answered to that very request: on a completion the cleaned
    result, on a failure a failed entry with the message of the failure and
    with the text itself as its translation; the entries of the other texts
    are there all the same.  The entry of a text that was not sent is a
    result from the cache: one that was there when the request came in, or
    the entry of an earlier text with the same key. *)
Theorem batch_results_in_order (rt : Runtime)
    (completion : list (jsstring * TranslationResult)
                  -> list (jsstring * TranslationResult))
    (body : BatchBody) (w : World) :
  let source := default default_source_lang (batch_source_lang body) in
  let target := default default_target_lang (batch_target_lang body) in
  let model := default default_model (batch_model body) in
  let key t := cacheKey model source target t in
  let request t := generate_request t source target model in
  let sent := Invariants.requests_sent source target model in
  (forall l, Permutation (completion l) l) ->
  (1 <= length (texts body) <= 50)%nat ->
  exists results called w',
    translate_batch rt completion body w
    = (BatchResponse results (Z.of_nat (length (texts body))), w')
    /\ length results = length (texts body)
    /\ length called = length (texts body)
    /\ calls w' = calls w ++ sent (texts body) called
    /\ forall i text, texts body !! i = Some text ->
         exists e,
           results !! i = Some e
           /\ entry_index e = i
           /\ match called !! i with
              | Some true =>
                cache w !! key text = None
                /\ e = match
                         rt (calls w ++ sent (take i (texts body))
                                          (take i called))
                           (request text)
                       with
                       | Completion response stats =>
                         EntryResult i {| translation := clean response;
                                          model := model; stats := stats |}
                       | Failure message =>
                         EntryFailed i (failure_message message) text
                       end
              | _ =>
                exists cached,
                  e = EntryResult i cached
                  /\ (cache w !! key text = Some cached
                      \/ exists j t,
                           (j < i)%nat /\ texts body !! j = Some t
                           /\ key t = key text
                           /\ results !! j = Some (EntryResult j cached)
                           /\ called !! j = Some true)
              end.
Proof.
  intros source target model key request sent Hperm [Hmin Hmax].
  unfold translate_batch. fold source target model.
  replace (length (texts body) =? 0)%nat with false
    by (symmetry; apply Nat.eqb_neq; lia).
  replace (50 <? length (texts body))%nat with false
    by (symmetry; apply Nat.ltb_ge; lia).
  destruct (batchTranslate rt completion source target model (texts body) w)
    as [results w'] eqn:Hbatch.
  apply (batchTranslate_exact rt completion Hperm source target model w
           (texts body)) in Hbatch
    as (called & Hlr & Hlc & Hcalls & Hitems & _ & _).
  exists results, called, w'. split; [done|]. split; [done|].
  split; [done|]. split; [done|].
  intros i text Hi. destruct (Hitems i text Hi) as (e & He & Hidx & Hentry).
  exists e. split; [done|]. split; [done|]. exact Hentry.
Qed.

Lemma batch_results_in_order_witness :
  let stats0 := {| total_duration := 0; load_duration := 0;
                   prompt_eval_count := 0; eval_count := 0 |} in
  let rt : Runtime := fun _ request =>
    if decide (req_prompt request
               = getTranslationPrompt (js "b") default_source_lang
                   default_target_lang)
    then Failure (js "timeout of 30000ms exceeded")
    else Completion (js "譯文：甲") stats0 in
  let body := {| texts := [js "a"; js "b"; js "c"]; batch_source_lang := None;
                 batch_target_lang := None; batch_model := None |} in
  exists results w',
    translate_batch rt (@rev _) body {| cache := ∅; calls := [] |}
    = (BatchResponse results 3, w')
    /\ length results = 3%nat
    /\ results !! 1%nat
       = Some (EntryFailed 1 (js "翻譯失敗: timeout of 30000ms exceeded")
                 (js "b")).
Proof.
  intros stats0 rt body.
  destruct (batch_results_in_order rt (@rev _) body {| cache := ∅; calls := [] |})
    as (results & called & w' & Heq & Hlen & _ & _ & Hitems).
  - intros l. symmetry. apply Permutation_rev.
  - simpl. lia.
  - exists results, w'. split; [exact Heq|]. split; [exact Hlen|].
    destruct (Hitems 1%nat (js "b") eq_refl) as (e & He & _ & Hentry).
    rewrite He. f_equal.
    assert (Hfails : forall history,
      rt history (generate_request (js "b") default_source_lang
                    default_target_lang default_model)
      = Failure (js "timeout of 30000ms exceeded")).
    { intros history. vm_compute. reflexivity. }
    assert (Hkeys :
      cacheKey default_model default_source_lang default_target_lang (js "a")
      <> cacheKey default_model default_source_lang default_target_lang
           (js "b")).
    { vm_compute. congruence. }
    assert (Hcached : ~ exists cached : TranslationResult,
      e = EntryResult 1 cached
      /\ ((∅ : gmap jsstring TranslationResult)
            !! cacheKey default_model default_source_lang default_target_lang
                 (js "b") = Some cached
          \/ exists j t,
               (j < 1)%nat /\ [js "a"; js "b"; js "c"] !! j = Some t
               /\ cacheKey default_model default_source_lang
                    default_target_lang t
                  = cacheKey default_model default_source_lang
                      default_target_lang (js "b")
               /\ results !! j = Some (EntryResult j cached)
               /\ called !! j = Some true)).
    { intros (cached & _ & [H0 | (j & t & Hj & Ht & Hk & _)]);
        [by rewrite lookup_empty in H0|].
      destruct j as [|j]; [|lia]. injection Ht as <-. by apply Hkeys. }
    destruct (called !! 1%nat) as [[|]|].
    + destruct Hentry as [_ ->].
      change (default default_source_lang (batch_source_lang body))
        with default_source_lang.
      change (default default_target_lang (batch_target_lang body))
        with default_target_lang.
      change (default default_model (batch_model body)) with default_model.
      rewrite Hfails. vm_compute. reflexivity.
    + destruct (Hcached Hentry).
    + destruct (Hcached Hentry).
Defined.

(** The example of the specification: of the texts a, b, c the runtime
    fails on b; the three entries come back in the order of the texts, the
    second one failed and carrying b. *)
Lemma batch_example_a_b_c :
  let stats0 := {| total_duration := 0; load_duration := 0;
                   prompt_eval_count := 0; eval_count := 0 |} in
  let rt : Runtime := fun _ request =>
    if decide (req_prompt request
               = getTranslationPrompt (js "b") default_source_lang
                   default_target_lang)
    then Failure (js "timeout of 30000ms exceeded")
    else Completion (js "譯文：甲") stats0 in
  let body := {| texts := [js "a"; js "b"; js "c"]; batch_source_lang := None;
                 batch_target_lang := None; batch_model := None |} in
  let ok := {| translation := js "甲"; model := default_model;
               stats := stats0 |} in
  fst (translate_batch rt (@rev _) body {| cache := ∅; calls := [] |})
  = BatchResponse
      [ EntryResult 0 ok;
        EntryFailed 1 (js "翻譯失敗: timeout of 30000ms exceeded") (js "b");
        EntryResult 2 ok ] 3.
Proof. vm_compute. reflexivity. Qed.

(** * Further properties *)

(** ** Segmentation: how far segments can grow, and that a long text is cut *)

Lemma substring_from_length (s : jsstring) (n : Z) :
  len (substring_from s n) = len s - Z.min (Z.max n 0) (len s).
Proof.
  rewrite substring_from_drop. pose proof (len_nonneg s).
  unfold len in *. rewrite length_drop. lia.
Qed.

Lemma splitText_step_bound maxLength bound st sentence :
  maxLength <= bound -> len sentence <= bound ->
  Forall (fun seg => len seg <= bound) (fst st) -> len (snd st) <= bound ->
  Forall (fun seg => len seg <= bound)
    (fst (splitText_step maxLength st sentence))
  /\ len (snd (splitText_step maxLength st sentence)) <= bound.
Proof.
  destruct st as [segments cur]. simpl. intros Hmax Hs Hseg Hcur.
  pose proof (len_nonneg sentence) as Hs0.
  destruct (len cur + len sentence <=? maxLength) eqn:Hfit; simpl.
  - apply Z.leb_le in Hfit. rewrite len_app. split; [done | lia].
  - destruct (truthy cur); simpl.
    + split; [|done]. apply Forall_app. split; [done|]. by repeat constructor.
    + rewrite substring_from_length. split; [|lia].
      apply Forall_app. split; [done|]. constructor; [|constructor].
      rewrite substring_0_length. lia.
Qed.

Lemma splitText_loop_bound maxLength bound sentences : forall st,
  maxLength <= bound ->
  Forall (fun s => len s <= bound) sentences ->
  Forall (fun seg => len seg <= bound) (fst st) -> len (snd st) <= bound ->
  Forall (fun seg => len seg <= bound)
    (fst (fold_left (splitText_step maxLength) sentences st))
  /\ len (snd (fold_left (splitText_step maxLength) sentences st)) <= bound.
Proof.
  induction sentences as [|s sentences IH]; intros st Hmax Hall Hseg Hcur;
    simpl; [done|].
  apply List.Forall_cons_iff in Hall as [Hs Hall].
  destruct (splitText_step_bound maxLength bound st s) as [Ha Hb]; try done.
  by apply IH.
Qed.

(** No segment of [splitText(text, maxLength)] is longer than the larger of
    [maxLength] and the longest piece that the split on sentence boundaries
    gives; in particular every segment fits in [maxLength] when every such
    piece does. *)
Theorem splitText_segment_bound (text : jsstring) (maxLength bound : Z) :
  maxLength <= bound ->
  Forall (fun s => len s <= bound) (split_sentences text) ->
  Forall (fun seg => len seg <= bound) (splitText text maxLength).
Proof.
  intros Hmax Hall. unfold splitText.
  destruct (len text <=? maxLength) eqn:Hfit.
  - apply Z.leb_le in Hfit. constructor; [lia | constructor].
  - destruct (split_sentences text) as [|s0 sentences] eqn:Hsplit;
      [by constructor|].
    rewrite <- Hsplit in *.
    destruct (splitText_loop_bound maxLength bound (split_sentences text)
                ([], [])) as [H1 H2]; try done.
    { rewrite Hsplit in Hall. apply List.Forall_cons_iff in Hall as [Hs0 _].
      pose proof (len_nonneg s0). simpl. change (len []) with 0. lia. }
    destruct (fold_left _ _ _) as [segments cur]. simpl in *.
    destruct (truthy cur); [|done].
    apply Forall_app. split; [done|]. by repeat constructor.
Qed.

Lemma splitText_segment_bound_witness :
  Forall (fun seg => len seg <= 10)
    (splitText (js "One. Two! Three? Four.") 10).
Proof.
  apply splitText_segment_bound; [lia|].
  vm_compute. repeat constructor; discriminate.
Defined.

(** The state of the loop of [splitText] on a text that does not fit: nothing
    emitted yet and a current segment that fits; or something emitted and a
    current segment that is not empty; or two segments emitted. *)
Lemma splitText_step_progress maxLength st sentence :
  0 <= maxLength ->
  (fst st = [] /\ len (snd st) <= maxLength)
  \/ (fst st <> [] /\ snd st <> [])
  \/ (2 <= length (fst st))%nat ->
  let st' := splitText_step maxLength st sentence in
  (fst st' = [] /\ len (snd st') <= maxLength)
  \/ (fst st' <> [] /\ snd st' <> [])
  \/ (2 <= length (fst st'))%nat.
Proof.
  destruct st as [segments cur]. intros Hmax Hst. cbv zeta.
  unfold splitText_step. simpl in Hst.
  pose proof (len_nonneg sentence) as Hs0. pose proof (len_nonneg cur) as Hc0.
  destruct (len cur + len sentence <=? maxLength) eqn:Hfit; simpl.
  - apply Z.leb_le in Hfit. destruct Hst as [[-> Hc] | [[Hs Hc] | Hs]].
    + left. rewrite len_app. split; [done | lia].
    + right. left. split; [done|]. by destruct cur.
    + by right; right.
  - apply Z.leb_gt in Hfit. destruct (truthy cur) eqn:Ht; simpl.
    + destruct Hst as [[-> Hc] | [[Hs Hc] | Hs]].
      * right. left. split; [done|]. intros ->. change (len []) with 0 in Hfit.
        lia.
      * right. right. rewrite length_app. simpl.
        destruct segments; [done | simpl; lia].
      * right. right. rewrite length_app. lia.
    + apply truthy_false_iff in Ht. subst cur. change (len []) with 0 in Hfit.
      destruct Hst as [[-> Hc] | [[Hs Hc] | Hs]]; [|done|].
      * right. left. split; [done|]. intros Hnil.
        apply len_nil_iff in Hnil. rewrite substring_from_length in Hnil. lia.
      * right. right. rewrite length_app. lia.
Qed.

Lemma splitText_loop_progress maxLength sentences : forall st,
  0 <= maxLength ->
  (fst st = [] /\ len (snd st) <= maxLength)
  \/ (fst st <> [] /\ snd st <> [])
  \/ (2 <= length (fst st))%nat ->
  let st' := fold_left (splitText_step maxLength) sentences st in
  (fst st' = [] /\ len (snd st') <= maxLength)
  \/ (fst st' <> [] /\ snd st' <> [])
  \/ (2 <= length (fst st'))%nat.
Proof.
  induction sentences as [|s sentences IH]; intros st Hmax Hst; [done|].
  cbn [fold_left]. apply IH; [done|]. by apply splitText_step_progress.
Qed.

Lemma splitText_two_segments (text : jsstring) (maxLength : Z) :
  0 <= maxLength -> maxLength < len text ->
  (2 <= length (splitText text maxLength))%nat.
Proof.
  intros Hmax Hlong. unfold splitText.
  replace (len text <=? maxLength) with false by (symmetry; apply Z.leb_gt; lia).
  pose proof (splitText_loop_progress maxLength (split_sentences text)
                ([], []) Hmax) as Hprog.
  pose proof (splitText_loop_concat maxLength (split_sentences text) ([], []))
    as Hcat.
  rewrite split_sentences_concat in Hcat. simpl in Hcat.
  cbv zeta in Hprog.
  destruct (fold_left _ _ _) as [segments cur]. simpl in *.
  destruct Hprog as [[-> Hc] | [[Hs Hc] | Hs]].
  - left. split; [done|]. change (len []) with 0. lia.
  - simpl in Hcat. subst cur. lia.
  - apply truthy_true_iff in Hc. rewrite Hc. rewrite length_app. simpl.
    destruct segments; [done | simpl; lia].
  - destruct (truthy cur); [rewrite length_app|]; lia.
Qed.

Lemma concat_member_shorter (l : list jsstring) (seg : jsstring) :
  (2 <= length l)%nat -> Forall (fun s => s <> []) l -> In seg l ->
  len seg < len (concat l).
Proof.
  intros Hlen Hne Hin.
  assert (Hpos : forall s, s <> [] -> 0 < len s).
  { intros s Hs. pose proof (len_nonneg s).
    destruct (Z.eq_dec (len s) 0) as [E|E]; [by apply len_nil_iff in E | lia]. }
  assert (Hcat : forall k : list jsstring, 0 <= len (concat k)).
  { intros k. apply len_nonneg. }
  apply in_split in Hin as (l1 & l2 & ->).
  rewrite concat_app. simpl. rewrite !len_app.
  apply Forall_app in Hne as [Hne1 Hne2].
  apply List.Forall_cons_iff in Hne2 as [_ Hne2].
  rewrite length_app in Hlen. simpl in Hlen.
  destruct l1 as [|a l1].
  - destruct l2 as [|b l2]; [simpl in Hlen; lia|].
    apply List.Forall_cons_iff in Hne2 as [Hb _]. apply Hpos in Hb.
    simpl. rewrite len_app. pose proof (Hcat l2). change (len []) with 0. lia.
  - apply List.Forall_cons_iff in Hne1 as [Ha _]. apply Hpos in Ha.
    simpl. rewrite len_app. pose proof (Hcat l1). pose proof (Hcat l2). lia.
Qed.

Lemma splitText_shorter_segments (text : jsstring) (maxLength : Z) :
  1 <= maxLength -> maxLength < len text ->
  (2 <= length (splitText text maxLength))%nat
  /\ Forall (fun seg => 0 < len seg < len text) (splitText text maxLength).
Proof.
  intros Hmax Hlong.
  assert (Htext : text <> []).
  { intros ->. change (len []) with 0 in Hlong. lia. }
  pose proof (splitText_two_segments text maxLength ltac:(lia) Hlong) as Htwo.
  pose proof (splitText_segments_nonempty maxLength Hmax text Htext) as Hne.
  split; [done|]. apply List.Forall_forall. intros seg Hin.
  pose proof (concat_member_shorter _ seg Htwo Hne Hin) as Hshort.
  rewrite splitText_concat in Hshort.
  rewrite List.Forall_forall in Hne. specialize (Hne seg Hin).
  pose proof (len_nonneg seg).
  destruct (Z.eq_dec (len seg) 0) as [E|E]; [by apply len_nil_iff in E | lia].
Qed.

(** A text longer than [maxLength] is cut: [splitText] returns at least two
    segments, and each of them is shorter than the text. *)
Theorem splitText_cuts_long_text (text : jsstring) (maxLength : Z) :
  1 <= maxLength -> maxLength < len text ->
  (2 <= length (splitText text maxLength))%nat
  /\ Forall (fun seg => 0 < len seg < len text) (splitText text maxLength).
Proof. apply splitText_shorter_segments. Qed.

Lemma splitText_cuts_long_text_witness :
  (2 <= length (splitText (js "aaaaaaa") 2))%nat
  /\ Forall (fun seg => 0 < len seg < len (js "aaaaaaa"))
       (splitText (js "aaaaaaa") 2).
Proof.
  apply splitText_cuts_long_text; [lia | vm_compute; reflexivity].
Defined.

(** ** The eligibility filter, characterised *)

Lemma chineseRatio_within (text : jsstring) :
  3 <= len text ->
  5 * len (match_chinese text) <= 4 * len text ->
  Qle_bool (chineseRatio text) (8 # 10) = true.
Proof.
  intros Hlen H. unfold chineseRatio.
  destruct (truthy (match_chinese text)); [|reflexivity].
  apply Qle_bool_iff.
  destruct (len text) as [|p|p] eqn:Hl; [lia| |lia].
  unfold Qle, Qdiv, Qmult, Qinv, inject_Z. simpl. lia.
Qed.

Lemma test_digits_spaces_symbols_false (text : jsstring) :
  text <> [] ->
  test_digits_spaces_symbols text = false
  <-> Exists (fun c => is_digit c = false /\ is_space c = false
                       /\ is_word c = true) text.
Proof.
  intros Hne. unfold test_digits_spaces_symbols.
  apply truthy_true_iff in Hne. rewrite Hne. simpl.
  rewrite List.Exists_exists. split.
  - intros H. apply Bool.not_true_iff_false in H.
    rewrite forallb_forall in H.
    induction text as [|c text IH]; [exfalso; apply H; by intros|].
    destruct (is_digit c || is_space c || negb (is_word c)) eqn:Hc.
    + destruct text as [|d text'].
      * exfalso. apply H. intros x [<- | []]. exact Hc.
      * destruct IH as (x & Hx & Hp); [done| |].
        -- intros Hall. apply H. intros x [<- | Hx]; [exact Hc | by apply Hall].
        -- exists x. split; [by right | done].
    + exists c. split; [by left|].
      apply orb_false_iff in Hc as [Hc Hw].
      apply orb_false_iff in Hc as [Hd Hs].
      apply negb_false_iff in Hw. done.
  - intros (c & Hin & Hd & Hs & Hw). apply Bool.not_true_iff_false.
    intros Hall. rewrite forallb_forall in Hall. specialize (Hall c Hin).
    by rewrite Hd, Hs, Hw in Hall.
Qed.

Lemma shouldTranslate_spec (text : jsstring) :
  shouldTranslate text = true
  <-> 3 <= len text
      /\ Exists (fun c => is_digit c = false /\ is_space c = false
                          /\ is_word c = true) text
      /\ 5 * len (List.filter is_chinese text) <= 4 * len text.
Proof.
  unfold shouldTranslate.
  destruct (len text <? 3) eqn:Hlen.
  - apply Z.ltb_lt in Hlen. split; [done | lia].
  - apply Z.ltb_ge in Hlen.
    assert (Hne : text <> []).
    { intros ->. change (len []) with 0 in Hlen. lia. }
    pose proof (test_digits_spaces_symbols_false text Hne) as Htest.
    destruct (test_digits_spaces_symbols text).
    + split; [done|]. intros (_ & Hex & _).
      by apply Htest in Hex.
    + destruct (Z_le_gt_dec (5 * len (List.filter is_chinese text))
                  (4 * len text)) as [Hle | Hgt].
      * rewrite (chineseRatio_within text Hlen Hle). simpl.
        split; [|done]. intros _. split; [done|]. split; [|done].
        by apply Htest.
      * rewrite (chineseRatio_above text) by (unfold match_chinese; lia).
        simpl. split; [done | lia].
Qed.

(** [shouldTranslate] accepts exactly the texts of at least three code units
    that hold a letter of the ASCII alphabet or an underscore, and of which
    at most four fifths are Chinese characters. *)
Theorem shouldTranslate_iff (text : jsstring) :
  shouldTranslate text = true
  <-> 3 <= len text
      /\ Exists (fun c => is_digit c = false /\ is_space c = false
                          /\ is_word c = true) text
      /\ 5 * len (List.filter is_chinese text) <= 4 * len text.
Proof. apply shouldTranslate_spec. Qed.

(** A text without a single ASCII code unit, as a text in Japanese, Korean
    or Russian is, is never eligible. *)
Theorem shouldTranslate_rejects_non_ascii (text : jsstring) :
  Forall (fun c => (0x80 <= c)%N) text -> shouldTranslate text = false.
Proof.
  intros Hall. apply Bool.not_true_iff_false. intros Htrue.
  apply shouldTranslate_spec in Htrue as (_ & Hex & _).
  apply List.Exists_exists in Hex as (c & Hin & _ & _ & Hw).
  rewrite List.Forall_forall in Hall. specialize (Hall c Hin).
  unfold is_word, is_digit, in_range in Hw.
  repeat (apply orb_true_iff in Hw as [Hw | Hw]);
    try (apply andb_true_iff in Hw as [_ Hw]; apply N.leb_le in Hw; lia).
  apply N.eqb_eq in Hw. lia.
Qed.

Lemma shouldTranslate_rejects_non_ascii_witness :
  shouldTranslate (js "こんにちは、世界。") = false
  /\ shouldTranslate (js "Привет, мир") = false.
Proof.
  split.
  - apply shouldTranslate_rejects_non_ascii.
    apply List.Forall_forall. intros c Hc. vm_compute in Hc.
    repeat (destruct Hc as [<-|Hc]; [vm_compute; congruence|]). destruct Hc.
  - vm_compute. reflexivity.
Defined.

(** ** The page overlay, characterised *)

(** More than 50 eligible text nodes: the client refuses the batch before
    any request is made, and the page keeps every node. *)
Theorem translateWebPage_too_many_nodes
    (post : list jsstring -> Client.BatchResult) (textNodes : list jsstring) :
  (50 < length (List.filter wanted (map trim textNodes)))%nat ->
  translateWebPage post textNodes
  = (PageFailed (js "單次最多翻譯50個文本"), map TextNode textNodes).
Proof.
  intros Hmany. unfold translateWebPage, Client.batchTranslate.
  destruct (length (List.filter wanted (map trim textNodes))) as [|n] eqn:Hn;
    [lia|].
  cbn [Nat.eqb]. apply Nat.ltb_lt in Hmany. by rewrite Hmany.
Qed.

Lemma translateWebPage_too_many_nodes_witness :
  translateWebPage
    (fun _ => Client.BatchSuccess [] 0 0) (repeat (js "Hello world") 51)
  = (PageFailed (js "單次最多翻譯50個文本"),
     map TextNode (repeat (js "Hello world") 51)).
Proof.
  apply translateWebPage_too_many_nodes. vm_compute. lia.
Defined.

Lemma apply_loop_count results textNodes : forall page k,
  snd (fold_left (apply_step results) textNodes (page, k))
  = (k + Nat.min
           (length (Positional.successful_prefix (drop k results)))
           (length (List.filter wanted (map trim textNodes))))%nat.
Proof.
  induction textNodes as [|textContent rest IH]; intros page k.
  - simpl. lia.
  - cbn [fold_left map List.filter]. unfold apply_step at 2.
    destruct (wanted (trim textContent)).
    + destruct (results !! k) as [result|] eqn:Hk.
      * pose proof (drop_S results result k Hk) as Hdrop.
        destruct (Client.success result) eqn:Hs.
        -- rewrite IH, Hdrop. cbn [Positional.successful_prefix].
           rewrite Hs. simpl. lia.
        -- rewrite IH, Hdrop. cbn [Positional.successful_prefix].
           rewrite Hs. simpl. lia.
      * rewrite IH. rewrite (drop_ge results k) by (by apply lookup_ge_None).
        simpl. lia.
    + by rewrite IH.
Qed.

(** When the batch succeeds, [translateWebPage] applies, by position, the
    results that come before the first failed one and leaves every other
    node as it is; [translatedNodes] is the number of blocks it built. *)
Theorem translateWebPage_applies_successful_prefix
    (post : list jsstring -> Client.BatchResult) (textNodes : list jsstring)
    (results : list ResultItem) (total time : Z) :
  let eligible := List.filter wanted (map trim textNodes) in
  eligible <> [] ->
  Client.batchTranslate post eligible = Client.BatchSuccess results total time ->
  translateWebPage post textNodes
  = (PageTranslated
       (Z.of_nat (Nat.min (length (Positional.successful_prefix results))
                    (length eligible)))
       (Z.of_nat (length eligible)) time,
     Positional.overlay (Positional.successful_prefix results) textNodes).
Proof.
  intros eligible Hsome Hbatch. unfold translateWebPage. fold eligible.
  destruct eligible as [|t ts] eqn:He; [done|].
  cbn [length Nat.eqb]. rewrite Hbatch.
  pose proof (apply_loop_successful_prefix results textNodes [] 0) as Hpage.
  pose proof (apply_loop_count results textNodes [] 0) as Hcount.
  rewrite drop_0 in Hpage, Hcount. fold eligible in Hcount.
  rewrite He in Hcount.
  destruct (fold_left _ _ _) as [page k]. simpl in Hpage, Hcount.
  by rewrite Hpage, Hcount.
Qed.

Lemma translateWebPage_applies_successful_prefix_witness :
  let results :=
    [ {| Client.success := true; Client.translation := js "你好" |};
      {| Client.success := false; Client.translation := js "Good morning" |};
      {| Client.success := true; Client.translation := js "謝謝" |} ] in
  let textNodes := [js "Hello"; js "42"; js "Good morning"; js "Thanks"] in
  translateWebPage (fun _ => Client.BatchSuccess results 3 7) textNodes
  = (PageTranslated 1 3 7,
     Positional.overlay
       [ {| Client.success := true; Client.translation := js "你好" |} ]
       textNodes).
Proof.
  intros results textNodes.
  apply (translateWebPage_applies_successful_prefix _ textNodes results 3 7).
  - vm_compute. congruence.
  - vm_compute. reflexivity.
Defined.

Lemma apply_loop_shape results textNodes : forall page k,
  exists added,
    fst (fold_left (apply_step results) textNodes (page, k)) = page ++ added
    /\ Forall2
         (fun textContent node =>
            node = TextNode textContent
            \/ (wanted (trim textContent) = true
                /\ exists result,
                     In result results /\ Client.success result = true
                     /\ node = BilingualBlock (trim textContent)
                                 (Client.translation result)))
         textNodes added.
Proof.
  induction textNodes as [|textContent rest IH]; intros page k.
  - exists []. simpl. rewrite app_nil_r. split; [done | constructor].
  - cbn [fold_left].
    destruct (apply_step results (page, k) textContent) as [page1 k1] eqn:Hstep.
    assert (Hone : exists node,
      page1 = page ++ [node]
      /\ (node = TextNode textContent
          \/ (wanted (trim textContent) = true
              /\ exists result,
                   In result results /\ Client.success result = true
                   /\ node = BilingualBlock (trim textContent)
                               (Client.translation result)))).
    { unfold apply_step in Hstep.
      destruct (wanted (trim textContent)) eqn:Hw.
      - destruct (results !! k) as [result|] eqn:Hk.
        + destruct (Client.success result) eqn:Hs.
          * injection Hstep as <- <-. eexists. split; [done|]. right.
            split; [done|]. exists result. split; [|done].
            apply list_elem_of_In. by eapply list_elem_of_lookup_2.
          * injection Hstep as <- <-. eexists. split; [done|]. by left.
        + injection Hstep as <- <-. eexists. split; [done|]. by left.
      - injection Hstep as <- <-. eexists. split; [done|]. by left. }
    destruct Hone as (node & -> & Hnode).
    destruct (IH (page ++ [node]) k1) as (added & Heq & Hall).
    exists (node :: added). split.
    + rewrite Heq. by rewrite <- app_assoc.
    + by constructor.
Qed.

(** Whatever the service answers, the page keeps one position for each text
    node; a position holds the node itself or, only where the filter wants
    the trimmed text of the node, a block made of that trimmed text and of the
    translation of a successful result. *)
Theorem translateWebPage_page_shape
    (post : list jsstring -> Client.BatchResult) (textNodes : list jsstring) :
  Forall2
    (fun textContent node =>
       node = TextNode textContent
       \/ (wanted (trim textContent) = true
           /\ exists translation,
                node = BilingualBlock (trim textContent) translation))
    textNodes (snd (translateWebPage post textNodes)).
Proof.
  assert (Hsame : Forall2
    (fun textContent node =>
       node = TextNode textContent
       \/ (wanted (trim textContent) = true
           /\ exists translation,
                node = BilingualBlock (trim textContent) translation))
    textNodes (map TextNode textNodes)).
  { induction textNodes; simpl; constructor; auto. }
  unfold translateWebPage.
  destruct (length (List.filter wanted (map trim textNodes)) =? 0)%nat;
    [exact Hsame|].
  destruct (Client.batchTranslate post _) as [results total time | error];
    [|exact Hsame].
  destruct (apply_loop_shape results textNodes [] 0) as (added & Heq & Hall).
  destruct (fold_left _ _ _) as [page k]. simpl in *. subst page.
  eapply Forall2_impl; [exact Hall|].
  intros textContent node [-> | (Hw & result & _ & _ & ->)]; [by left|].
  right. split; [done|]. by eexists.
Qed.

(** ** The cache under [Translate] *)

(** A [Translate] request, whatever it is, removes and overwrites nothing in
    the cache, and sends at most one request to the runtime. *)
Theorem translate_keeps_cache_entries (rt : Runtime) (body : TranslateBody)
    (w : World) :
  (forall k v, cache w !! k = Some v ->
     cache (snd (translate rt body w)) !! k = Some v)
  /\ exists new,
       calls (snd (translate rt body w)) = calls w ++ new
       /\ (length new <= 1)%nat.
Proof.
  unfold translate.
  destruct (negb (truthy (text body)) || (len (trim (text body)) =? 0)).
  { split; [done|]. exists []. rewrite app_nil_r. split; [done | simpl; lia]. }
  destruct (10000 <? len (text body)).
  { split; [done|]. exists []. rewrite app_nil_r. split; [done | simpl; lia]. }
  set (key := cacheKey _ _ _ _).
  destruct (cache w !! key) as [cached|] eqn:Hkey.
  { split; [done|]. exists []. rewrite app_nil_r. split; [done | simpl; lia]. }
  unfold translateWithOllama.
  destruct (rt (calls w) _) as [response stats | message]; simpl.
  - split; [|eexists; split; [done | simpl; lia]].
    intros k v Hk. rewrite lookup_insert_ne; [done|]. congruence.
  - split; [done | eexists; split; [done | simpl; lia]].
Qed.

(** After [DELETE /api/cache] nothing is served from the cache: a request
    that passes validation goes to the runtime, once. *)
Theorem translate_after_clear_cache (rt : Runtime) (body : TranslateBody)
    (w : World) :
  trim (text body) <> [] -> len (text body) <= 10000 ->
  let source := default default_source_lang (source_lang body) in
  let target := default default_target_lang (target_lang body) in
  let model := default default_model (body_model body) in
  let w' := snd (translate rt body (Routes.clear_cache w)) in
  Routes.cache_keys (Routes.clear_cache w) = 0
  /\ calls w' = calls w ++ [generate_request (text body) source target model]
  /\ (forall result, fst (translate rt body (Routes.clear_cache w))
                     <> TranslateResponse result true).
Proof.
  intros Hblank Hlen source target model w'.
  destruct (translate_valid rt body (Routes.clear_cache w) Hblank Hlen)
    as (_ & Hok & Hfail).
  fold source target model in Hok, Hfail.
  split; [reflexivity|]. subst w'.
  destruct (rt (calls (Routes.clear_cache w))
              (generate_request (text body) source target model))
    as [response stats | message] eqn:Hrt.
  - rewrite (Hok (lookup_empty _) _ _ eq_refl). by split.
  - rewrite (Hfail (lookup_empty _) _ eq_refl). by split.
Qed.

Lemma translate_after_clear_cache_witness :
  let stats0 := {| total_duration := 0; load_duration := 0;
                   prompt_eval_count := 0; eval_count := 0 |} in
  let rt : Runtime := fun _ _ => Completion (js "你好") stats0 in
  let body := {| text := js "Hello"; source_lang := None; target_lang := None;
                 body_model := None |} in
  let w := snd (translate rt body {| cache := ∅; calls := [] |}) in
  length (calls (snd (translate rt body (Routes.clear_cache w)))) = 2%nat.
Proof.
  intros stats0 rt body w.
  destruct (translate_after_clear_cache rt body w) as (_ & Hcalls & _).
  - vm_compute. congruence.
  - vm_compute. congruence.
  - rewrite Hcalls. rewrite length_app. reflexivity.
Defined.

(** ** The prompt *)

(** Of the twelve languages that [/api/languages] lists, only [zh-tw],
    [zh-cn] and [en] have a prompt of their own: for each of the other nine
    the request that goes to the runtime is the one for [zh-tw]. *)
Theorem advertised_language_without_prompt (text source target model : jsstring) :
  In target Routes.supported_languages ->
  target <> js "zh-cn" -> target <> js "en" ->
  generate_request text source target model
  = generate_request text source (js "zh-tw") model.
Proof.
  intros _ Hcn Hen. unfold generate_request, getTranslationPrompt. f_equal.
  repeat case_decide; congruence.
Qed.

Lemma advertised_language_without_prompt_witness :
  generate_request (js "Hello") (js "auto") (js "ja") (js "qwen2:7b-instruct")
  = generate_request (js "Hello") (js "auto") (js "zh-tw")
      (js "qwen2:7b-instruct")
  /\ length (List.filter
               (fun target =>
                  bool_decide
                    (getTranslationPrompt [] [] target
                     = getTranslationPrompt [] [] (js "zh-tw")))
               Routes.supported_languages) = 10%nat.
Proof.
  split.
  - apply advertised_language_without_prompt.
    + vm_compute. tauto.
    + vm_compute. congruence.
    + vm_compute. congruence.
  - vm_compute. reflexivity.
Defined.

(** ** The cache key, further *)

(** The key joins its parts with underscores and the parts may hold
    underscores themselves: moving a piece between the source and the target
    language across the separator does not change the key. *)
Theorem cacheKey_separator_ambiguity (model source piece target text : jsstring) :
  cacheKey model (source ++ js "_" ++ piece) target text
  = cacheKey model source (piece ++ js "_" ++ target) text.
Proof. unfold cacheKey. by rewrite <- !app_assoc. Qed.

(** Two texts that share their first 39 code units, all ASCII, have the same
    key for every model and pair of languages, whatever follows. *)
Theorem cacheKey_long_prefix_collision
    (model source target prefix rest1 rest2 : jsstring) :
  length prefix = 39%nat -> Forall (fun c => (c < 0x80)%N) prefix ->
  cacheKey model source target (prefix ++ rest1)
  = cacheKey model source target (prefix ++ rest2).
Proof. apply cacheKey_shared_prefix. Qed.

Lemma cacheKey_long_prefix_collision_witness :
  cacheKey (js "m") (js "auto") (js "en")
    (js "The quick brown fox jumps over the lazy" ++ js " dog")
  = cacheKey (js "m") (js "auto") (js "en")
      (js "The quick brown fox jumps over the lazy" ++ js " cat, twice").
Proof.
  apply cacheKey_long_prefix_collision; [reflexivity|].
  apply List.Forall_forall. intros c Hc. vm_compute in Hc.
  repeat (destruct Hc as [<-|Hc]; [reflexivity|]). destruct Hc.
Defined.

(** ** What cleaning returns *)

Lemma strip_label_suffix (label s : jsstring) :
  exists a, s = a ++ strip_label label s.
Proof.
  unfold strip_label.
  destruct (strip_prefix label s) as [[|c rest]|] eqn:E; try by exists [].
  destruct (is_colon c); [|by exists []].
  apply strip_prefix_Some in E. destruct (trimStart_suffix rest) as [a Ha].
  exists (label ++ c :: a). rewrite E at 1. rewrite Ha at 1.
  by rewrite <- app_assoc.
Qed.

Lemma clean_part (raw : jsstring) : exists a b, raw = a ++ clean raw ++ b.
Proof.
  unfold clean.
  destruct (strip_label_suffix (js "翻譯結果") raw) as [a1 H1].
  destruct (strip_label_suffix (js "譯文") (strip_label (js "翻譯結果") raw))
    as [a2 H2].
  destruct (strip_label_suffix (js "翻譯")
              (strip_label (js "譯文") (strip_label (js "翻譯結果") raw)))
    as [a3 H3].
  set (s3 := strip_label (js "翻譯") _) in *.
  destruct (trim_part s3) as (a & b & Hs3).
  exists (a1 ++ a2 ++ a3 ++ a), b.
  rewrite H1 at 1. rewrite H2 at 1. rewrite H3 at 1. rewrite Hs3 at 1.
  by rewrite <- !app_assoc.
Qed.

(** The translation that [translateWithOllama] returns is cut out of the
    answer of the runtime in one piece, nothing added and nothing changed
    inside, and it has no white space at either end. *)
Theorem translateWithOllama_returns_trimmed_part (rt : Runtime)
    (text source target model : jsstring) (w w' : World)
    (result : TranslationResult) :
  translateWithOllama rt text source target model w = (inr result, w') ->
  exists response stats before after,
    rt (calls w) (generate_request text source target model)
      = Completion response stats
    /\ response = before ++ translation result ++ after
    /\ (forall c r, translation result = c :: r -> is_space c = false)
    /\ (forall init c, translation result = init ++ [c] -> is_space c = false).
Proof.
  unfold translateWithOllama.
  destruct (rt (calls w) _) as [response stats | message]; [|done].
  intros [= <- <-]. simpl.
  destruct (clean_part response) as (before & after & Hpart).
  exists response, stats, before, after. split; [done|]. split; [done|].
  split.
  - intros c r. unfold clean. apply trim_head.
  - intros init c. unfold clean, trim. apply trimEnd_last.
Qed.

Lemma translateWithOllama_returns_trimmed_part_witness :
  let stats0 := {| total_duration := 0; load_duration := 0;
                   prompt_eval_count := 0; eval_count := 0 |} in
  let rt : Runtime := fun _ _ => Completion (js "翻譯結果：  你好 世界  ") stats0 in
  exists before after,
    js "翻譯結果：  你好 世界  " = before ++ js "你好 世界" ++ after.
Proof.
  intros stats0 rt.
  destruct (translateWithOllama_returns_trimmed_part rt (js "Hello world")
              (js "auto") (js "zh-tw") (js "m") {| cache := ∅; calls := [] |}
              {| cache := ∅;
                 calls := [generate_request (js "Hello world") (js "auto")
                             (js "zh-tw") (js "m")] |}
              {| translation := js "你好 世界"; model := js "m";
                 stats := stats0 |})
    as (response & stats & before & after & Hrt & Hpart & _).
  - vm_compute. reflexivity.
  - injection Hrt as <- _. by exists before, after.
Defined.

(** ** The cache under [BatchTranslate] *)

Section BatchCache.

Variable rt : Runtime.
Variable completion :
  list (jsstring * TranslationResult) -> list (jsstring * TranslationResult).
Variables (source target model : jsstring).

Local Abbreviation key := (cacheKey model source target).
Local Abbreviation request :=
  (fun t => generate_request t source target model).

Lemma map_batch_frame batch : forall i index w entries writes w',
  map_batch rt source target model i index batch w = (entries, writes, w') ->
  cache w' = cache w
  /\ (exists new, calls w' = calls w ++ new
                  /\ (length new <= length batch)%nat)
  /\ Forall (fun kv => cache w !! fst kv = None) writes
  /\ Forall2
       (fun t e =>
          entry_success e = true ->
          is_Some (cache w !! key t) \/ exists r, In (key t, r) writes)
       batch entries.
Proof.
  induction batch as [|text batch IH]; intros i index w entries writes w';
    simpl.
  - intros [= <- <- <-]. split; [done|].
    split; [exists []; by rewrite app_nil_r|]. split; constructor.
  - unfold batch_item.
    destruct (cache w !! key text) as [cached|] eqn:Hkey.
    + destruct (map_batch rt source target model i (S index) batch w)
        as [[entries' writes'] w2] eqn:Hrest.
      intros [= <- <- <-].
      apply IH in Hrest as (Hc & (new & Hcalls & Hlen) & Hw & Hall).
      split; [done|]. split; [exists new; split; [done | lia]|].
      split; [done|]. constructor; [|done].
      intros _. left. by rewrite Hkey.
    + unfold translateWithOllama.
      destruct (rt (calls w) (request text)) as [response st | message].
      * destruct (map_batch rt source target model i (S index) batch _)
          as [[entries' writes'] w2] eqn:Hrest.
        intros [= <- <- <-].
        apply IH in Hrest as (Hc & (new & Hcalls & Hlen) & Hw & Hall).
        simpl in Hc, Hcalls, Hw, Hall.
        split; [done|].
        split; [exists (request text :: new); split;
                  [by rewrite Hcalls, <- app_assoc | simpl; lia]|].
        split; [by constructor|].
        constructor.
        -- intros _. right. eexists. by left.
        -- eapply Forall2_impl; [exact Hall|].
           intros t e H Hs. destruct (H Hs) as [? | [r Hr]]; [by left|].
           right. exists r. by right.
      * destruct (map_batch rt source target model i (S index) batch _)
          as [[entries' writes'] w2] eqn:Hrest.
        intros [= <- <- <-].
        apply IH in Hrest as (Hc & (new & Hcalls & Hlen) & Hw & Hall).
        simpl in Hc, Hcalls, Hw, Hall.
        split; [done|].
        split; [exists (request text :: new); split;
                  [by rewrite Hcalls, <- app_assoc | simpl; lia]|].
        split; [done|]. constructor; [done | done].
Qed.

Lemma map_batch_all_cached batch : forall i index w,
  (forall t, In t batch -> is_Some (cache w !! key t)) ->
  exists entries,
    map_batch rt source target model i index batch w = (entries, [], w)
    /\ Forall2
         (fun t e =>
            exists cached,
              cache w !! key t = Some cached
              /\ e = EntryResult (entry_index e) cached)
         batch entries.
Proof.
  induction batch as [|text batch IH]; intros i index w Hall; simpl.
  - exists []. split; [done | constructor].
  - unfold batch_item. destruct (Hall text (or_introl eq_refl)) as [cached Hc].
    rewrite Hc.
    destruct (IH i (S index) w) as (entries & -> & Hentries).
    { intros t Ht. apply Hall. by right. }
    eexists. split; [done|]. constructor; [|done]. by exists cached.
Qed.

Lemma map_batch_all_missing batch : forall i index w entries writes w',
  (forall t, In t batch -> cache w !! key t = None) ->
  map_batch rt source target model i index batch w = (entries, writes, w') ->
  calls w' = calls w ++ map request batch.
Proof.
  induction batch as [|text batch IH]; intros i index w entries writes w' Hall;
    simpl.
  - intros [= <- <- <-]. by rewrite app_nil_r.
  - unfold batch_item. rewrite (Hall text (or_introl eq_refl)).
    unfold translateWithOllama.
    destruct (rt (calls w) (request text)) as [response st | message];
      destruct (map_batch rt source target model i (S index) batch _)
        as [[entries' writes'] w2] eqn:Hrest;
      intros [= <- <- <-];
      apply IH in Hrest; try (intros t Ht; apply Hall; by right);
      simpl in Hrest; by rewrite Hrest, <- app_assoc.
Qed.

Hypothesis completion_perm : forall l, Permutation (completion l) l.

Lemma settle_batch_frame i batch w entries w' :
  settle_batch rt completion source target model i batch w = (entries, w') ->
  (forall k v, cache w !! k = Some v -> cache w' !! k = Some v)
  /\ (exists new, calls w' = calls w ++ new
                  /\ (length new <= length batch)%nat)
  /\ Forall2
       (fun t e => entry_success e = true -> is_Some (cache w' !! key t))
       batch entries.
Proof.
  unfold settle_batch.
  destruct (map_batch rt source target model i 0 batch w)
    as [[entries' writes] w1] eqn:Hmap.
  intros [= <- <-].
  apply map_batch_frame in Hmap as (Hc & Hcalls & Hw & Hall).
  split; [|split].
  - intros k v Hk. apply cache_writes_keep; [by rewrite Hc|].
    rewrite completion_perm. eapply List.Forall_impl; [|exact Hw].
    intros kv Hkv. simpl in Hkv. congruence.
  - by rewrite cache_writes_calls.
  - eapply Forall2_impl; [exact Hall|].
    intros t e H Hs. apply cache_writes_present.
    destruct (H Hs) as [Hin | [r Hr]]; [left; by rewrite Hc|].
    right. exists r. eapply Permutation_in; [|exact Hr].
    symmetry. apply completion_perm.
Qed.

Lemma batch_loop_frame texts fuel : forall i results w results' w',
  (length texts <= i + fuel)%nat ->
  Forall2 (fun t e => entry_success e = true -> is_Some (cache w !! key t))
    (take i texts) results ->
  batch_loop rt completion source target model fuel texts i results w
    = (results', w') ->
  (forall k v, cache w !! k = Some v -> cache w' !! k = Some v)
  /\ (exists new, calls w' = calls w ++ new
                  /\ (length new + Nat.min i (length texts)
                      <= length texts)%nat)
  /\ Forall2 (fun t e => entry_success e = true -> is_Some (cache w' !! key t))
       texts results'.
Proof.
  induction fuel as [|fuel IH]; intros i results w results' w' Hfuel Hall; simpl.
  - intros [= <- <-]. rewrite take_ge in Hall by lia.
    split; [done|]. split; [|done]. exists []. rewrite app_nil_r.
    split; [done | simpl; lia].
  - destruct (i <? length texts)%nat eqn:Hi.
    + apply Nat.ltb_lt in Hi.
      destruct (settle_batch rt completion source target model i
                  (take batchSize (drop i texts)) w)
        as [batchResults w1] eqn:Hsettle.
      apply settle_batch_frame in Hsettle as (Hkeep & (new1 & Hc1 & Hl1) & Hall1).
      intros Hloop. apply IH in Hloop as (Hkeep2 & (new2 & Hc2 & Hl2) & Hall2).
      * split; [intros k v Hk; by apply Hkeep2, Hkeep|].
        split; [|done].
        exists (new1 ++ new2). split; [by rewrite Hc2, Hc1, <- app_assoc|].
        rewrite length_app. rewrite length_take, length_drop in Hl1.
        unfold batchSize in *. lia.
      * unfold batchSize. lia.
      * rewrite <- take_take_drop. apply Forall2_app; [|done].
        eapply Forall2_impl; [exact Hall|].
        intros t e H Hs. destruct (H Hs) as [v Hv]. exists v. by apply Hkeep.
    + apply Nat.ltb_ge in Hi. intros [= <- <-].
      rewrite take_ge in Hall by lia.
      split; [done|]. split; [|done]. exists []. rewrite app_nil_r.
      split; [done | simpl; lia].
Qed.

Lemma batch_loop_all_cached texts fuel : forall i results w,
  (forall t, In t texts -> is_Some (cache w !! key t)) ->
  (length texts <= i + fuel)%nat ->
  Forall2
    (fun t e =>
       exists cached,
         cache w !! key t = Some cached
         /\ e = EntryResult (entry_index e) cached)
    (take i texts) results ->
  exists results',
    batch_loop rt completion source target model fuel texts i results w
    = (results', w)
    /\ Forall2
         (fun t e =>
            exists cached,
              cache w !! key t = Some cached
              /\ e = EntryResult (entry_index e) cached)
         texts results'.
Proof.
  induction fuel as [|fuel IH]; intros i results w Hcached Hfuel Hall; simpl.
  - rewrite take_ge in Hall by lia. by exists results.
  - destruct (i <? length texts)%nat eqn:Hi.
    + apply Nat.ltb_lt in Hi. unfold settle_batch.
      destruct (map_batch_all_cached (take batchSize (drop i texts)) i 0 w)
        as (entries & -> & Hentries).
      { intros t Ht. apply Hcached. apply list_elem_of_In.
        apply list_elem_of_In in Ht.
        by apply (subseteq_drop i), (subseteq_take batchSize). }
      assert (Hnil : completion [] = []).
      { apply Permutation_nil. symmetry. apply completion_perm. }
      rewrite Hnil. simpl. apply IH; [done | unfold batchSize; lia|].
      rewrite <- take_take_drop. by apply Forall2_app.
    + apply Nat.ltb_ge in Hi. rewrite take_ge in Hall by lia.
      by exists results.
Qed.

End BatchCache.

Lemma batchTranslate_sorted (rt : Runtime)
    (completion : list (jsstring * TranslationResult)
                  -> list (jsstring * TranslationResult))
    (source target model : jsstring) (texts : list jsstring) (w : World) :
  (forall l, Permutation (completion l) l) ->
  batchTranslate rt completion source target model texts w
  = batch_loop rt completion source target model (length texts) texts 0 [] w.
Proof.
  intros Hperm. unfold batchTranslate.
  destruct (batch_loop rt completion source target model (length texts) texts
              0 [] w) as [results w'] eqn:Hloop.
  apply (batch_loop_good rt completion Hperm source target model texts
           (cache w)) in Hloop as [_ Hseq];
    [|lia|constructor|done|by intros k Hk _].
  by rewrite (sort_by_index_seq _ _ Hseq).
Qed.

(** [BatchTranslate] removes and overwrites nothing that was in the cache
    when the request came in, and sends at most one request to the runtime
    for each text. *)
Theorem translate_batch_keeps_cache_entries (rt : Runtime)
    (completion : list (jsstring * TranslationResult)
                  -> list (jsstring * TranslationResult))
    (body : BatchBody) (w : World) :
  (forall l, Permutation (completion l) l) ->
  (forall k v, cache w !! k = Some v ->
     cache (snd (translate_batch rt completion body w)) !! k = Some v)
  /\ exists new,
       calls (snd (translate_batch rt completion body w)) = calls w ++ new
       /\ (length new <= length (texts body))%nat.
Proof.
  intros Hperm. unfold translate_batch.
  destruct (length (texts body) =? 0)%nat.
  { split; [done|]. exists []. rewrite app_nil_r. split; [done | simpl; lia]. }
  destruct (50 <? length (texts body))%nat.
  { split; [done|]. exists []. rewrite app_nil_r. split; [done | simpl; lia]. }
  rewrite batchTranslate_sorted by done.
  destruct (batch_loop _ _ _ _ _ _ _ _ _ _) as [results w'] eqn:Hloop.
  apply (batch_loop_frame rt completion _ _ _ Hperm) in Hloop
    as (Hkeep & (new & Hcalls & Hlen) & _); [|lia|constructor].
  simpl. split; [done|]. exists new. split; [done | lia].
Qed.

Lemma translate_batch_keeps_cache_entries_witness :
  let stats0 := {| total_duration := 0; load_duration := 0;
                   prompt_eval_count := 0; eval_count := 0 |} in
  let rt : Runtime := fun _ _ => Completion (js "甲") stats0 in
  let old := {| translation := js "乙"; model := js "m"; stats := stats0 |} in
  let w := {| cache := {[ js "k" := old ]}; calls := [] |} in
  let body := {| texts := [js "a"; js "b"; js "a"]; batch_source_lang := None;
                 batch_target_lang := None; batch_model := None |} in
  cache (snd (translate_batch rt (@rev _) body w)) !! js "k" = Some old.
Proof.
  intros stats0 rt old w body.
  destruct (translate_batch_keeps_cache_entries rt (@rev _) body w) as [H _].
  - intros l. symmetry. apply Permutation_rev.
  - apply H. apply lookup_singleton_eq.
Defined.

(** A text whose entry in the answer of [BatchTranslate] is a success is in
    the cache afterwards: a [Translate] request for it, with the same model
    and languages, is answered from the cache, whatever the runtime would
    do. *)
Theorem translate_after_batch_is_cached (rt rt' : Runtime)
    (completion : list (jsstring * TranslationResult)
                  -> list (jsstring * TranslationResult))
    (body : BatchBody) (w w' : World) (results : list BatchEntry) (n : Z)
    (i : nat) (t : jsstring) (e : BatchEntry) :
  (forall l, Permutation (completion l) l) ->
  translate_batch rt completion body w = (BatchResponse results n, w') ->
  texts body !! i = Some t -> results !! i = Some e ->
  entry_success e = true ->
  trim t <> [] -> len t <= 10000 ->
  exists cached,
    translate rt'
      {| text := t; source_lang := batch_source_lang body;
         target_lang := batch_target_lang body;
         body_model := batch_model body |} w'
    = (TranslateResponse cached true, w').
Proof.
  intros Hperm Hbatch Ht He Hs Hblank Hlen.
  unfold translate_batch in Hbatch.
  destruct (length (texts body) =? 0)%nat; [done|].
  destruct (50 <? length (texts body))%nat; [done|].
  rewrite batchTranslate_sorted in Hbatch by done.
  destruct (batch_loop _ _ _ _ _ _ _ _ _ _) as [results0 w0] eqn:Hloop.
  injection Hbatch as Hr _ Hw. subst results0 w0.
  apply (batch_loop_frame rt completion _ _ _ Hperm) in Hloop
    as (_ & _ & Hall); [|lia|constructor].
  destruct (Forall2_lookup_l _ _ _ _ _ Hall Ht) as (e' & He' & Hpresent).
  rewrite He in He'. injection He' as <-.
  destruct (Hpresent Hs) as [cached Hcached].
  exists cached.
  by apply (translate_valid rt'
              {| text := t; source_lang := batch_source_lang body;
                 target_lang := batch_target_lang body;
                 body_model := batch_model body |} w' Hblank Hlen).
Qed.

Lemma translate_after_batch_is_cached_witness :
  let stats0 := {| total_duration := 0; load_duration := 0;
                   prompt_eval_count := 0; eval_count := 0 |} in
  let rt : Runtime := fun _ _ => Completion (js "甲") stats0 in
  let rt' : Runtime := fun _ _ => Failure (js "down") in
  let body := {| texts := [js "one"; js "two"]; batch_source_lang := None;
                 batch_target_lang := None; batch_model := None |} in
  let w' := snd (translate_batch rt (@rev _) body {| cache := ∅; calls := [] |}) in
  exists cached,
    translate rt'
      {| text := js "two"; source_lang := None; target_lang := None;
         body_model := None |} w'
    = (TranslateResponse cached true, w').
Proof.
  intros stats0 rt rt' body w'.
  eapply (translate_after_batch_is_cached rt rt' (@rev _) body
            {| cache := ∅; calls := [] |} w' _ _ 1%nat (js "two")).
  - intros l. symmetry. apply Permutation_rev.
  - vm_compute. reflexivity.
  - reflexivity.
  - reflexivity.
  - reflexivity.
  - vm_compute. congruence.
  - vm_compute. congruence.
Defined.

(** When every text of the array is in the cache, [BatchTranslate] answers
    from the cache alone: each entry is the cached result of its text, no
    request goes to the runtime and the cache is as it was. *)
Theorem translate_batch_all_cached (rt : Runtime)
    (completion : list (jsstring * TranslationResult)
                  -> list (jsstring * TranslationResult))
    (body : BatchBody) (w : World) :
  let source := default default_source_lang (batch_source_lang body) in
  let target := default default_target_lang (batch_target_lang body) in
  let model := default default_model (batch_model body) in
  (forall l, Permutation (completion l) l) ->
  (1 <= length (texts body) <= 50)%nat ->
  (forall t, In t (texts body) ->
     is_Some (cache w !! cacheKey model source target t)) ->
  exists results,
    translate_batch rt completion body w
    = (BatchResponse results (Z.of_nat (length (texts body))), w)
    /\ Forall2
         (fun t e =>
            exists cached,
              cache w !! cacheKey model source target t = Some cached
              /\ e = EntryResult (entry_index e) cached)
         (texts body) results.
Proof.
  intros source target model Hperm [Hmin Hmax] Hcached.
  unfold translate_batch. fold source target model.
  replace (length (texts body) =? 0)%nat with false
    by (symmetry; apply Nat.eqb_neq; lia).
  replace (50 <? length (texts body))%nat with false
    by (symmetry; apply Nat.ltb_ge; lia).
  rewrite batchTranslate_sorted by done.
  destruct (batch_loop_all_cached rt completion source target model Hperm
              (texts body) (length (texts body)) 0 [] w Hcached)
    as (results & -> & Hall); [lia | constructor|].
  by exists results.
Qed.

Lemma translate_batch_all_cached_witness :
  let stats0 := {| total_duration := 0; load_duration := 0;
                   prompt_eval_count := 0; eval_count := 0 |} in
  let rt : Runtime := fun _ _ => Completion (js "甲") stats0 in
  let body := {| texts := [js "one"; js "two"]; batch_source_lang := None;
                 batch_target_lang := None; batch_model := None |} in
  let w := snd (translate_batch rt (@rev _) body {| cache := ∅; calls := [] |}) in
  exists results,
    translate_batch (fun _ _ => Failure (js "down")) (@rev _) body w
    = (BatchResponse results 2, w).
Proof.
  intros stats0 rt body w.
  destruct (translate_batch_all_cached (fun _ _ => Failure (js "down"))
              (@rev _) body w) as (results & Heq & _).
  - intros l. symmetry. apply Permutation_rev.
  - simpl. lia.
  - intros t Ht. simpl in Ht. destruct Ht as [<- | [<- | []]];
      vm_compute; by eexists.
  - by exists results.
Defined.

(** There is no sharing of requests inside a group: for an array of at most
    five texts none of which is in the cache, one request goes to the runtime
    for each text, in the order of the array, also when texts repeat. *)
Theorem translate_batch_one_request_per_uncached_text (rt : Runtime)
    (completion : list (jsstring * TranslationResult)
                  -> list (jsstring * TranslationResult))
    (body : BatchBody) (w : World) :
  let source := default default_source_lang (batch_source_lang body) in
  let target := default default_target_lang (batch_target_lang body) in
  let model := default default_model (batch_model body) in
  (1 <= length (texts body) <= 5)%nat ->
  (forall t, In t (texts body) ->
     cache w !! cacheKey model source target t = None) ->
  calls (snd (translate_batch rt completion body w))
  = calls w
    ++ map (fun t => generate_request t source target model) (texts body).
Proof.
  intros source target model [Hmin Hmax] Hmiss.
  unfold translate_batch. fold source target model.
  replace (length (texts body) =? 0)%nat with false
    by (symmetry; apply Nat.eqb_neq; lia).
  replace (50 <? length (texts body))%nat with false
    by (symmetry; apply Nat.ltb_ge; lia).
  unfold batchTranslate.
  destruct (length (texts body)) as [|fuel] eqn:Hlen; [lia|].
  cbn [batch_loop]. rewrite Hlen.
  replace (0 <? S fuel)%nat with true by (symmetry; apply Nat.ltb_lt; lia).
  rewrite drop_0, take_ge by (unfold batchSize; lia).
  unfold settle_batch.
  destruct (map_batch rt source target model 0 0 (texts body) w)
    as [[entries writes] w1] eqn:Hmap.
  apply map_batch_all_missing in Hmap; [|done].
  assert (Hstop : forall results w2,
    batch_loop rt completion source target model fuel (texts body)
      (0 + batchSize) results w2 = (results, w2)).
  { intros results w2. destruct fuel; [done|]. cbn [batch_loop].
    rewrite Hlen.
    by replace (0 + batchSize <? S (S fuel))%nat with false
      by (symmetry; apply Nat.ltb_ge; unfold batchSize; lia). }
  rewrite Hstop. simpl. by rewrite cache_writes_calls.
Qed.

Lemma translate_batch_one_request_per_uncached_text_witness :
  let stats0 := {| total_duration := 0; load_duration := 0;
                   prompt_eval_count := 0; eval_count := 0 |} in
  let rt : Runtime := fun _ _ => Completion (js "甲") stats0 in
  let body := {| texts := [js "same"; js "same"; js "same"];
                 batch_source_lang := None; batch_target_lang := None;
                 batch_model := None |} in
  length (calls (snd (translate_batch rt id body {| cache := ∅; calls := [] |})))
  = 3%nat.
Proof.
  intros stats0 rt body.
  rewrite (translate_batch_one_request_per_uncached_text rt id body
             {| cache := ∅; calls := [] |}).
  - reflexivity.
  - simpl. lia.
  - intros t _. apply lookup_empty.
Defined.

(** ** The request client: retries, long texts *)

Import Requests Traces.

Lemma failed_prefix (message : jsstring) :
  js "翻譯失敗 (" ++ number_to_string retryCount ++ js "次重試): " ++ message
  = js "翻譯失敗 (3次重試): " ++ message.
Proof.
  rewrite !app_assoc. f_equal; vm_compute; reflexivity.
Qed.

Lemma blank_guard_true (t : jsstring) :
  negb (truthy t) || (len (trim t) =? 0) = true <-> trim t = [].
Proof.
  pose proof (blank_guard t) as H.
  destruct (negb (truthy t) || (len (trim t) =? 0)).
  - split; [|done]. intros _. destruct (decide (trim t = [])) as [|Hne]; [done|].
    by apply H in Hne.
  - split; [done|]. intros Hnil. exfalso. by apply H.
Qed.

Section RequestProperties.

Variable S : Type.
Variable fetch : TranslateRequest -> S -> FetchResult * S.

Lemma attempts_spec left : forall attempt text sourceLang targetLang st,
  (1 <= left)%nat -> attempt + Z.of_nat left = retryCount + 1 ->
  let request := {| request_text := text; request_source_lang := sourceLang;
                    request_target_lang := targetLang;
                    request_model := model |} in
  exists r posts s',
    attempts S fetch left attempt text sourceLang targetLang st
    = (Returns r, (s', snd st ++ retry_trace request attempt posts))
    /\ (1 <= posts <= left)%nat
    /\ (result_success r = true ->
        exists t fc stats, r = Translated t sourceLang targetLang fc stats)
    /\ (result_success r = false ->
        posts = left
        /\ exists m, r = Failed (js "翻譯失敗 (3次重試): " ++ m) (Some text))
    /\ (thrown_message (fst (fetch request (fst st))) = None -> posts = 1%nat)
    /\ ((forall rq s, thrown_message (fst (fetch rq s)) <> None) ->
        result_success r = false).
Proof.
  induction left as [|left IH]; intros attempt text sourceLang targetLang st
    Hleft Hsum request; [lia|].
  cbn [attempts]. fold request.
  destruct (fetch request (fst st)) as [reply s] eqn:Hfetch. cbn [fst snd].
  destruct (thrown_message reply) as [message|] eqn:Hmsg.
  - destruct (attempt =? retryCount) eqn:Hlast.
    + apply Z.eqb_eq in Hlast. assert (left = 0%nat) by lia. subst left.
      rewrite failed_prefix.
      exists (Failed (js "翻譯失敗 (3次重試): " ++ message) (Some text)),
        1%nat, s.
      split; [done|]. split; [lia|]. split; [done|].
      split; [intros _; split; [done | by eexists]|].
      split; [done | done].
    + apply Z.eqb_neq in Hlast.
      destruct (IH (attempt + 1) text sourceLang targetLang
                  (s, (snd st ++ [Posted request])
                      ++ [Waited (1000 * attempt)]))
        as (r & posts & s' & Heq & Hposts & Hok & Hfail & _ & Hdown);
        [lia | lia |].
      fold request in Heq. cbn [fst snd] in Heq. rewrite Heq.
      exists r, (Datatypes.S posts), s'.
      split.
      { f_equal. f_equal. rewrite <- !app_assoc. simpl.
        destruct posts as [|posts']; [lia | done]. }
      split; [lia|]. split; [done|].
      split; [intros Hr; destruct (Hfail Hr) as [-> Hm]; by split|].
      split; [done | done].
  - destruct reply as [m | status error | success translation error fc stats];
      try discriminate Hmsg.
    destruct success; [|discriminate Hmsg].
    exists (Translated translation sourceLang targetLang fc stats), 1%nat, s.
    split; [done|]. split; [lia|].
    split; [intros _; eexists _, _, _; reflexivity|].
    split; [done|]. split; [done|].
    intros Hdown. exfalso. apply (Hdown request (fst st)).
    by rewrite Hfetch.
Qed.

Lemma attempts_exact left : forall attempt text sourceLang targetLang st,
  (1 <= left)%nat -> attempt + Z.of_nat left = retryCount + 1 ->
  let request := {| request_text := text; request_source_lang := sourceLang;
                    request_target_lang := targetLang;
                    request_model := model |} in
  exists r posts,
    attempts S fetch left attempt text sourceLang targetLang st
    = (Returns r, (state_after S fetch request posts (fst st),
                   snd st ++ retry_trace request attempt posts))
    /\ (1 <= posts <= left)%nat
    /\ (forall k, (k + 1 < posts)%nat ->
          thrown_message (reply_at S fetch request k (fst st)) <> None)
    /\ match thrown_message (reply_at S fetch request (posts - 1) (fst st)) with
       | None =>
         exists t e fc stats,
           reply_at S fetch request (posts - 1) (fst st) = Body true t e fc stats
           /\ r = Translated t sourceLang targetLang fc stats
       | Some m =>
         posts = left
         /\ r = Failed (js "翻譯失敗 (3次重試): " ++ m) (Some text)
       end.
Proof.
  induction left as [|left IH]; intros attempt text sourceLang targetLang st
    Hleft Hsum request; [lia|].
  cbn [attempts]. fold request.
  destruct (fetch request (fst st)) as [reply s] eqn:Hfetch. cbn [fst snd].
  assert (Hfirst : reply_at S fetch request 0 (fst st) = reply).
  { unfold reply_at. simpl. by rewrite Hfetch. }
  assert (Hnext : forall n,
    reply_at S fetch request (Datatypes.S n) (fst st)
    = reply_at S fetch request n s).
  { intros n. unfold reply_at. simpl. by rewrite Hfetch. }
  destruct (thrown_message reply) as [message|] eqn:Hmsg.
  - destruct (attempt =? retryCount) eqn:Hlast.
    + apply Z.eqb_eq in Hlast. assert (left = 0%nat) by lia. subst left.
      rewrite failed_prefix.
      exists (Failed (js "翻譯失敗 (3次重試): " ++ message) (Some text)), 1%nat.
      split; [simpl; by rewrite Hfetch|]. split; [lia|].
      split; [intros k Hk; lia|].
      simpl. by rewrite Hfirst, Hmsg.
    + apply Z.eqb_neq in Hlast.
      destruct (IH (attempt + 1) text sourceLang targetLang
                  (s, (snd st ++ [Posted request])
                      ++ [Waited (1000 * attempt)]))
        as (r & posts & Heq & Hposts & Hbefore & Hend); [lia | lia |].
      fold request in Heq, Hbefore, Hend. cbn [fst snd] in Heq, Hbefore, Hend.
      rewrite Heq. exists r, (Datatypes.S posts).
      split.
      { f_equal. f_equal; [simpl; by rewrite Hfetch|].
        rewrite <- !app_assoc. simpl.
        destruct posts as [|posts']; [lia | done]. }
      split; [lia|]. split.
      * intros [|k] Hk; [by rewrite Hfirst, Hmsg|].
        rewrite Hnext. apply Hbefore. lia.
      * replace (Datatypes.S posts - 1)%nat
          with (Datatypes.S (posts - 1)) by lia.
        rewrite Hnext.
        destruct (thrown_message (reply_at S fetch request (posts - 1) s));
          [|done].
        destruct Hend as [-> ->]. done.
  - destruct reply as [m | status error | success translation error fc stats];
      try discriminate Hmsg.
    destruct success; [|discriminate Hmsg].
    exists (Translated translation sourceLang targetLang fc stats), 1%nat.
    split; [simpl; by rewrite Hfetch|]. split; [lia|].
    split; [intros k Hk; lia|].
    simpl. rewrite Hfirst. simpl. by eexists _, _, _, _.
Qed.

Lemma retry_trace_valid request attempt posts :
  1 <= attempt ->
  trim (request_text request) <> [] -> len (request_text request) <= 10000 ->
  request_model request = model ->
  Forall (valid_event (request_source_lang request)
            (request_target_lang request))
    (retry_trace request attempt posts).
Proof.
  intros Hattempt Hblank Hlen Hmodel. revert attempt Hattempt.
  induction posts as [|posts IH]; intros attempt Hattempt; [constructor|].
  destruct posts as [|posts'].
  - constructor; [by simpl | constructor].
  - cbn [retry_trace]. constructor; [by simpl|].
    constructor; [simpl; lia|]. apply IH. lia.
Qed.

Lemma segment_loop_ok
    (tt : jsstring -> jsstring -> jsstring -> S * list Event
          -> option (Outcome * (S * list Event)))
    (sourceLang targetLang : jsstring) (segments : list jsstring) :
  (forall segment st, In segment segments ->
     call_ok S fetch segment sourceLang targetLang st
       (tt segment sourceLang targetLang st)) ->
  forall translations st,
    exists outs s' new,
      segment_loop S tt sourceLang targetLang segments translations st
      = Some (Some (translations ++ outs), (s', snd st ++ new))
      /\ Forall (valid_event sourceLang targetLang) new
      /\ ((forall request s, thrown_message (fst (fetch request s)) <> None) ->
          outs = segments).
Proof.
  induction segments as [|segment rest IH]; intros Htt translations st.
  - exists [], (fst st), []. rewrite !app_nil_r.
    split; [by destruct st|]. split; [constructor | done].
  - cbn [segment_loop].
    destruct (Htt segment st (or_introl eq_refl))
      as (r & s1 & new1 & -> & Hvalid1 & _ & Hdown1).
    set (out := if result_success r then result_translation r else segment).
    set (st2 := match rest with
                | [] => (s1, snd st ++ new1)
                | _ :: _ => (fst (s1, snd st ++ new1),
                             snd (s1, snd st ++ new1) ++ [Waited 500])
                end).
    destruct (IH (fun seg st' Hin => Htt seg st' (or_intror Hin))
                (translations ++ [out]) st2)
      as (outs & s' & new2 & Heq & Hvalid2 & Hdown2).
    rewrite Heq.
    exists (out :: outs), s',
      (new1 ++ match rest with [] => [] | _ :: _ => [Waited 500] end ++ new2).
    split; [|split].
    + f_equal. f_equal; [by rewrite <- app_assoc|].
      f_equal. subst st2. destruct rest; simpl; by rewrite <- !app_assoc.
    + apply Forall_app. split; [done|]. apply Forall_app. split; [|done].
      destruct rest; constructor; [simpl; lia | constructor].
    + intros Hdown. rewrite (Hdown2 Hdown). f_equal. subst out.
      destruct (result_success r) eqn:Hr; [by apply Hdown1 | done].
Qed.

Lemma translateText_ok fuel : forall text sourceLang targetLang st,
  (length text <= fuel)%nat ->
  call_ok S fetch text sourceLang targetLang st
    (translateText S fetch fuel text sourceLang targetLang st).
Proof.
  induction fuel as [|fuel IH]; intros text sourceLang targetLang st Hfuel.
  - assert (Hshort : (10000 <? len text) = false).
    { apply Z.ltb_ge. unfold len. lia. }
    cbn [translateText]. rewrite Hshort.
    destruct (negb (truthy text) || (len (trim text) =? 0)) eqn:Hblank.
    + exists (Failed (js "文本為空") None), (fst st), [].
      rewrite app_nil_r. split; [by destruct st|]. split; [constructor|].
      split; [|done]. apply Z.ltb_ge in Hshort. lia.
    + apply blank_guard in Hblank. apply Z.ltb_ge in Hshort.
      destruct (attempts_spec (Z.to_nat retryCount) 1 text sourceLang targetLang
                  st) as (r & posts & s' & Heq & _ & _ & _ & _ & Hdown);
        [vm_compute; lia | reflexivity |].
      rewrite Heq. eexists r, s', _. split; [reflexivity|].
      split; [exact (retry_trace_valid
                       {| request_text := text;
                          request_source_lang := sourceLang;
                          request_target_lang := targetLang;
                          request_model := model |} 1 posts ltac:(lia)
                       Hblank Hshort eq_refl)|].
      split; [lia|]. intros Hd Hr. rewrite (Hdown Hd) in Hr. done.
  - cbn [translateText].
    destruct (negb (truthy text) || (len (trim text) =? 0)) eqn:Hblank.
    + apply blank_guard_true in Hblank.
      exists (Failed (js "文本為空") None), (fst st), [].
      rewrite app_nil_r. split; [by destruct st|]. split; [constructor|].
      split; [done | done].
    + apply blank_guard in Hblank.
      destruct (10000 <? len text) eqn:Hlong.
      * apply Z.ltb_lt in Hlong. unfold splitAndTranslate.
        destruct (splitText_shorter_segments text 5000 ltac:(lia) ltac:(lia))
          as [_ Hshorter].
        destruct (segment_loop_ok (translateText S fetch fuel) sourceLang
                    targetLang (splitText text 5000)) with
          (translations := @nil jsstring) (st := st)
          as (outs & s' & new & Heq & Hvalid & Hdown).
        { intros segment st' Hin. apply IH.
          rewrite List.Forall_forall in Hshorter.
          specialize (Hshorter segment Hin). unfold len in Hshorter. lia. }
        rewrite Heq. eexists _, s', new. split; [done|]. split; [done|].
        split; [intros _ _; by eexists _, _|].
        intros Hd _. simpl. rewrite (Hdown Hd). apply splitText_concat.
      * apply Z.ltb_ge in Hlong.
        destruct (attempts_spec (Z.to_nat retryCount) 1 text sourceLang
                    targetLang st)
          as (r & posts & s' & Heq & _ & _ & _ & _ & Hdown);
          [vm_compute; lia | reflexivity |].
        rewrite Heq. eexists r, s', _. split; [reflexivity|].
        split; [exact (retry_trace_valid
                         {| request_text := text;
                            request_source_lang := sourceLang;
                            request_target_lang := targetLang;
                            request_model := model |} 1 posts ltac:(lia)
                         Hblank Hlong eq_refl)|].
        split; [lia|]. intros Hd Hr. rewrite (Hdown Hd) in Hr. done.
Qed.

Lemma segment_loop_ext
    (tt1 tt2 : jsstring -> jsstring -> jsstring -> S * list Event
               -> option (Outcome * (S * list Event)))
    (sourceLang targetLang : jsstring) (segments : list jsstring) :
  (forall segment st, In segment segments ->
     tt1 segment sourceLang targetLang st = tt2 segment sourceLang targetLang st) ->
  forall translations st,
    segment_loop S tt1 sourceLang targetLang segments translations st
    = segment_loop S tt2 sourceLang targetLang segments translations st.
Proof.
  induction segments as [|segment rest IH]; intros Hext translations st;
    [done|].
  cbn [segment_loop]. rewrite (Hext segment st (or_introl eq_refl)).
  destruct (tt2 segment sourceLang targetLang st) as [[[r| |] st1]|]; try done.
  apply IH. intros seg st' Hin. apply Hext. by right.
Qed.

Lemma translateText_fuel f1 : forall f2 text sourceLang targetLang st,
  (length text <= f1)%nat -> (length text <= f2)%nat ->
  translateText S fetch f1 text sourceLang targetLang st
  = translateText S fetch f2 text sourceLang targetLang st.
Proof.
  induction f1 as [|f1 IH]; intros f2 text sourceLang targetLang st H1 H2.
  - assert (Hshort : (10000 <? len text) = false).
    { apply Z.ltb_ge. unfold len. lia. }
    destruct f2; cbn [translateText]; by rewrite Hshort.
  - destruct f2 as [|f2].
    + assert (Hshort : (10000 <? len text) = false).
      { apply Z.ltb_ge. unfold len. lia. }
      cbn [translateText]. by rewrite Hshort.
    + cbn [translateText].
      destruct (negb (truthy text) || (len (trim text) =? 0)); [done|].
      destruct (10000 <? len text) eqn:Hlong; [|done].
      apply Z.ltb_lt in Hlong. unfold splitAndTranslate.
      destruct (splitText_shorter_segments text 5000 ltac:(lia) ltac:(lia))
        as [_ Hshorter].
      rewrite (segment_loop_ext (translateText S fetch f1)
                 (translateText S fetch f2)); [done|].
      intros segment st' Hin. rewrite List.Forall_forall in Hshorter.
      specialize (Hshorter segment Hin). unfold len in Hshorter.
      apply IH; lia.
Qed.

End RequestProperties.

(** For a text that is not blank and has at most 10000 code units,
    [translateText] posts the same request one to three times, waiting 1000
    and then 2000 milliseconds between the posts and not after the last.
    Every exchange before the last one failed.  When the last exchange
    succeeds, the result is the translation, cache flag and figures of that
    exchange; when it fails, it is the third exchange, and the result is a
    failure with the message of that exchange after the count of retries,
    and with the text.  The service is left as the posts left it. *)
Theorem translateText_retries (S : Type)
    (fetch : TranslateRequest -> S -> FetchResult * S) (fuel : nat)
    (text sourceLang targetLang : jsstring) (st : S * list Event) :
  trim text <> [] -> len text <= 10000 ->
  let request := {| request_text := text; request_source_lang := sourceLang;
                    request_target_lang := targetLang;
                    request_model := model |} in
  let reply n := reply_at S fetch request n (fst st) in
  exists r posts,
    translateText S fetch fuel text sourceLang targetLang st
    = Some (Returns r, (state_after S fetch request posts (fst st),
                        snd st ++ retry_trace request 1 posts))
    /\ (1 <= posts <= 3)%nat
    /\ (forall k, (k + 1 < posts)%nat -> thrown_message (reply k) <> None)
    /\ match thrown_message (reply (posts - 1)%nat) with
       | None =>
         exists t e fc stats,
           reply (posts - 1)%nat = Body true t e fc stats
           /\ r = Translated t sourceLang targetLang fc stats
       | Some m =>
         posts = 3%nat
         /\ r = Failed (js "翻譯失敗 (3次重試): " ++ m) (Some text)
       end.
Proof.
  intros Hblank Hlen request reply.
  destruct (attempts_exact S fetch (Z.to_nat retryCount) 1 text sourceLang
              targetLang st)
    as (r & posts & Heq & Hposts & Hbefore & Hend);
    [vm_compute; lia | reflexivity |].
  exists r, posts.
  apply blank_guard in Hblank. apply Z.ltb_ge in Hlen.
  split.
  { destruct fuel; cbn [translateText]; by rewrite Hblank, Hlen, Heq. }
  split; [exact Hposts|]. split; [exact Hbefore | exact Hend].
Qed.

Lemma translateText_retries_witness :
  let fetch : TranslateRequest -> nat -> FetchResult * nat :=
    fun _ n => (if (n <? 1)%nat then NotOk 503 None
                else Body true (js "你好") None false None, Datatypes.S n) in
  let request := {| request_text := js "Hello";
                    request_source_lang := js "auto";
                    request_target_lang := js "zh-tw";
                    request_model := model |} in
  translateText nat fetch 0 (js "Hello") (js "auto") (js "zh-tw") (0%nat, [])
  = Some (Returns (Translated (js "你好") (js "auto") (js "zh-tw") false None),
          (2%nat, [Posted request; Waited 1000; Posted request])).
Proof.
  intros fetch request.
  destruct (translateText_retries nat fetch 0 (js "Hello") (js "auto")
              (js "zh-tw") (0%nat, []))
    as (r & posts & Heq & Hposts & Hbefore & Hend).
  - vm_compute. congruence.
  - vm_compute. congruence.
  - rewrite Heq. clear Heq.
    destruct posts as [|[|[|[|posts]]]]; try lia.
    + simpl in Hend. destruct Hend as [Hend _]. discriminate Hend.
    + simpl in Hend. destruct Hend as (t & e & fc & stats & Hbody & ->).
      injection Hbody as <- _ <- <-. reflexivity.
    + exfalso. apply (Hbefore 1%nat); [lia | reflexivity].
Defined.

(** [translateText] returns a result for every text: the calls between
    [translateText] and [splitAndTranslate] end, no call runs off its end
    and none throws.  A blank text gives the failure for an empty text and
    nothing is posted; a long text always gives a result that says
    success. *)
Theorem translateText_returns (S : Type)
    (fetch : TranslateRequest -> S -> FetchResult * S) (fuel : nat)
    (text sourceLang targetLang : jsstring) (st : S * list Event) :
  (length text <= fuel)%nat ->
  (exists r st',
     translateText S fetch fuel text sourceLang targetLang st
     = Some (Returns r, st')
     /\ (trim text = [] -> r = Failed (js "文本為空") None /\ st' = st)
     /\ (trim text <> [] -> 10000 < len text -> result_success r = true))
  /\ translateText S fetch fuel text sourceLang targetLang st
     = translateText S fetch (length text) text sourceLang targetLang st.
Proof.
  intros Hfuel. split; [|by apply translateText_fuel].
  destruct (translateText_ok S fetch fuel text sourceLang targetLang st Hfuel)
    as (r & s' & new & Heq & _ & Hlong & _).
  exists r, (s', snd st ++ new). split; [done|]. split.
  - intros Hnil. apply blank_guard_true in Hnil.
    destruct fuel; cbn [translateText] in Heq; rewrite Hnil in Heq;
      injection Heq as <- Hst; by rewrite <- Hst.
  - intros Hblank Hl. by destruct (Hlong Hl Hblank) as (t & n & ->).
Qed.

Lemma translateText_returns_witness :
  let fetch : TranslateRequest -> unit -> FetchResult * unit :=
    fun _ _ => (Thrown (js "Failed to fetch"), tt) in
  exists r st',
    translateText unit fetch (Z.to_nat 20001) (repeat 0x61%N (Z.to_nat 20001))
      (js "auto") (js "zh-tw") (tt, [])
    = Some (Returns r, st').
Proof.
  intros fetch.
  destruct (translateText_returns unit fetch (Z.to_nat 20001)
              (repeat 0x61%N (Z.to_nat 20001)) (js "auto") (js "zh-tw")
              (tt, [])) as [(r & st' & Heq & _) _].
  - rewrite repeat_length. lia.
  - by exists r, st'.
Defined.

(** When no exchange with the service succeeds, [translateText] on a long
    text still answers with success: every segment falls back to its
    original, and the translation returned is the text itself. *)
Theorem splitAndTranslate_returns_text_when_service_fails (S : Type)
    (fetch : TranslateRequest -> S -> FetchResult * S) (fuel : nat)
    (text sourceLang targetLang : jsstring) (st : S * list Event) :
  (forall request s, thrown_message (fst (fetch request s)) <> None) ->
  (length text <= fuel)%nat -> trim text <> [] -> 10000 < len text ->
  exists segments st',
    translateText S fetch fuel text sourceLang targetLang st
    = Some (Returns (Joined text sourceLang targetLang segments), st').
Proof.
  intros Hdown Hfuel Hblank Hlong.
  destruct (translateText_ok S fetch fuel text sourceLang targetLang st Hfuel)
    as (r & s' & new & Heq & _ & Hjoined & Hsame).
  destruct (Hjoined Hlong Hblank) as (t & n & ->).
  specialize (Hsame Hdown eq_refl). simpl in Hsame. subst t.
  by exists n, (s', snd st ++ new).
Qed.

Lemma splitAndTranslate_returns_text_when_service_fails_witness :
  let fetch : TranslateRequest -> unit -> FetchResult * unit :=
    fun _ _ => (NotOk 503 None, tt) in
  let text := repeat 0x61%N (Z.to_nat 10001) in
  exists segments st',
    translateText unit fetch (Z.to_nat 10001) text (js "auto") (js "zh-tw")
      (tt, [])
    = Some (Returns (Joined text (js "auto") (js "zh-tw") segments), st').
Proof.
  intros fetch text.
  apply splitAndTranslate_returns_text_when_service_fails.
  - intros request s. vm_compute. congruence.
  - subst text. rewrite repeat_length. lia.
  - vm_compute. congruence.
  - vm_compute. reflexivity.
Defined.

(** Whatever the text, every request that [translateText] posts, directly
    or through [splitAndTranslate], carries a text that is not blank and has
    at most 10000 code units, with the languages of the call and the model of
    the client, and every wait is positive. *)
Theorem translateText_posts_valid_requests (S : Type)
    (fetch : TranslateRequest -> S -> FetchResult * S) (fuel : nat)
    (text sourceLang targetLang : jsstring) (st : S * list Event) :
  (length text <= fuel)%nat ->
  exists outcome s' new,
    translateText S fetch fuel text sourceLang targetLang st
    = Some (outcome, (s', snd st ++ new))
    /\ Forall (valid_event sourceLang targetLang) new.
Proof.
  intros Hfuel.
  destruct (translateText_ok S fetch fuel text sourceLang targetLang st Hfuel)
    as (r & s' & new & Heq & Hvalid & _).
  by exists (Returns r), s', new.
Qed.

Lemma translateText_posts_valid_requests_witness :
  let fetch : TranslateRequest -> unit -> FetchResult * unit :=
    fun _ _ => (NotOk 503 None, tt) in
  exists outcome s' new,
    translateText unit fetch (Z.to_nat 10001)
      (js "   " ++ repeat 0x61%N (Z.to_nat 9998)) (js "auto") (js "en")
      (tt, [])
    = Some (outcome, (s', new))
    /\ Forall (valid_event (js "auto") (js "en")) new.
Proof.
  intros fetch.
  apply (translateText_posts_valid_requests unit fetch (Z.to_nat 10001)
           (js "   " ++ repeat 0x61%N (Z.to_nat 9998)) (js "auto") (js "en")
           (tt, [])).
  rewrite length_app, repeat_length.
  replace (length (js "   ")) with 3%nat by (vm_compute; reflexivity). lia.
Defined.

(** ** The client in front of the service *)

Lemma serve_valid (rt : Runtime) (request : TranslateRequest) (w : World) :
  let key := cacheKey (request_model request) (request_source_lang request)
               (request_target_lang request) (request_text request) in
  let rq := generate_request (request_text request)
              (request_source_lang request) (request_target_lang request)
              (request_model request) in
  trim (request_text request) <> [] -> len (request_text request) <= 10000 ->
  (forall cached, cache w !! key = Some cached ->
     serve rt request w
     = (Body true (Server.translation cached) None true
          (Some (Server.stats cached)), w))
  /\ (cache w !! key = None ->
      forall response stats,
        rt (calls w) rq = Completion response stats ->
        serve rt request w
        = (Body true (clean response) None false (Some stats),
           {| cache := <[key := {| Server.translation := clean response;
                                   Server.model := request_model request;
                                   Server.stats := stats |}]> (cache w);
              calls := calls w ++ [rq] |}))
  /\ (cache w !! key = None ->
      forall message,
        rt (calls w) rq = Failure message ->
        serve rt request w
        = (NotOk 500 (Some (failure_message message)),
           {| cache := cache w; calls := calls w ++ [rq] |})).
Proof.
  intros key rq Hblank Hlen. unfold serve.
  destruct (translate_valid rt
              {| text := request_text request;
                 source_lang := Some (request_source_lang request);
                 target_lang := Some (request_target_lang request);
                 body_model := Some (request_model request) |} w Hblank Hlen)
    as (Hhit & Hok & Hfail).
  cbn [default text source_lang target_lang body_model] in Hhit, Hok, Hfail.
  fold key rq in Hhit, Hok, Hfail.
  split; [|split].
  - intros cached Hc. by rewrite (Hhit _ Hc).
  - intros Hmiss response stats Hrt. by rewrite (Hok Hmiss _ _ Hrt).
  - intros Hmiss message Hrt. by rewrite (Hfail Hmiss _ Hrt).
Qed.

(** The client and the service together, for a text that is not blank and
    has at most 10000 code units and is not in the cache: when the runtime
    completes, [translateText] posts once and returns the cleaned
    translation with [fromCache = false]; the same call made again, whatever
    the runtime would do then, posts once and returns the same translation
    with [fromCache = true], and nothing goes to the runtime. *)
Theorem translateText_through_service (rt : Runtime) (fuel : nat)
    (text sourceLang targetLang response : jsstring) (stats : OllamaStats)
    (w : World) (events : list Event) :
  let request := {| request_text := text; request_source_lang := sourceLang;
                    request_target_lang := targetLang;
                    request_model := Requests.model |} in
  let key := cacheKey Requests.model sourceLang targetLang text in
  let rq := generate_request text sourceLang targetLang Requests.model in
  let w1 := {| cache := <[key := {| Server.translation := clean response;
                                    Server.model := Requests.model;
                                    Server.stats := stats |}]> (cache w);
               calls := calls w ++ [rq] |} in
  trim text <> [] -> len text <= 10000 ->
  cache w !! key = None ->
  rt (calls w) rq = Completion response stats ->
  translateText World (serve rt) fuel text sourceLang targetLang (w, events)
  = Some (Returns (Translated (clean response) sourceLang targetLang false
                     (Some stats)),
          (w1, events ++ [Posted request]))
  /\ forall rt' events',
       translateText World (serve rt') fuel text sourceLang targetLang
         (w1, events')
       = Some (Returns (Translated (clean response) sourceLang targetLang true
                          (Some stats)),
               (w1, events' ++ [Posted request])).
Proof.
  intros request key rq w1 Hblank Hlen Hmiss Hrt.
  pose proof Hblank as Hguard. apply blank_guard in Hguard.
  pose proof Hlen as Hshort. apply Z.ltb_ge in Hshort.
  assert (Hunfold : forall fetch st,
    translateText World fetch fuel text sourceLang targetLang st
    = Some (attempts World fetch 3 1 text sourceLang targetLang st)).
  { intros fetch st. destruct fuel; cbn [translateText];
      by rewrite Hguard, Hshort. }
  split.
  - rewrite Hunfold. cbn [attempts]. fold request. cbn [fst snd].
    destruct (serve_valid rt request w Hblank Hlen) as (_ & Hok & _).
    by rewrite (Hok Hmiss _ _ Hrt).
  - intros rt' events'. rewrite Hunfold. cbn [attempts]. fold request.
    cbn [fst snd].
    destruct (serve_valid rt' request w1 Hblank Hlen) as (Hhit & _).
    rewrite (Hhit {| Server.translation := clean response;
                     Server.model := Requests.model;
                     Server.stats := stats |}); [done|].
    apply lookup_insert_eq.
Qed.

Lemma translateText_through_service_witness :
  let stats0 := {| total_duration := 0; load_duration := 0;
                   prompt_eval_count := 0; eval_count := 0 |} in
  let rt : Runtime := fun _ _ => Completion (js "翻譯結果：你好") stats0 in
  exists w1 events,
    translateText World (serve rt) 0 (js "Hello") (js "auto") (js "zh-tw")
      ({| cache := ∅; calls := [] |}, [])
    = Some (Returns (Translated (js "你好") (js "auto") (js "zh-tw") false
                       (Some stats0)), (w1, events)).
Proof.
  intros stats0 rt.
  destruct (translateText_through_service rt 0 (js "Hello") (js "auto")
              (js "zh-tw") (js "翻譯結果：你好") stats0
              {| cache := ∅; calls := [] |} []) as [Heq _].
  - vm_compute. congruence.
  - vm_compute. congruence.
  - apply lookup_empty.
  - reflexivity.
  - eexists _, _. exact Heq.
Defined.

(** The client and the service together when the runtime keeps failing: the
    service stores nothing for a failure, so each of the three posts of the
    client reaches the runtime; the client waits 1000 and 2000 milliseconds
    in between and returns a failure whose message is the message of the
    runtime under the prefix of the service and that of the client. *)
Theorem translateText_through_failing_runtime (rt : Runtime) (fuel : nat)
    (text sourceLang targetLang message : jsstring) (w : World)
    (events : list Event) :
  let request := {| request_text := text; request_source_lang := sourceLang;
                    request_target_lang := targetLang;
                    request_model := Requests.model |} in
  let key := cacheKey Requests.model sourceLang targetLang text in
  let rq := generate_request text sourceLang targetLang Requests.model in
  trim text <> [] -> len text <= 10000 ->
  cache w !! key = None ->
  (forall history, rt history rq = Failure message) ->
  translateText World (serve rt) fuel text sourceLang targetLang (w, events)
  = Some (Returns (Failed (js "翻譯失敗 (3次重試): 翻譯失敗: " ++ message)
                     (Some text)),
          ({| cache := cache w; calls := calls w ++ [rq; rq; rq] |},
           events ++ retry_trace request 1 3)).
Proof.
  intros request key rq Hblank Hlen Hmiss Hrt.
  pose proof Hblank as Hguard. apply blank_guard in Hguard.
  pose proof Hlen as Hshort. apply Z.ltb_ge in Hshort.
  assert (Hunfold :
    translateText World (serve rt) fuel text sourceLang targetLang (w, events)
    = Some (attempts World (serve rt) 3 1 text sourceLang targetLang
              (w, events))).
  { destruct fuel; cbn [translateText]; by rewrite Hguard, Hshort. }
  rewrite Hunfold. clear Hunfold.
  assert (Hserve : forall calls0,
    serve rt request {| cache := cache w; calls := calls0 |}
    = (NotOk 500 (Some (failure_message message)),
       {| cache := cache w; calls := calls0 ++ [rq] |})).
  { intros calls0.
    destruct (serve_valid rt request {| cache := cache w; calls := calls0 |}
                Hblank Hlen) as (_ & _ & Hfail).
    by apply Hfail. }
  assert (Hmsg : thrown_message (NotOk 500 (Some (failure_message message)))
                 = Some (js "翻譯失敗: " ++ message)).
  { reflexivity. }
  destruct w as [c calls0]. cbn [cache calls] in *.
  cbn [attempts]. fold request. cbn [fst snd].
  rewrite Hserve, Hmsg. change (1 =? retryCount) with false. cbv iota.
  rewrite Hserve, Hmsg. change (1 + 1 =? retryCount) with false. cbv iota.
  rewrite Hserve, Hmsg. change (1 + 1 + 1 =? retryCount) with true. cbv iota.
  rewrite failed_prefix, <- !app_assoc. reflexivity.
Qed.

Lemma translateText_through_failing_runtime_witness :
  let rt : Runtime := fun _ _ => Failure (js "timeout of 30000ms exceeded") in
  exists st',
    translateText World (serve rt) 0 (js "Hello") (js "auto") (js "zh-tw")
      ({| cache := ∅; calls := [] |}, [])
    = Some (Returns
              (Failed (js "翻譯失敗 (3次重試): 翻譯失敗: "
                       ++ js "timeout of 30000ms exceeded")
                 (Some (js "Hello"))), st').
Proof.
  intros rt. eexists.
  apply (translateText_through_failing_runtime rt 0 (js "Hello") (js "auto")
           (js "zh-tw") (js "timeout of 30000ms exceeded")
           {| cache := ∅; calls := [] |} []).
  - vm_compute. congruence.
  - vm_compute. congruence.
  - apply lookup_empty.
  - reflexivity.
Defined.

(** The service never turns away a request of [translateText] for its text:
    whatever the text given to the client, no post of the call can be
    answered with the status 400 of the validation. *)
Theorem translateText_never_turned_away (rt : Runtime) (fuel : nat)
    (text sourceLang targetLang : jsstring) (w : World) (events : list Event) :
  (length text <= fuel)%nat ->
  exists outcome w' new,
    translateText World (serve rt) fuel text sourceLang targetLang (w, events)
    = Some (outcome, (w', events ++ new))
    /\ forall request, In (Posted request) new ->
       forall rt' w0 error, fst (serve rt' request w0) <> NotOk 400 error.
Proof.
  intros Hfuel.
  destruct (translateText_ok World (serve rt) fuel text sourceLang targetLang
              (w, events) Hfuel) as (r & w' & new & Heq & Hvalid & _).
  exists (Returns r), w', new. split; [exact Heq|].
  intros request Hin rt' w0 error.
  rewrite List.Forall_forall in Hvalid.
  destruct (Hvalid _ Hin) as (Hblank & Hlen & _).
  destruct (serve_valid rt' request w0 Hblank Hlen) as (Hhit & Hok & Hfail).
  destruct (cache w0 !! _) as [cached|] eqn:Hc.
  - by rewrite (Hhit _ eq_refl).
  - destruct (rt' (calls w0) _) as [response stats | message] eqn:Hrt.
    + by rewrite (Hok eq_refl _ _ eq_refl).
    + by rewrite (Hfail eq_refl _ eq_refl).
Qed.

Lemma translateText_never_turned_away_witness :
  let rt : Runtime := fun _ _ => Failure (js "down") in
  exists outcome w' new,
    translateText World (serve rt) (Z.to_nat 10001)
      (repeat 0x61%N (Z.to_nat 10001)) (js "auto") (js "zh-tw")
      ({| cache := ∅; calls := [] |}, [])
    = Some (outcome, (w', new)).
Proof.
  intros rt.
  destruct (translateText_never_turned_away rt (Z.to_nat 10001)
              (repeat 0x61%N (Z.to_nat 10001)) (js "auto") (js "zh-tw")
              {| cache := ∅; calls := [] |} [])
    as (outcome & w' & new & Heq & _).
  - rewrite repeat_length. lia.
  - by exists outcome, w', new.
Defined.

(** ** Short texts have keys of their own *)

Lemma in_count_from (n : nat) : forall start x,
  (start <= x < start + N.of_nat n)%N ->
  In x (Enumeration.count_from start n).
Proof.
  induction n as [|n IH]; intros start x Hx; [lia|].
  simpl. destruct (N.eq_dec start x) as [->|Hne]; [by left|].
  right. apply IH. lia.
Qed.

(** A property of all numbers below a bound, decided by running through
    them. *)
Lemma forall_below (P : N -> bool) (n : nat) :
  forallb P (Enumeration.count_from 0 n) = true ->
  forall x, (x < N.of_nat n)%N -> P x = true.
Proof.
  intros Hall x Hx. rewrite forallb_forall in Hall. apply Hall.
  apply in_count_from. lia.
Qed.

Lemma forall_below2 (P : N -> N -> bool) (n m : nat) :
  forallb (fun x => forallb (P x) (Enumeration.count_from 0 m))
    (Enumeration.count_from 0 n) = true ->
  forall x y, (x < N.of_nat n)%N -> (y < N.of_nat m)%N -> P x y = true.
Proof.
  intros Hall x y Hx Hy.
  apply (forall_below (P x) m); [|done].
  by apply (forall_below
              (fun x => forallb (P x) (Enumeration.count_from 0 m)) n).
Qed.

Lemma base64_digit_inj (u v : N) :
  (u < 64)%N -> (v < 64)%N -> base64_digit u = base64_digit v -> u = v.
Proof.
  intros Hu Hv Heq.
  pose proof (forall_below2
    (fun u v => implb (base64_digit u =? base64_digit v)%N (u =? v)%N) 64 64
    ltac:(vm_compute; reflexivity) u v Hu Hv) as H.
  cbv beta in H. apply N.eqb_eq in Heq. rewrite Heq in H. simpl in H.
  by apply N.eqb_eq.
Qed.

Lemma base64_digit_not_pad (u : N) : (u < 64)%N -> base64_digit u <> 0x3D%N.
Proof.
  intros Hu Heq.
  pose proof (forall_below (fun u => negb (base64_digit u =? 0x3D)%N) 64
    ltac:(vm_compute; reflexivity) u Hu) as H.
  cbv beta in H. apply N.eqb_eq in Heq. by rewrite Heq in H.
Qed.

(** The four digits of a group, as functions of its bytes, and how the bytes
    are read back from them. *)
Lemma base64_bits (x y : N) :
  (x < 256)%N -> (y < 256)%N ->
  let d2 := N.lor (N.shiftl (N.land x 3) 4) (N.shiftr y 4) in
  let d3 := N.lor (N.shiftl (N.land x 15) 2) (N.shiftr y 6) in
  (N.shiftr x 2 < 64 /\ N.land x 63 < 64 /\ d2 < 64 /\ d3 < 64
   /\ N.shiftl (N.land x 3) 4 < 64 /\ N.shiftl (N.land x 15) 2 < 64)%N
  /\ N.lor (N.shiftl (N.shiftr x 2) 2) (N.land x 3) = x
  /\ N.lor (N.shiftl (N.shiftr x 4) 4) (N.land x 15) = x
  /\ N.lor (N.shiftl (N.shiftr x 6) 6) (N.land x 63) = x
  /\ N.shiftr d2 4 = N.land x 3 /\ N.land d2 15 = N.shiftr y 4
  /\ N.shiftr d3 2 = N.land x 15 /\ N.land d3 3 = N.shiftr y 6
  /\ N.shiftr (N.shiftl (N.land x 3) 4) 4 = N.land x 3
  /\ N.shiftr (N.shiftl (N.land x 15) 2) 2 = N.land x 15.
Proof.
  intros Hx Hy d2 d3.
  pose proof (forall_below2
    (fun x y =>
       let d2 := N.lor (N.shiftl (N.land x 3) 4) (N.shiftr y 4) in
       let d3 := N.lor (N.shiftl (N.land x 15) 2) (N.shiftr y 6) in
       (N.shiftr x 2 <? 64)%N && (N.land x 63 <? 64)%N && (d2 <? 64)%N
       && (d3 <? 64)%N && (N.shiftl (N.land x 3) 4 <? 64)%N
       && (N.shiftl (N.land x 15) 2 <? 64)%N
       && (N.lor (N.shiftl (N.shiftr x 2) 2) (N.land x 3) =? x)%N
       && (N.lor (N.shiftl (N.shiftr x 4) 4) (N.land x 15) =? x)%N
       && (N.lor (N.shiftl (N.shiftr x 6) 6) (N.land x 63) =? x)%N
       && (N.shiftr d2 4 =? N.land x 3)%N && (N.land d2 15 =? N.shiftr y 4)%N
       && (N.shiftr d3 2 =? N.land x 15)%N && (N.land d3 3 =? N.shiftr y 6)%N
       && (N.shiftr (N.shiftl (N.land x 3) 4) 4 =? N.land x 3)%N
       && (N.shiftr (N.shiftl (N.land x 15) 2) 2 =? N.land x 15)%N)
    256 256 ltac:(vm_compute; reflexivity) x y Hx Hy) as H.
  cbv beta zeta in H. fold d2 d3 in H.
  repeat (apply andb_true_iff in H as [H ?]).
  repeat match goal with
         | H : (_ <? _)%N = true |- _ => apply N.ltb_lt in H
         | H : (_ =? _)%N = true |- _ => apply N.eqb_eq in H
         end.
  repeat split; assumption.
Qed.

Lemma cons_eq_inv (a b : N) (l k : list N) :
  a :: l = b :: k -> a = b /\ l = k.
Proof. by intros [= -> ->]. Qed.

Lemma base64_inj_bounded (n : nat) : forall b1 b2 : list N,
  (length b1 <= n)%nat ->
  Forall (fun b => (b < 256)%N) b1 -> Forall (fun b => (b < 256)%N) b2 ->
  base64 b1 = base64 b2 -> b1 = b2.
Proof.
  induction n as [|n IH]; intros b1 b2 Hlen H1 H2 Heq.
  - destruct b1; [|simpl in Hlen; lia].
    by destruct b2 as [|a' [|b' [|c' r']]].
  - destruct b1 as [|a [|b [|c r]]]; destruct b2 as [|a' [|b' [|c' r']]];
      cbn [base64] in Heq; try discriminate Heq; try reflexivity;
      repeat match goal with
             | H : Forall _ (_ :: _) |- _ =>
               apply List.Forall_cons_iff in H as [? H]
             end;
      apply cons_eq_inv in Heq as [E1 Heq];
      apply cons_eq_inv in Heq as [E2 Heq];
      apply cons_eq_inv in Heq as [E3 Heq];
      apply cons_eq_inv in Heq as [E4 Erest].
    + (* one byte against one byte *)
      pose proof (base64_bits a a) as Fa. pose proof (base64_bits a' a') as Fa'.
      cbv zeta in Fa, Fa'.
      destruct Fa as ((?&?&?&?&?&?)&?&?&?&?&?&?&?&?&?); [done|done|].
      destruct Fa' as ((?&?&?&?&?&?)&?&?&?&?&?&?&?&?&?); [done|done|].
      apply base64_digit_inj in E1, E2; try done. congruence.
    + exfalso. symmetry in E3. revert E3. apply base64_digit_not_pad.
      by destruct (base64_bits b' b') as ((?&?&?&?&?&?)&_).
    + exfalso. symmetry in E3. revert E3. apply base64_digit_not_pad.
      by destruct (base64_bits b' c') as ((?&?&?&?&?&?)&_).
    + exfalso. revert E3. apply base64_digit_not_pad.
      by destruct (base64_bits b b) as ((?&?&?&?&?&?)&_).
    + (* two bytes against two bytes *)
      pose proof (base64_bits a b) as Fa. pose proof (base64_bits a' b') as Fa'.
      pose proof (base64_bits b b) as Fb. pose proof (base64_bits b' b') as Fb'.
      cbv zeta in Fa, Fa', Fb, Fb'.
      destruct Fa as ((?&?&?&?&?&?)&?&?&?&?&?&?&?&?&?); [done|done|].
      destruct Fa' as ((?&?&?&?&?&?)&?&?&?&?&?&?&?&?&?); [done|done|].
      destruct Fb as ((?&?&?&?&?&?)&?&?&?&?&?&?&?&?&?); [done|done|].
      destruct Fb' as ((?&?&?&?&?&?)&?&?&?&?&?&?&?&?&?); [done|done|].
      apply base64_digit_inj in E1, E2, E3; try done.
      assert (a = a') by congruence. assert (b = b') by congruence.
      congruence.
    + exfalso. symmetry in E4. revert E4.
      apply base64_digit_not_pad.
      by destruct (base64_bits c' c') as ((?&?&?&?&?&?)&_).
    + exfalso. revert E3. apply base64_digit_not_pad.
      by destruct (base64_bits b c) as ((?&?&?&?&?&?)&_).
    + exfalso. revert E4. apply base64_digit_not_pad.
      by destruct (base64_bits c c) as ((?&?&?&?&?&?)&_).
    + (* a full group against a full group *)
      pose proof (base64_bits a b) as Fa. pose proof (base64_bits a' b') as Fa'.
      pose proof (base64_bits b c) as Fb. pose proof (base64_bits b' c') as Fb'.
      pose proof (base64_bits c c) as Fc. pose proof (base64_bits c' c') as Fc'.
      cbv zeta in Fa, Fa', Fb, Fb', Fc, Fc'.
      destruct Fa as ((?&?&?&?&?&?)&?&?&?&?&?&?&?&?&?); [done|done|].
      destruct Fa' as ((?&?&?&?&?&?)&?&?&?&?&?&?&?&?&?); [done|done|].
      destruct Fb as ((?&?&?&?&?&?)&?&?&?&?&?&?&?&?&?); [done|done|].
      destruct Fb' as ((?&?&?&?&?&?)&?&?&?&?&?&?&?&?&?); [done|done|].
      destruct Fc as ((?&?&?&?&?&?)&?&?&?&?&?&?&?&?&?); [done|done|].
      destruct Fc' as ((?&?&?&?&?&?)&?&?&?&?&?&?&?&?&?); [done|done|].
      apply base64_digit_inj in E1, E2, E3, E4; try done.
      assert (a = a') by congruence. assert (b = b') by congruence.
      assert (c = c') by congruence.
      assert (r = r') by (apply IH; [simpl in Hlen; lia | done | done | done]).
      congruence.
Qed.

Lemma base64_length_le (k : nat) : forall bs : list N,
  (length bs <= 3 * k)%nat -> (length (base64 bs) <= 4 * k)%nat.
Proof.
  induction k as [|k IH]; intros bs Hlen.
  - destruct bs; [simpl; lia | simpl in Hlen; lia].
  - destruct bs as [|a [|b [|c r]]]; try (simpl; lia).
    change (length (base64 (a :: b :: c :: r)))
      with (Datatypes.S (Datatypes.S (Datatypes.S (Datatypes.S
              (length (base64 r)))))).
    simpl in Hlen. specialize (IH r ltac:(lia)). lia.
Qed.

(** The code units that stand for themselves: any unit that is not half of
    a surrogate pair. *)
Lemma utf8_unit_facts (c : N) :
  (c < 0x10000)%N ->
  is_high_surrogate c = false -> is_low_surrogate c = false ->
  (0x80 <= c)%N ->
  if (c <? 0x800)%N then
    let b0 := N.lor 0xC0 (N.shiftr c 6) in
    let b1 := N.lor 0x80 (N.land c 0x3F) in
    (b0 <? 0x80)%N = false /\ (b0 <? 0xE0)%N = true
    /\ N.lor (N.shiftl (N.land b0 0x1F) 6) (N.land b1 0x3F) = c
    /\ (b0 < 256)%N /\ (b1 < 256)%N
  else
    let b0 := N.lor 0xE0 (N.shiftr c 12) in
    let b1 := N.lor 0x80 (N.land (N.shiftr c 6) 0x3F) in
    let b2 := N.lor 0x80 (N.land c 0x3F) in
    (b0 <? 0x80)%N = false /\ (b0 <? 0xE0)%N = false /\ (b0 <? 0xF0)%N = true
    /\ N.lor (N.shiftl (N.land b0 0x0F) 12)
         (N.lor (N.shiftl (N.land b1 0x3F) 6) (N.land b2 0x3F)) = c
    /\ (b0 < 256)%N /\ (b1 < 256)%N /\ (b2 < 256)%N.
Proof.
  intros Hc Hhi Hlo Hge.
  pose proof (forall_below
    (fun c =>
       if (c <? 0x80)%N then true
       else if (c <? 0x800)%N then
         let b0 := N.lor 0xC0 (N.shiftr c 6) in
         let b1 := N.lor 0x80 (N.land c 0x3F) in
         negb (b0 <? 0x80)%N && (b0 <? 0xE0)%N
         && (N.lor (N.shiftl (N.land b0 0x1F) 6) (N.land b1 0x3F) =? c)%N
         && (b0 <? 256)%N && (b1 <? 256)%N
       else
         let b0 := N.lor 0xE0 (N.shiftr c 12) in
         let b1 := N.lor 0x80 (N.land (N.shiftr c 6) 0x3F) in
         let b2 := N.lor 0x80 (N.land c 0x3F) in
         negb (b0 <? 0x80)%N && negb (b0 <? 0xE0)%N && (b0 <? 0xF0)%N
         && (N.lor (N.shiftl (N.land b0 0x0F) 12)
               (N.lor (N.shiftl (N.land b1 0x3F) 6) (N.land b2 0x3F)) =? c)%N
         && (b0 <? 256)%N && (b1 <? 256)%N && (b2 <? 256)%N)
    (Z.to_nat 65536) ltac:(vm_compute; reflexivity) c ltac:(lia)) as H.
  cbv beta zeta in H.
  replace (c <? 0x80)%N with false in H by (symmetry; apply N.ltb_ge; lia).
  destruct (c <? 0x800)%N; cbv zeta;
    repeat (apply andb_true_iff in H as [H ?]);
    repeat match goal with
           | H : negb _ = true |- _ => apply negb_true_iff in H
           | H : (_ <? 256)%N = true |- _ => apply N.ltb_lt in H
           | H : (_ =? _)%N = true |- _ => apply N.eqb_eq in H
           end;
    repeat split; assumption.
Qed.

Lemma utf8_encode_roundtrip (t : jsstring) :
  Forall (fun c => (c < 0x10000)%N /\ is_high_surrogate c = false
                   /\ is_low_surrogate c = false) t ->
  utf16_of_utf8 (utf8_encode t) = t
  /\ Forall (fun b => (b < 256)%N) (utf8_encode t).
Proof.
  induction 1 as [|c t (Hc & Hhi & Hlo) _ [IH1 IH2]]; [by split|].
  cbn [utf8_encode]. rewrite Hhi, Hlo.
  destruct (c <? 0x80)%N eqn:H80.
  - cbn [utf16_of_utf8]. rewrite H80, IH1. split; [done|].
    constructor; [apply N.ltb_lt in H80; lia | done].
  - apply N.ltb_ge in H80.
    pose proof (utf8_unit_facts c Hc Hhi Hlo H80) as Hfacts.
    destruct (c <? 0x800)%N.
    + cbv zeta in Hfacts. destruct Hfacts as (F1 & F2 & F3 & F4 & F5).
      cbn [utf16_of_utf8]. rewrite F1, F2, F3, IH1. split; [done|].
      by repeat constructor.
    + cbv zeta in Hfacts.
      destruct Hfacts as (F1 & F2 & F3 & F4 & F5 & F6 & F7).
      unfold utf8_3. cbn [app utf16_of_utf8].
      rewrite F1, F2, F3, F4, IH1. split; [done|].
      by repeat constructor.
Qed.

Lemma cacheKey_inv (model source target t1 t2 : jsstring) :
  cacheKey model source target t1 = cacheKey model source target t2 ->
  substring (base64 (utf8_encode t1)) 0 50
  = substring (base64 (utf8_encode t2)) 0 50.
Proof.
  unfold cacheKey. intros H.
  repeat apply app_inv_head in H. exact H.
Qed.

Lemma cacheKey_inj_short (model source target t1 t2 : jsstring) :
  Forall (fun c => (c < 0x10000)%N /\ is_high_surrogate c = false
                   /\ is_low_surrogate c = false) t1 ->
  Forall (fun c => (c < 0x10000)%N /\ is_high_surrogate c = false
                   /\ is_low_surrogate c = false) t2 ->
  (length (utf8_encode t1) <= 36)%nat ->
  cacheKey model source target t1 = cacheKey model source target t2 ->
  t1 = t2.
Proof.
  intros Hwf1 Hwf2 Hshort Hkey. apply cacheKey_inv in Hkey.
  destruct (utf8_encode_roundtrip t1 Hwf1) as [Hrt1 Hb1].
  destruct (utf8_encode_roundtrip t2 Hwf2) as [Hrt2 Hb2].
  pose proof (base64_length_le 12 (utf8_encode t1) Hshort) as Hl1.
  rewrite !substring_0_take in Hkey. unfold len in Hkey.
  set (s1 := base64 (utf8_encode t1)) in *.
  set (s2 := base64 (utf8_encode t2)) in *.
  rewrite (take_ge s1) in Hkey by lia.
  assert (Hl2 : (length s2 <= 48)%nat).
  { apply (f_equal (@length N)) in Hkey. rewrite length_take in Hkey. lia. }
  rewrite (take_ge s2) in Hkey by lia.
  apply (base64_inj_bounded (length (utf8_encode t1))) in Hkey; try done.
  rewrite <- Hrt1, <- Hrt2. by rewrite Hkey.
Qed.

(** A text of at most 36 bytes in UTF-8, without surrogate code units, has a
    key of its own: every other such text, however long, has a different key
    for the same model and languages. *)
Theorem cacheKey_injective_for_short_texts
    (model source target t1 t2 : jsstring) :
  Forall (fun c => (c < 0x10000)%N /\ is_high_surrogate c = false
                   /\ is_low_surrogate c = false) t1 ->
  Forall (fun c => (c < 0x10000)%N /\ is_high_surrogate c = false
                   /\ is_low_surrogate c = false) t2 ->
  (length (utf8_encode t1) <= 36)%nat ->
  t1 <> t2 ->
  cacheKey model source target t1 <> cacheKey model source target t2.
Proof.
  intros Hwf1 Hwf2 Hshort Hne Hkey. apply Hne.
  by apply (cacheKey_inj_short model source target).
Qed.

Lemma cacheKey_injective_for_short_texts_witness :
  cacheKey (js "m") (js "auto") (js "en") (js "今天天氣很好")
  <> cacheKey (js "m") (js "auto") (js "en")
       (js "今天天氣很好，我們一起去公園散步，然後喝一杯咖啡。").
Proof.
  apply cacheKey_injective_for_short_texts.
  - apply List.Forall_forall. intros c Hc. vm_compute in Hc.
    repeat (destruct Hc as [<-|Hc]; [vm_compute; repeat split; congruence|]).
    destruct Hc.
  - apply List.Forall_forall. intros c Hc. vm_compute in Hc.
    repeat (destruct Hc as [<-|Hc]; [vm_compute; repeat split; congruence|]).
    destruct Hc.
  - vm_compute. lia.
  - vm_compute. congruence.
Defined.

(** ** A page in front of the service *)

Lemma overlay_all_successful (textNodes : list jsstring) :
  forall results : list ResultItem,
    Forall (fun r => Client.success r = true) results ->
    (length (List.filter wanted (map trim textNodes)) <= length results)%nat ->
    Forall2
      (fun textContent node =>
         if wanted (trim textContent)
         then exists translation,
                node = BilingualBlock (trim textContent) translation
         else node = TextNode textContent)
      textNodes (Positional.overlay results textNodes).
Proof.
  induction textNodes as [|textContent rest IH]; intros results Hall Hlen;
    [constructor|].
  cbn [Positional.overlay map List.filter] in *.
  destruct (wanted (trim textContent)) eqn:Hw.
  - destruct results as [|result results]; [simpl in Hlen; lia|].
    apply List.Forall_cons_iff in Hall as [Hr Hall]. rewrite Hr.
    constructor; [rewrite Hw; by eexists|].
    apply IH; [done | simpl in Hlen; lia].
  - constructor; [by rewrite Hw|]. by apply IH.
Qed.

(** A page of at most 50 eligible text nodes, a service whose runtime
    completes every request: [translateWebPage] replaces every eligible node
    with a block made of its trimmed text and a translation, leaves the
    other nodes as they are, and counts every eligible node as
    translated. *)
Theorem translateWebPage_through_service (rt : Runtime)
    (completion : list (jsstring * TranslationResult)
                  -> list (jsstring * TranslationResult))
    (targetLang : jsstring) (time : Z) (w : World)
    (textNodes : list jsstring) :
  let eligible := List.filter wanted (map trim textNodes) in
  (forall l, Permutation (completion l) l) ->
  (forall history request message, rt history request <> Failure message) ->
  (1 <= length eligible <= 50)%nat ->
  exists page,
    translateWebPage
      (PageService.serve_batch rt completion targetLang time w) textNodes
    = (PageTranslated (Z.of_nat (length eligible))
         (Z.of_nat (length eligible)) time, page)
    /\ Forall2
         (fun textContent node =>
            if wanted (trim textContent)
            then exists translation,
                   node = BilingualBlock (trim textContent) translation
            else node = TextNode textContent)
         textNodes page.
Proof.
  intros eligible Hperm Hup [Hmin Hmax].
  unfold translateWebPage. fold eligible.
  replace (length eligible =? 0)%nat with false
    by (symmetry; apply Nat.eqb_neq; lia).
  unfold Client.batchTranslate.
  replace (length eligible =? 0)%nat with false
    by (symmetry; apply Nat.eqb_neq; lia).
  replace (50 <? length eligible)%nat with false
    by (symmetry; apply Nat.ltb_ge; lia).
  unfold PageService.serve_batch, translate_batch.
  cbn [texts batch_source_lang batch_target_lang batch_model default
         from_option id].
  replace (length eligible =? 0)%nat with false
    by (symmetry; apply Nat.eqb_neq; lia).
  replace (50 <? length eligible)%nat with false
    by (symmetry; apply Nat.ltb_ge; lia).
  destruct (batchTranslate rt completion (js "auto") targetLang Requests.model
              eligible w) as [results w'] eqn:Hbatch.
  apply (batchTranslate_good rt completion Hperm (js "auto") targetLang
           Requests.model eligible (cache w)) in Hbatch as [Hall _]; [|done].
  assert (Hok : Forall (fun r => Client.success r = true)
                  (map PageService.read_entry results)).
  { apply List.Forall_forall. intros r Hr.
    apply in_map_iff in Hr as (e & <- & He).
    apply list_elem_of_In in He.
    apply list_elem_of_lookup_1 in He as [i Hi].
    destruct (Forall2_lookup_r _ _ _ _ _ Hall Hi)
      as (t & _ & [Hs | (history & message & Hfail & _)] & _); [done|].
    exfalso. by eapply Hup. }
  pose proof (Forall2_length _ _ _ Hall) as Hlen.
  pose proof (apply_loop_successful_prefix
                (map PageService.read_entry results) textNodes [] 0) as Hpage.
  pose proof (apply_loop_count
                (map PageService.read_entry results) textNodes [] 0) as Hcount.
  rewrite drop_0, (successful_prefix_all _ Hok) in Hpage, Hcount.
  fold eligible in Hcount. rewrite length_map, <- Hlen in Hcount.
  destruct (fold_left _ _ _) as [page k]. simpl in Hpage, Hcount. subst page k.
  rewrite Nat.min_id. eexists. split; [reflexivity|].
  apply overlay_all_successful; [done|]. rewrite length_map. fold eligible. lia.
Qed.

Lemma translateWebPage_through_service_witness :
  let stats0 := {| total_duration := 0; load_duration := 0;
                   prompt_eval_count := 0; eval_count := 0 |} in
  let rt : Runtime := fun _ _ => Completion (js "譯文：你好") stats0 in
  exists page,
    translateWebPage
      (PageService.serve_batch rt (@rev _) (js "zh-tw") 12
         {| cache := ∅; calls := [] |})
      [js " Hello world "; js "2024"; js "Good morning"]
    = (PageTranslated 2 2 12, page).
Proof.
  intros stats0 rt.
  destruct (translateWebPage_through_service rt (@rev _) (js "zh-tw") 12
              {| cache := ∅; calls := [] |}
              [js " Hello world "; js "2024"; js "Good morning"])
    as (page & Heq & _).
  - intros l. symmetry. apply Permutation_rev.
  - intros history request message. discriminate.
  - vm_compute. lia.
  - exists page. exact Heq.
Defined.
